(** * Churn prediction pipeline: serving-side repair, normalisation, scoring
      and the batch validation / chronological split.

    Shallow embedding of [src/app.py], [src/inference.py] and
    [src/processing.py].  Python dictionaries are finite maps from strings
    to dynamically typed values, Python floats are IEEE-754 binary64 numbers
    (the [spec_float] model of the standard library, precision 53 and
    maximal exponent 1024), exceptions are an explicit error result. *)

From Stdlib Require Import ZArith Lia List.
From Stdlib Require Import Floats.SpecFloat.
From stdpp Require Import base option list functions gmap strings sorting pretty.

Local Open Scope string_scope.
Local Open Scope list_scope.
Local Open Scope Z_scope.

(** ** Python values, exceptions *)

Module Py.

(** The three kinds of value the request payload of [app.py] holds:
    [int(...)], [float(...)] and [str(...)]. *)
Inductive value :=
  | VInt (z : Z)
  | VFloat (f : spec_float)
  | VStr (s : string).

Inductive exn :=
  | KeyError (k : string)
  | TypeError
  | ValueError (msg : string)
  | OverflowError.

Inductive result (A : Type) :=
  | Ok (a : A)
  | Raise (e : exn).
Arguments Ok {A} a.
Arguments Raise {A} e.

#[export] Instance result_ret : MRet result := fun A a => Ok a.
#[export] Instance result_bind : MBind result := fun A B f m =>
  match m with
  | Ok a => f a
  | Raise e => Raise e
  end.

(** binary64 *)
Definition prec : Z := 53.
Definition emax : Z := 1024.

(** The literal [0.0]. *)
Definition f0 : spec_float := S754_zero false.

(** [v > 0]: ordering an [int] or a [float] against the literal [0]; a
    [str] on the left raises [TypeError]. *)
Definition gt0 (v : value) : result bool :=
  match v with
  | VInt z => Ok (0 <? z)
  | VFloat f => Ok (SFltb f0 f)
  | VStr _ => Raise TypeError
  end.

(** [v == 0] (and [v == 0.0]): numeric equality; a [str] is never equal to
    a number. *)
Definition eq0 (v : value) : bool :=
  match v with
  | VInt z => z =? 0
  | VFloat f => SFeqb f f0
  | VStr _ => false
  end.

(** [v != 0.0] *)
Definition ne0 (v : value) : bool := negb (eq0 v).

(** A count that is a number and is not negative (so not a NaN either). *)
Definition nonneg (v : value) : Prop :=
  match v with
  | VInt z => 0 <= z
  | VFloat f => SFleb f0 f = true
  | VStr _ => False
  end.

(** [float(n)] for an [int]: the nearest binary64 number, ties to even;
    an [int] too large for a finite one raises [OverflowError]. *)
Definition float_of_Z (n : Z) : spec_float :=
  binary_normalize prec emax n 0 false.

Definition float_of_int (n : Z) : result spec_float :=
  match float_of_Z n with
  | S754_infinity _ => Raise OverflowError
  | f => Ok f
  end.

(** [int(x)] for a [float]: truncation towards zero. *)
Definition int_of_float (x : spec_float) : result Z :=
  match x with
  | S754_zero _ => Ok 0
  | S754_finite s m e =>
      Ok (cond_Zopp s (if 0 <=? e then Z.pos m * 2 ^ e else Z.pos m / 2 ^ (- e)))
  | S754_infinity _ => Raise OverflowError
  | S754_nan => Raise (ValueError "cannot convert float NaN to integer")
  end.

(** [n * x] for an [int] [n] and a [float] [x]: the [int] is converted
    first, the product is rounded to nearest. *)
Definition int_mul_float (n : Z) (x : spec_float) : result spec_float :=
  f ← float_of_int n; mret (SFmul prec emax f x).

(** [x >= y] on floats. *)
Definition float_ge (x y : spec_float) : bool := SFleb y x.

(** The decimal literals of the sources, as the binary64 numbers nearest
    to them: [0.70 = 0x1.6666666666666p-1], [0.85 = 0x1.b333333333333p-1],
    [0.40 = 0x1.999999999999ap-2], [0.35 = 0x1.6666666666666p-2],
    [0.50 = 0x1.0p-1]. *)
Definition lit_0_70 : spec_float := S754_finite false 6305039478318694 (-53).
Definition lit_0_85 : spec_float := S754_finite false 7656119366529843 (-53).
Definition lit_0_40 : spec_float := S754_finite false 7205759403792794 (-54).
Definition lit_0_35 : spec_float := S754_finite false 6305039478318694 (-54).
Definition lit_0_50 : spec_float := S754_finite false 4503599627370496 (-53).

(** The correctly rounded quotient of two integers, to cross-check the
    literals. *)
Definition float_of_ratio (p q : Z) : spec_float :=
  SFdiv prec emax (float_of_Z p) (float_of_Z q).

(** [d[k]] *)
Definition getitem (d : gmap string value) (k : string) : result value :=
  match d !! k with
  | Some v => Ok v
  | None => Raise (KeyError k)
  end.

End Py.
Import Py.

(** ** [app.py]: the request payload and its auto-fix block *)

Module App.

(** The values read from the form widgets, before the casts of the payload
    literal. *)
Record form := {
  tokens_per_session_7d : spec_float;
  sessions_7d : Z;
  active_days_7d : Z;
  avg_turns_per_session_7d : spec_float;
  error_rate_7d : spec_float;
  avg_latency_ms_7d : spec_float;
  sessions_trend_7d : spec_float;
  tokens_trend_7d : spec_float;
  model_switch_rate_7d : spec_float;
  activated_800 : Z;
  obs_month : Z;
  obs_dow : Z;
  primary_model_7d : string
}.

(** [payload = { "tokens_per_session_7d": float(...), ... }] *)
Definition payload (w : form) : gmap string value :=
  <["primary_model_7d" := VStr (primary_model_7d w)]>
  (<["obs_dow" := VInt (obs_dow w)]>
  (<["obs_month" := VInt (obs_month w)]>
  (<["activated_800" := VInt (activated_800 w)]>
  (<["model_switch_rate_7d" := VFloat (model_switch_rate_7d w)]>
  (<["tokens_trend_7d" := VFloat (tokens_trend_7d w)]>
  (<["sessions_trend_7d" := VFloat (sessions_trend_7d w)]>
  (<["avg_latency_ms_7d" := VFloat (avg_latency_ms_7d w)]>
  (<["error_rate_7d" := VFloat (error_rate_7d w)]>
  (<["avg_turns_per_session_7d" := VFloat (avg_turns_per_session_7d w)]>
  (<["active_days_7d" := VInt (active_days_7d w)]>
  (<["sessions_7d" := VInt (sessions_7d w)]>
  (<["tokens_per_session_7d" := VFloat (tokens_per_session_7d w)]> ∅)))))))))))).

(** The per-session metrics, and all the fields the block can assign. *)
Definition metrics : list string :=
  ["avg_turns_per_session_7d"; "tokens_per_session_7d"; "model_switch_rate_7d"].

Definition repaired_fields : list string :=
  "sessions_7d" :: "active_days_7d" :: metrics.

(** The state the block mutates: the payload dictionary and the list
    [fixes]. *)
Definition state : Type := gmap string value * list string.

(** [if payload["sessions_7d"] > 0 and payload["active_days_7d"] == 0:]
    The right operand of [and] is evaluated only when the left one holds. *)
Definition cond1 (p : gmap string value) : result bool :=
  s ← getitem p "sessions_7d";
  b ← gt0 s;
  if (b : bool) then a ← getitem p "active_days_7d"; mret (eq0 a)
  else mret false.

Definition rule1 (st : state) : result state :=
  let '(p, fixes) := st in
  c ← cond1 p;
  if (c : bool) then
    mret (<["active_days_7d" := VInt 1]> p,
          fixes ++ ["active_days_7d set to 1 because sessions_7d > 0"])
  else mret (p, fixes).

(** [if payload["active_days_7d"] > 0 and payload["sessions_7d"] == 0:] *)
Definition cond2 (p : gmap string value) : result bool :=
  a ← getitem p "active_days_7d";
  b ← gt0 a;
  if (b : bool) then s ← getitem p "sessions_7d"; mret (eq0 s)
  else mret false.

Definition rule2 (st : state) : result state :=
  let '(p, fixes) := st in
  c ← cond2 p;
  if (c : bool) then
    a ← getitem p "active_days_7d";
    mret (<["sessions_7d" := a]> p,
          fixes ++ ["sessions_7d set to active_days_7d because active_days_7d > 0"])
  else mret (p, fixes).

(** One of the three inner tests of the last rule:
    [if payload[k] != 0.0: payload[k] = 0.0; fixes.append(k + msg)]. *)
Definition zero_metric (k : string) (st : state) : result state :=
  let '(p, fixes) := st in
  v ← getitem p k;
  if ne0 v then
    mret (<[k := VFloat f0]> p,
          fixes ++ [k +:+ " set to 0 because sessions_7d = 0"])
  else mret (p, fixes).

(** [if payload["sessions_7d"] == 0:] and its three inner tests. *)
Definition rule3 (st : state) : result state :=
  s ← getitem st.1 "sessions_7d";
  if eq0 s then
    st1 ← zero_metric "avg_turns_per_session_7d" st;
    st2 ← zero_metric "tokens_per_session_7d" st1;
    zero_metric "model_switch_rate_7d" st2
  else mret st.

(** The whole block, from [fixes = []] to the last append. *)
Definition repair (p : gmap string value) : result state :=
  st1 ← rule1 (p, []);
  st2 ← rule2 st1;
  rule3 st2.

(** The realism constraints the block is there to establish, read with
    Python's numeric comparisons: no sessions means no active days and no
    per-session metrics; some sessions means some active days. *)
Definition consistent (p : gmap string value) : Prop :=
  ∃ s a t k m,
    p !! "sessions_7d" = Some s ∧ p !! "active_days_7d" = Some a ∧
    p !! "avg_turns_per_session_7d" = Some t ∧
    p !! "tokens_per_session_7d" = Some k ∧
    p !! "model_switch_rate_7d" = Some m ∧
    (eq0 s = true →
       eq0 a = true ∧ eq0 t = true ∧ eq0 k = true ∧ eq0 m = true) ∧
    (gt0 s = Ok true → gt0 a = Ok true).

End App.


(** ** [inference.py]: aligning a payload with the feature list, scoring *)

Module Inference.

(** A data frame of one row: its columns in order, each with the cell of
    that row. *)
Definition frame1 : Type := list (string * value).

Definition columns (df : frame1) : list string := df.*1.

(** [pd.DataFrame([payload])]: one column per key of the dictionary. *)
Definition DataFrame (payload : gmap string value) : frame1 :=
  map_to_list payload.

(** [if c not in df.columns: df[c] = 0]; a new column goes last. *)
Definition fill (df : frame1) (c : string) : frame1 :=
  if decide (c ∈ columns df) then df else df ++ [(c, VInt 0)].

(** The cell of column [c]. *)
Fixpoint cell (df : frame1) (c : string) : option value :=
  match df with
  | [] => None
  | (k, v) :: df' => if decide (k = c) then Some v else cell df' c
  end.

(** [df[cols]]: the listed columns, in the listed order; a label that is
    not a column raises [KeyError]. *)
Fixpoint select (df : frame1) (cols : list string) : result frame1 :=
  match cols with
  | [] => Ok []
  | c :: cols' =>
      match cell df c with
      | Some v => rest ← select df cols'; mret ((c, v) :: rest)
      | None => Raise (KeyError c)
      end
  end.

(** ASCII lower case, which is what [str.lower()] does to the letters of
    the accepted model names. *)
Definition lower_ascii (c : Ascii.ascii) : Ascii.ascii :=
  let n := Ascii.N_of_ascii c in
  if ((65 <=? n) && (n <=? 90))%N then Ascii.ascii_of_N (n + 32) else c.

Fixpoint lower (s : string) : string :=
  match s with
  | EmptyString => EmptyString
  | String c s' => String (lower_ascii c) (lower s')
  end.

Section Artifacts.

(** The artifacts loaded at import: the feature list and the two fitted
    models, each seen as the function from the prepared frame to
    [float(model.predict_proba(X)[0, 1])]. *)
Variable FEATURES : list string.
Variable XGB : frame1 → result spec_float.
Variable LOGREG_PIPE : frame1 → result spec_float.

Definition _prep (payload : gmap string value) : result frame1 :=
  let df := foldl fill (DataFrame payload) FEATURES in
  select df FEATURES.

Definition predict (payload : gmap string value) (model_choice : string)
    (threshold : spec_float) : result (gmap string value) :=
  X ← _prep payload;
  prob ← (if decide (lower model_choice ∈ ["xgb"; "xgboost"]) then XGB X
          else if decide (lower model_choice ∈ ["logreg"; "logistic"])
               then LOGREG_PIPE X
          else Raise (ValueError "model_choice must be 'xgb' or 'logreg'"));
  let pred := Z.b2z (float_ge prob threshold) in
  mret (<["threshold" := VFloat threshold]>
        (<["churn_prediction" := VInt pred]>
        (<["churn_probability" := VFloat prob]> ∅))).

End Artifacts.

End Inference.

(** ** [processing.py]: validation of the raw table, chronological split *)

Module Processing.

(** A cell of the raw table, or of its date column once parsed. *)
Inductive cell :=
  | Raw (v : value)
  | Timestamp (t : Z)
  | NaT.

(** A table: the column labels in order, and the rows; a row gives the
    cell under each label. *)
Record DataFrame := {
  columns : list string;
  rows : list (string → cell)
}.

Definition required_cols : list string :=
  ["user_id"; "obs_end_date"; "churned_14d"; "tokens_per_session_7d";
   "primary_model_7d"].

(** [[c for c in required_cols if c not in df.columns]] *)
Definition missing (df : DataFrame) : list string :=
  filter (λ c, c ∉ columns df) required_cols.

(** How an f-string prints a list of strings; the names printed here hold
    no quote, backslash or control character, so each prints between
    single quotes as it is. *)
Definition repr_str (s : string) : string := "'" +:+ s +:+ "'".

Fixpoint join (sep : string) (l : list string) : string :=
  match l with
  | [] => ""
  | [s] => s
  | s :: l' => s +:+ sep +:+ join sep l'
  end.

Definition repr_list (l : list string) : string :=
  "[" +:+ join ", " (repr_str <$> l) +:+ "]".

(** [if missing: raise ValueError(f"Missing required columns: {missing}")] *)
Definition check_required (df : DataFrame) : result unit :=
  match missing df with
  | [] => Ok ()
  | m => Raise (ValueError ("Missing required columns: " +:+ repr_list m))
  end.

Definition isna (c : cell) : bool :=
  match c with NaT => true | _ => false end.

(** [s] occurs in [t]. *)
Definition occurs_in (s t : string) : Prop := ∃ u v, t = u +:+ s +:+ v.

Section Main.

(** [pd.to_datetime(column, errors="coerce")], entry by entry: the date
    parsed from entry [i] of the column, or nothing ([NaT]) where the
    entry does not parse. *)
Variable to_datetime : list cell → nat → option Z.

Definition parsed (col : list cell) (i : nat) : cell :=
  match to_datetime col i with
  | Some t => Timestamp t
  | None => NaT
  end.

(** [df["obs_end_date"] = pd.to_datetime(df["obs_end_date"], errors="coerce")] *)
Definition parse_dates (df : DataFrame) : DataFrame :=
  let col := (λ r, r "obs_end_date") <$> rows df in
  {| columns := if decide ("obs_end_date" ∈ columns df) then columns df
                else columns df ++ ["obs_end_date"];
     rows := imap (λ i r, <["obs_end_date" := parsed col i]> r) (rows df) |}.

(** [int(df["obs_end_date"].isna().sum())] *)
Definition bad_rows (df : DataFrame) : nat :=
  length (filter (λ r, isna (r "obs_end_date") = true) (rows df)).

(** Step 2 of [main], up to the date check. *)
Definition validate (df : DataFrame) : result DataFrame :=
  _ ← check_required df;
  let df := parse_dates df in
  if existsb (λ r, isna (r "obs_end_date")) (rows df) then
    Raise (ValueError ("obs_end_date has " +:+ pretty (bad_rows df)
                       +:+ " unparsable values."))
  else Ok df.

End Main.

(** Ascending order of the key. *)
Definition by_key {Row : Type} (key : Row → Z) : relation Row :=
  λ a b, key a <= key b.

#[export] Instance by_key_dec {Row} (key : Row → Z) : RelDecision (by_key key) :=
  λ a b, Z_le_dec (key a) (key b).

(** [DataFrame.sort_values(by)] as called here, with one key column: the
    rows of the table, in ascending order of the key.  This is what every
    [kind] of sort guarantees; the sort of the default [kind] is
    [Npysort.quicksort_values] below. *)
Class SortValues {Row : Type} (key : Row → Z) := {
  sort_values : list Row → list Row;
  sort_values_Permutation l : sort_values l ≡ₚ l;
  sort_values_Sorted l : Sorted (by_key key) (sort_values l)
}.

Section ByKey.
Context {Row : Type} (key : Row → Z).

#[export] Instance by_key_total : Total (by_key key).
Proof. intros a b. unfold by_key. lia. Qed.

#[export] Instance by_key_trans : Transitive (by_key key).
Proof. intros a b c. unfold by_key. lia. Qed.

(** An implementation of the sorting contract, to run the split on
    concrete tables: a merge sort. *)
Definition merge_sort_values : SortValues key :=
  {| sort_values := merge_sort (by_key key);
     sort_values_Permutation := merge_sort_Permutation (by_key key);
     sort_values_Sorted := Sorted_merge_sort (by_key key) |}.

End ByKey.

(** A slice bound as [iloc] reads it: negative bounds count from the end,
    bounds outside the table are clipped. *)
Definition bound (n i : Z) : Z :=
  if i <? 0 then Z.max (i + n) 0 else Z.min i n.

(** [df.iloc[lo:hi]], an absent bound written [None]. *)
Definition iloc {A} (lo hi : option Z) (l : list A) : list A :=
  let n := Z.of_nat (length l) in
  let a := from_option (bound n) 0 lo in
  let b := from_option (bound n) n hi in
  take (Z.to_nat (b - a)) (drop (Z.to_nat a) l).

(** [int(n * ratio)] *)
Definition cut (n : Z) (ratio : spec_float) : result Z :=
  x ← int_mul_float n ratio; int_of_float x.

(** The three tables written by [main]. *)
Record DatasetSplit (Row : Type) := {
  train_df : list Row;
  val_df : list Row;
  test_df : list Row
}.
Arguments train_df {Row}.
Arguments val_df {Row}.
Arguments test_df {Row}.

Section TimeSplit.

(** A row of the feature table and its parsed [obs_end_date]. *)
Context {Row : Type} (obs_end_date : Row → Z) {sorter : SortValues obs_end_date}.

(** Step 7 of [main]. *)
Definition time_split (table : list Row) : result (DatasetSplit Row) :=
  let df := sort_values table in
  let n := Z.of_nat (length df) in
  train_end ← cut n lit_0_70;
  val_end ← cut n lit_0_85;
  mret {| train_df := iloc None (Some train_end) df;
          val_df := iloc (Some train_end) (Some val_end) df;
          test_df := iloc (Some val_end) None df |}.

(** Steps 3 to 6 of [main] (label coercion, leakage columns, derived
    features, imputation, one-hot encoding), which are calls into pandas:
    from the validated table to the rows of the feature table. *)
Variable feature_steps : DataFrame → result (list Row).

Variable to_datetime : list cell → nat → option Z.

(** [main], from the loaded table to the three tables it writes. *)
Definition main (df : DataFrame) : result (DatasetSplit Row) :=
  df ← validate to_datetime df;
  table ← feature_steps df;
  time_split table.

End TimeSplit.

(** The order of the rows that share a time value is the order they had
    in the input. *)
Definition stable {Row : Type} (key : Row → Z) (input output : list Row) : Prop :=
  ∀ t, filter (λ r, key r = t) output = filter (λ r, key r = t) input.

End Processing.

(** ** [DataFrame.sort_values]: the sort behind the default [kind]

    With one key column, [sort_values] computes
    [indexer = nargsort(column, kind="quicksort")], which is numpy's
    [argsort] of kind [quicksort] on the int64 nanoseconds of the dates
    (no [NaT] is left after validation), and returns [take(indexer)].
    numpy's [argsort] fills the index array with [0 .. num - 1] and runs
    [aquicksort_] of [npysort/quicksort.cpp] on it: an introsort that
    partitions around the median of three, sorts the short ranges (those
    with [pr - pl <= SMALL_QUICKSORT]) by insertion and falls back to
    [aheapsort_] when the depth limit is used up.  Below, the index array
    [tosort] is a list, pointers into it are positions, and [v] is the key
    array. *)

Module Npysort.

(** [npysort_common.h] *)
Definition SMALL_QUICKSORT : nat := 16.

Section Argsort.

Variable v : nat → Z.

Implicit Types (a : list nat) (vp : Z).

(** [INTP_SWAP] of [*pi] and [*pj] *)
Definition swap a (pi pj : nat) : list nat :=
  <[pj := a !!! pi]> (<[pi := a !!! pj]> a).

(** The three exchanges that put the median of [*pl], [*pm], [*pr] at
    [pm]. *)
Definition median3 a (pl pm pr : nat) : list nat :=
  let a := if v (a !!! pm) <? v (a !!! pl) then swap a pm pl else a in
  let a := if v (a !!! pr) <? v (a !!! pm) then swap a pr pm else a in
  if v (a !!! pm) <? v (a !!! pl) then swap a pm pl else a.

(** [do { ++pi; } while (less(v[*pi], vp));] with at most [n] steps. *)
Fixpoint scan_up a vp (n pi : nat) : nat :=
  match n with
  | O => pi
  | S n => if v (a !!! S pi) <? vp then scan_up a vp n (S pi) else S pi
  end.

(** [do { --pj; } while (less(vp, v[*pj]));] *)
Fixpoint scan_down a vp (pj : nat) : nat :=
  match pj with
  | O => O
  | S pk => if vp <? v (a !!! pk) then scan_down a vp pk else pk
  end.

(** The [for (;;)] loop of the partition, with at most [n] rounds: the
    array and [pi] at the [break]. *)
Fixpoint hoare a vp (n pi pj : nat) : list nat * nat :=
  match n with
  | O => (a, pi)
  | S n =>
      let pi := scan_up a vp (length a) pi in
      let pj := scan_down a vp pj in
      if (pj <=? pi)%nat then (a, pi) else hoare (swap a pi pj) vp n pi pj
  end.

(** One round of [while ((pr - pl) > SMALL_QUICKSORT)], up to the
    exchange that puts the pivot at [pi]. *)
Definition partition a (pl pr : nat) : list nat * nat :=
  let pm := (pl + (pr - pl) / 2)%nat in
  let a := median3 a pl pm pr in
  let vp := v (a !!! pm) in
  let pj := (pr - 1)%nat in
  let a := swap a pm pj in
  let '(a, pi) := hoare a vp (length a) pl pj in
  (swap a pi (pr - 1)%nat, pi).

(** [while (pj > pl && less(vp, v[*pk])) { *pj-- = *pk--; } *pj = vi;] *)
Fixpoint shift a (pl vi : nat) vp (pj : nat) : list nat :=
  match pj with
  | S pk =>
      if (pl <? pj)%nat && (vp <? v (a !!! pk))
      then shift (<[pj := a !!! pk]> a) pl vi vp pk
      else <[pj := vi]> a
  | O => <[pj := vi]> a
  end.

(** [for (pi = pl + 1; pi <= pr; ++pi)], with [n] rounds left. *)
Fixpoint insertion a (pl pi n : nat) : list nat :=
  match n with
  | O => a
  | S n =>
      let vi := a !!! pi in
      insertion (shift a pl vi (v vi) pi) pl (S pi) n
  end.

Definition insertion_sort a (pl pr : nat) : list nat :=
  insertion a pl (S pl) (pr - pl).

(** [aheapsort_(vv, tosort, n)] with [tosort] at position [base]: the
    source indexes the range from 1, through [a = tosort - 1]. *)
Definition heap_get a (base k : nat) : nat := a !!! (base + k - 1)%nat.
Definition heap_set a (base k x : nat) : list nat := <[(base + k - 1)%nat := x]> a.

(** [for (i = .., j = ..; j <= n;) { .. } a[i] = tmp;] with at most [fuel]
    rounds. *)
Fixpoint sift a (base n tmp fuel i j : nat) : list nat :=
  match fuel with
  | O => heap_set a base i tmp
  | S fuel =>
      if (j <=? n)%nat then
        let j := if (j <? n)%nat
                    && (v (heap_get a base j) <? v (heap_get a base (j + 1)))
                 then (j + 1)%nat else j in
        if v tmp <? v (heap_get a base j)
        then sift (heap_set a base i (heap_get a base j)) base n tmp fuel j (j + j)
        else heap_set a base i tmp
      else heap_set a base i tmp
  end.

(** [for (l = n >> 1; l > 0; --l)] *)
Fixpoint heapify a (base n l : nat) : list nat :=
  match l with
  | O => a
  | S l' => heapify (sift a base n (heap_get a base l) n l (2 * l)) base n l'
  end.

(** [for (; n > 1;)] *)
Fixpoint extract a (base n : nat) : list nat :=
  match n with
  | S (S _ as n') =>
      let tmp := heap_get a base n in
      let a := heap_set a base n (heap_get a base 1) in
      extract (sift a base n' tmp n' 1 2) base n'
  | _ => a
  end.

Definition aheapsort a (base n : nat) : list nat :=
  extract (heapify a base n (n / 2)) base n.

(** A saved range with its depth: two entries of [stack] and one of
    [depth] in the source, whose 128 places are more than the ranges of
    any table need, the shorter part being sorted first. *)
Definition frame : Type := nat * nat * Z.

(** [while ((pr - pl) > SMALL_QUICKSORT)], with at most [fuel] rounds. *)
Fixpoint partitions a (pl pr : nat) (stack : list frame) (cdepth : Z)
    (fuel : nat) : list nat * nat * nat * list frame * Z :=
  match fuel with
  | O => (a, pl, pr, stack, cdepth)
  | S fuel =>
      if (SMALL_QUICKSORT <? pr - pl)%nat then
        let '(a, pi) := partition a pl pr in
        let cdepth := cdepth - 1 in
        if (pi - pl <? pr - pi)%nat
        then partitions a pl (pi - 1) ((S pi, pr, cdepth) :: stack) cdepth fuel
        else partitions a (S pi) pr ((pl, (pi - 1)%nat, cdepth) :: stack) cdepth fuel
      else (a, pl, pr, stack, cdepth)
  end.

(** [while (1)], with at most [fuel] rounds. *)
Fixpoint rounds a (pl pr : nat) (stack : list frame) (cdepth : Z)
    (fuel : nat) : list nat :=
  match fuel with
  | O => a
  | S fuel =>
      let '(a, stack) :=
        if cdepth <? 0 then (aheapsort a pl (pr - pl + 1), stack)
        else
          let '(a, pl, pr, stack, _) :=
            partitions a pl pr stack cdepth (length a) in
          (insertion_sort a pl pr, stack) in
      match stack with
      | [] => a
      | (pl, pr, cdepth) :: stack => rounds a pl pr stack cdepth fuel
      end
  end.

(** [npy_get_msb(num) * 2] *)
Definition depth_limit (num : nat) : Z := Z.of_nat (Nat.log2 num) * 2.

(** [argsort] of kind [quicksort] on [num] keys: the index array is filled
    with the positions, [pl] is its beginning and [pr] its last entry.
    (For no key at all the source has [pr] before [pl] and every loop is
    skipped; so is it here, on the empty list.) *)
Definition aquicksort (num : nat) : list nat :=
  rounds (seq 0 num) 0 (num - 1) [] (depth_limit num) (S num).

End Argsort.

(** [df.sort_values(key)]: the rows taken in the order of the indexer. *)
Definition quicksort_values {Row : Type} (key : Row → Z) (table : list Row) :
    list Row :=
  let v := λ i, from_option key 0 (table !! i) in
  omap (λ i, table !! i) (aquicksort v (length table)).

End Npysort.

(** ** Concrete inputs, used to run the definitions *)

Module Examples.
Import App Inference Processing.

(** No sessions but five active days. *)
Definition form_active_only : form := {|
  tokens_per_session_7d := float_of_Z 900;
  sessions_7d := 0;
  active_days_7d := 5;
  avg_turns_per_session_7d := float_of_Z 8;
  error_rate_7d := float_of_ratio 5 100;
  avg_latency_ms_7d := float_of_Z 600;
  sessions_trend_7d := f0;
  tokens_trend_7d := f0;
  model_switch_rate_7d := float_of_ratio 10 100;
  activated_800 := 1;
  obs_month := 1;
  obs_dow := 2;
  primary_model_7d := "gpt-4o"
|}.

(** Neither sessions nor active days, but per-session metrics. *)
Definition form_idle : form := {|
  tokens_per_session_7d := float_of_Z 500;
  sessions_7d := 0;
  active_days_7d := 0;
  avg_turns_per_session_7d := float_of_Z 8;
  error_rate_7d := float_of_ratio 5 100;
  avg_latency_ms_7d := float_of_Z 600;
  sessions_trend_7d := f0;
  tokens_trend_7d := f0;
  model_switch_rate_7d := float_of_ratio 10 100;
  activated_800 := 0;
  obs_month := 1;
  obs_dow := 2;
  primary_model_7d := "gpt-4o"
|}.

(** The raw record of the end-to-end scenario. *)
Definition raw_record : gmap string value :=
  <["primary_model_7d" := VStr "gpt-4o"]>
  (<["active_days_7d" := VInt 4]>
  (<["sessions_7d" := VInt 10]>
  (<["tokens_per_session_7d" := VInt 900]> ∅))).

Definition features : list string :=
  ["tokens_per_session_7d"; "sessions_7d"; "active_days_7d"; "activated_800";
   "primary_model_7d_gpt-4o"].

(** A model that returns 0.40 whatever the frame. *)
Definition model_0_40 : frame1 → result spec_float := λ _, Ok lit_0_40.

(** Ninety rows, dated 0 to 89. *)
Definition ninety_rows : list Z := Z.of_nat <$> seq 0 90.

(** Two rows with the same date. *)
Definition two_rows : list (Z * string) := [(1, "a"); (1, "b")].

(** A table without [obs_end_date] and [tokens_per_session_7d]. *)
Definition table_missing_two : DataFrame := {|
  columns := ["user_id"; "churned_14d"; "primary_model_7d"; "sessions_7d"];
  rows := []
|}.

Definition row_dated (d : string) : string → cell :=
  λ c, if decide (c = "obs_end_date") then Raw (VStr d) else Raw (VInt 1).

(** A table with all required columns; two of its three dates are not
    dates. *)
Definition table_bad_dates : DataFrame := {|
  columns := required_cols ++ ["sessions_7d"];
  rows := [row_dated "2024-01-05"; row_dated "soon"; row_dated ""]
|}.

(** A parser that knows one date. *)
Definition toy_to_datetime (col : list cell) (i : nat) : option Z :=
  match col !! i with
  | Some (Raw (VStr d)) =>
      if decide (d = "2024-01-05") then Some 1704412800000000000 else None
  | _ => None
  end.

(** Feature steps that keep the dates only. *)
Definition toy_feature_steps (df : DataFrame) : result (list Z) :=
  Ok ((λ r, match r "obs_end_date" with Timestamp t => t | _ => 0 end)
        <$> rows df).

End Examples.

(** ** [processing.py]: locating and reading the input *)

Module Loading.
Import Processing.
Import Stdlib.Strings.Ascii.

(** [s.endswith(suffix)], [s.startswith(prefix)] *)
Definition endswith (s suffix : string) : bool :=
  String.prefix (String.rev suffix) (String.rev s).

Definition startswith (s prefix : string) : bool := String.prefix prefix s.

(** [s.lstrip("/")] and [s.rstrip("/")]: all the leading, respectively
    trailing, slashes go. *)
Fixpoint lstrip_slash (s : string) : string :=
  match s with
  | String c s' => if Ascii.eqb c "/"%char then lstrip_slash s' else s
  | EmptyString => EmptyString
  end.

Definition rstrip_slash (s : string) : string :=
  String.rev (lstrip_slash (String.rev s)).

(** The characters before the first slash. *)
Fixpoint until_slash (s : string) : string :=
  match s with
  | String c s' => if Ascii.eqb c "/"%char then EmptyString else String c (until_slash s')
  | EmptyString => EmptyString
  end.

(** [os.path.basename(p)]: what follows the last slash. *)
Definition basename (p : string) : string :=
  String.rev (until_slash (String.rev p)).

(** ["." in s] *)
Fixpoint has_dot (s : string) : bool :=
  match s with
  | String c s' => Ascii.eqb c "."%char || has_dot s'
  | EmptyString => false
  end.

(** The line feed of the error message. *)
Definition LF : string := String (Ascii.ascii_of_nat 10) EmptyString.

(** [not f.endswith("/") and not f.endswith(";")] *)
Definition is_data_file (f : string) : bool :=
  negb (endswith f "/") && negb (endswith f ";").

Definition is_csv (f : string) : bool := endswith (Inference.lower f) ".csv".
Definition is_parquet (f : string) : bool := endswith (Inference.lower f) ".parquet".
Definition is_noext (f : string) : bool := negb (has_dot (basename f)).

(** [f"s3://{f}"] *)
Definition s3_url (f : string) : string := "s3://" +:+ f.

Section Readers.

(** The calls into s3fs and pandas: the listing of a glob pattern, the two
    readers (which can raise), the concatenation of tables, and [str(e)] on
    an exception. *)
Variable glob : string → list string.
Variable read_parquet read_csv : string → result DataFrame.
Variable concat : list DataFrame → DataFrame.
Variable str : exn → string.

(** [fs.glob(prefix.rstrip("/") + "/**")] without folder markers and
    delimiter objects. *)
Definition data_files (prefix : string) : list string :=
  filter (λ f, is_data_file f = true) (glob (rstrip_slash prefix +:+ "/**")).

(** [try: pd.read_parquet(f) except Exception: pd.read_csv(f)] *)
Definition read_either (f : string) : result DataFrame :=
  match read_parquet f with
  | Ok df => Ok df
  | Raise _ => read_csv f
  end.

Definition read_s3_prefix (prefix : string) : result DataFrame :=
  let data_files := data_files prefix in
  let csv_files := s3_url <$> filter (λ f, is_csv f = true) data_files in
  let pq_files := s3_url <$> filter (λ f, is_parquet f = true) data_files in
  match pq_files with
  | _ :: _ => dfs ← mapM read_parquet pq_files; mret (concat dfs)
  | [] =>
    match csv_files with
    | _ :: _ => dfs ← mapM read_csv csv_files; mret (concat dfs)
    | [] =>
      let noext_files := s3_url <$> filter (λ f, is_noext f = true) data_files in
      match noext_files with
      | _ :: _ => dfs ← mapM read_either noext_files; mret (concat dfs)
      | [] => Raise (ValueError ("No readable data files found under prefix: "
                                 +:+ prefix))
      end
    end
  end.

Definition load_input (input_path : string) : result DataFrame :=
  if startswith input_path "s3://" && endswith input_path "/" then
    read_s3_prefix input_path
  else
    match read_parquet input_path with
    | Ok df => Ok df
    | Raise parquet_err =>
      match read_csv input_path with
      | Ok df => Ok df
      | Raise csv_err =>
          Raise (ValueError ("Failed to read input as Parquet or CSV: "
                             +:+ input_path +:+ LF
                             +:+ "Parquet error: " +:+ str parquet_err +:+ LF
                             +:+ "CSV error: " +:+ str csv_err))
      end
    end.

End Readers.

End Loading.

(** ** [train.py]: the feature list saved for serving *)

Module Train.

Definition label_col : string := "churned_14d".
Definition drop_cols : list string := ["user_id"; "obs_end_date"].

(** [[c for c in train_df.columns if c not in drop_cols + [label_col]]] *)
Definition feature_cols (columns : list string) : list string :=
  filter (λ c, c ∉ drop_cols ++ [label_col]) columns.

End Train.

(** ** More concrete inputs *)

Module MoreExamples.
Import App Processing.

(** Sessions but no active day, with per-session metrics. *)
Definition form_sessions_only : form := {|
  tokens_per_session_7d := float_of_Z 300;
  sessions_7d := 10;
  active_days_7d := 0;
  avg_turns_per_session_7d := float_of_Z 8;
  error_rate_7d := float_of_ratio 5 100;
  avg_latency_ms_7d := float_of_Z 600;
  sessions_trend_7d := f0;
  tokens_trend_7d := f0;
  model_switch_rate_7d := float_of_ratio 10 100;
  activated_800 := 0;
  obs_month := 1;
  obs_dow := 2;
  primary_model_7d := "gpt-4o"
|}.

(** The default values of the form: eight sessions on three days. *)
Definition form_default : form := {|
  tokens_per_session_7d := float_of_Z 300;
  sessions_7d := 8;
  active_days_7d := 3;
  avg_turns_per_session_7d := float_of_Z 8;
  error_rate_7d := float_of_ratio 5 100;
  avg_latency_ms_7d := float_of_Z 600;
  sessions_trend_7d := f0;
  tokens_trend_7d := f0;
  model_switch_rate_7d := float_of_ratio 10 100;
  activated_800 := 0;
  obs_month := 1;
  obs_dow := 2;
  primary_model_7d := "gpt-4o"
|}.


(** The raw record of the end-to-end scenario with two more fields, one of
    them the label. *)
Definition raw_record_extra : gmap string value :=
  <["churned_14d" := VInt 1]> (<["note" := VStr "vip"]> Examples.raw_record).

(** The columns of a training table. *)
Definition train_columns : list string :=
  ["user_id"; "obs_end_date"; "churned_14d"; "tokens_per_session_7d";
   "sessions_7d"; "activated_800"; "primary_model_7d_gpt-4o"].

(** A table with all required columns whose dates all parse. *)
Definition table_good_dates : DataFrame := {|
  columns := required_cols ++ ["sessions_7d"];
  rows := [Examples.row_dated "2024-01-05"; Examples.row_dated "2024-01-05"]
|}.

(** A listing with a folder marker, two parquet files and a CSV file. *)
Definition listing_mixed (pattern : string) : list string :=
  ["bucket/curated/"; "bucket/curated/part-0.parquet";
   "bucket/curated/notes.csv"; "bucket/curated/part-1.PARQUET"].

(** A listing with nothing to read. *)
Definition listing_unreadable (pattern : string) : list string :=
  ["bucket/curated/"; "bucket/curated/readme.txt"; "bucket/curated/meta.json"].

(** A listing with one file without extension. *)
Definition listing_noext (pattern : string) : list string :=
  ["bucket/curated/"; "bucket/curated/part-00000"].

Definition empty_table : DataFrame := {| columns := []; rows := [] |}.

(** Readers: one that reads every file as the empty table, one that
    refuses every file. *)
Definition reader_ok (path : string) : result DataFrame := Ok empty_table.
Definition reader_fails (path : string) : result DataFrame :=
  Raise (ValueError ("cannot read " +:+ path)).

Definition concat_first (dfs : list DataFrame) : DataFrame :=
  default empty_table (head dfs).

Definition str_exn (e : exn) : string :=
  match e with ValueError msg => msg | _ => "" end.

(** A model whose answer depends on the frame: 0.40 for 900 tokens per
    session, 0.85 otherwise; and a model that cannot score. *)
Definition model_by_tokens (X : Inference.frame1) : result spec_float :=
  match Inference.cell X "tokens_per_session_7d" with
  | Some (VInt 900) => Ok lit_0_40
  | _ => Ok lit_0_85
  end.

Definition model_broken (X : Inference.frame1) : result spec_float :=
  Raise (ValueError "model is not fitted").

(** Eighteen rows of one date (2024-01-05, in nanoseconds), numbered in
    the order of the table. *)
Definition eighteen_rows : list (Z * nat) :=
  (λ i, (1704412800000000000, i)) <$> seq 0 18.

End MoreExamples.
(** ** Facts about the error monad and the comparisons *)

Lemma bind_Ok {A B} (f : A → result B) (a : A) : (Ok a ≫= f) = f a.
Proof. reflexivity. Qed.

Lemma bind_Ok_inv {A B} (f : A → result B) (m : result A) (b : B) :
  m ≫= f = Ok b → ∃ a, m = Ok a ∧ f a = Ok b.
Proof. destruct m as [a|e]; [intros; by exists a | discriminate]. Qed.

Lemma getitem_Some d k v : d !! k = Some v → getitem d k = Ok v.
Proof. unfold getitem. by intros ->. Qed.

Lemma getitem_Ok d k v : getitem d k = Ok v → d !! k = Some v.
Proof. unfold getitem. by destruct (d !! k); intros; simplify_eq. Qed.

Lemma gt0_true_eq0 v : gt0 v = Ok true → eq0 v = false.
Proof.
  destruct v as [z|f|?]; simpl; intros H; simplify_eq.
  - apply Z.eqb_neq. apply Z.ltb_lt in H. lia.
  - destruct f as [|[]| |[] ? ?]; by simplify_eq.
Qed.

Lemma nonneg_gt0_or_eq0 v :
  nonneg v → (gt0 v = Ok true ∧ eq0 v = false) ∨ (gt0 v = Ok false ∧ eq0 v = true).
Proof.
  destruct v as [z|f|?]; simpl; [|destruct f as [|[]| |[] ? ?]; simpl; intros; by auto|done].
  intros Hz. destruct (Z.eq_dec z 0) as [->|Hne]; [by right|left].
  split; [f_equal; apply Z.ltb_lt; lia | apply Z.eqb_neq; lia].
Qed.

Lemma nonneg_gt0_total v : nonneg v → ∃ b, gt0 v = Ok b.
Proof. intros [[-> _]|[-> _]]%nonneg_gt0_or_eq0; eauto. Qed.


(** The literals are the correctly rounded quotients. *)
Example literals_nearest :
  float_of_ratio 70 100 = lit_0_70 ∧ float_of_ratio 85 100 = lit_0_85 ∧
  float_of_ratio 40 100 = lit_0_40 ∧ float_of_ratio 35 100 = lit_0_35 ∧
  float_of_ratio 50 100 = lit_0_50.
Proof. by vm_compute. Qed.
(** ** The auto-fix block: inversion of the three rules *)

Module RepairFacts.
Import App.

Lemma cond1_ext p q :
  q !! "sessions_7d" = p !! "sessions_7d" →
  q !! "active_days_7d" = p !! "active_days_7d" →
  cond1 q = cond1 p.
Proof. unfold cond1, getitem. by intros -> ->. Qed.

Lemma cond2_ext p q :
  q !! "sessions_7d" = p !! "sessions_7d" →
  q !! "active_days_7d" = p !! "active_days_7d" →
  cond2 q = cond2 p.
Proof. unfold cond2, getitem. by intros -> ->. Qed.

Lemma cond1_true p :
  cond1 p = Ok true →
  ∃ s a, p !! "sessions_7d" = Some s ∧ gt0 s = Ok true ∧
         p !! "active_days_7d" = Some a ∧ eq0 a = true.
Proof.
  unfold cond1. intros (s & Hs%getitem_Ok & H)%bind_Ok_inv.
  apply bind_Ok_inv in H as ([] & Hb & H); [|discriminate].
  apply bind_Ok_inv in H as (a & Ha%getitem_Ok & H).
  exists s, a. cbv [mret result_ret] in H. by simplify_eq.
Qed.

Lemma cond2_true p :
  cond2 p = Ok true →
  ∃ s a, p !! "sessions_7d" = Some s ∧ eq0 s = true ∧
         p !! "active_days_7d" = Some a ∧ gt0 a = Ok true.
Proof.
  unfold cond2. intros (a & Ha%getitem_Ok & H)%bind_Ok_inv.
  apply bind_Ok_inv in H as ([] & Hb & H); [|discriminate].
  apply bind_Ok_inv in H as (s & Hs%getitem_Ok & H).
  exists s, a. cbv [mret result_ret] in H. by simplify_eq.
Qed.

(** With both counts in the dictionary the two conditions are the plain
    conjunctions. *)
Lemma cond1_counts p s a :
  p !! "sessions_7d" = Some s → p !! "active_days_7d" = Some a →
  cond1 p = (b ← gt0 s; mret (b && eq0 a)).
Proof.
  intros Hs Ha. unfold cond1. rewrite (getitem_Some _ _ _ Hs), bind_Ok.
  destruct (gt0 s) as [[]|]; simpl; [|done..].
  by rewrite (getitem_Some _ _ _ Ha).
Qed.

Lemma cond2_counts p s a :
  p !! "sessions_7d" = Some s → p !! "active_days_7d" = Some a →
  cond2 p = (b ← gt0 a; mret (b && eq0 s)).
Proof.
  intros Hs Ha. unfold cond2. rewrite (getitem_Some _ _ _ Ha), bind_Ok.
  destruct (gt0 a) as [[]|]; simpl; [|done..].
  by rewrite (getitem_Some _ _ _ Hs).
Qed.

Lemma rule1_inv p fx p1 fx1 :
  rule1 (p, fx) = Ok (p1, fx1) →
  (cond1 p = Ok true ∧ p1 = <["active_days_7d" := VInt 1]> p ∧
   fx1 = fx ++ ["active_days_7d set to 1 because sessions_7d > 0"])
  ∨ (cond1 p = Ok false ∧ p1 = p ∧ fx1 = fx).
Proof.
  unfold rule1. intros ([] & Hc & H)%bind_Ok_inv;
    cbv [mret result_ret] in H; simplify_eq; auto.
Qed.

Lemma rule2_inv p fx p1 fx1 :
  rule2 (p, fx) = Ok (p1, fx1) →
  (∃ a, cond2 p = Ok true ∧ p !! "active_days_7d" = Some a ∧
        p1 = <["sessions_7d" := a]> p ∧
        fx1 = fx ++ ["sessions_7d set to active_days_7d because active_days_7d > 0"])
  ∨ (cond2 p = Ok false ∧ p1 = p ∧ fx1 = fx).
Proof.
  unfold rule2. intros ([] & Hc & H)%bind_Ok_inv;
    [left|right; cbv [mret result_ret] in H; by simplify_eq].
  apply bind_Ok_inv in H as (a & Ha%getitem_Ok & H). exists a.
  cbv [mret result_ret] in H. by simplify_eq.
Qed.

Lemma zero_metric_inv k p fx p1 fx1 :
  zero_metric k (p, fx) = Ok (p1, fx1) →
  ∃ v, p !! k = Some v ∧
    ((ne0 v = true ∧ p1 = <[k := VFloat f0]> p ∧
      fx1 = fx ++ [k +:+ " set to 0 because sessions_7d = 0"])
     ∨ (ne0 v = false ∧ p1 = p ∧ fx1 = fx)).
Proof.
  unfold zero_metric. intros (v & Hv%getitem_Ok & H)%bind_Ok_inv.
  exists v. split; [done|].
  destruct (ne0 v); cbv [mret result_ret] in H; simplify_eq; auto.
Qed.

Lemma zero_metric_noop k p fx v :
  p !! k = Some v → ne0 v = false → zero_metric k (p, fx) = Ok (p, fx).
Proof.
  intros Hv Hn. unfold zero_metric. by rewrite (getitem_Some _ _ _ Hv), bind_Ok, Hn.
Qed.

(** After the test the metric compares equal to zero, and nothing else
    changed. *)
Lemma zero_metric_post k p fx p1 fx1 :
  zero_metric k (p, fx) = Ok (p1, fx1) →
  (∃ v, p1 !! k = Some v ∧ ne0 v = false) ∧
  (∀ k', k' ≠ k → p1 !! k' = p !! k') ∧
  dom p1 = dom p.
Proof.
  intros (v & Hv & [(Hn & -> & ->)|(Hn & -> & ->)])%zero_metric_inv.
  - split_and!.
    + exists (VFloat f0). by rewrite lookup_insert_eq.
    + intros k' Hk. by rewrite lookup_insert_ne.
    + apply dom_insert_lookup_L. by rewrite Hv.
  - split_and!; [by exists v|done..].
Qed.

Lemma rule3_inv p fx p' fx' :
  rule3 (p, fx) = Ok (p', fx') →
  ∃ s, p !! "sessions_7d" = Some s ∧
    ((eq0 s = false ∧ p' = p ∧ fx' = fx) ∨
     (eq0 s = true ∧ ∃ st1 st2,
        zero_metric "avg_turns_per_session_7d" (p, fx) = Ok st1 ∧
        zero_metric "tokens_per_session_7d" st1 = Ok st2 ∧
        zero_metric "model_switch_rate_7d" st2 = Ok (p', fx'))).
Proof.
  unfold rule3. intros (s & Hs%getitem_Ok & H)%bind_Ok_inv. simpl in Hs.
  exists s. split; [done|].
  destruct (eq0 s); [right|left; cbv [mret result_ret] in H; by simplify_eq].
  apply bind_Ok_inv in H as (st1 & H1 & H).
  apply bind_Ok_inv in H as (st2 & H2 & H). eauto 10.
Qed.

(** *** What each rule leaves alone *)

Lemma rule1_frame p fx p1 fx1 :
  rule1 (p, fx) = Ok (p1, fx1) →
  dom p1 = dom p ∧ ∀ k, k ≠ "active_days_7d" → p1 !! k = p !! k.
Proof.
  intros [(Hc & -> & _)|(_ & -> & _)]%rule1_inv; [|done].
  apply cond1_true in Hc as (s & a & _ & _ & Ha & _). split.
  - apply dom_insert_lookup_L. by rewrite Ha.
  - intros k Hk. by rewrite lookup_insert_ne.
Qed.

Lemma rule2_frame p fx p1 fx1 :
  rule2 (p, fx) = Ok (p1, fx1) →
  dom p1 = dom p ∧ ∀ k, k ≠ "sessions_7d" → p1 !! k = p !! k.
Proof.
  intros [(a & Hc & _ & -> & _)|(_ & -> & _)]%rule2_inv; [|done].
  apply cond2_true in Hc as (s & a' & Hs & _). split.
  - apply dom_insert_lookup_L. by rewrite Hs.
  - intros k Hk. by rewrite lookup_insert_ne.
Qed.

Lemma rule3_frame p fx p' fx' :
  rule3 (p, fx) = Ok (p', fx') →
  dom p' = dom p ∧
  ∀ k, k ∉ metrics → p' !! k = p !! k.
Proof.
  intros (s & Hs & [(_ & -> & _)|(_ & [p1 f1] & [p2 f2] & H1 & H2 & H3)])%rule3_inv;
    [done|].
  apply zero_metric_post in H1 as (_ & E1 & D1).
  apply zero_metric_post in H2 as (_ & E2 & D2).
  apply zero_metric_post in H3 as (_ & E3 & D3).
  split; [congruence|].
  intros k Hk. unfold metrics in Hk.
  rewrite !not_elem_of_cons in Hk. destruct Hk as (? & ? & ? & _).
  by rewrite E3, E2, E1.
Qed.

(** *** Once the first two rules ran, neither of their conditions holds *)

Lemma rules12_settled p fx p1 fx1 p2 fx2 :
  rule1 (p, fx) = Ok (p1, fx1) → rule2 (p1, fx1) = Ok (p2, fx2) →
  cond1 p2 = Ok false ∧ cond2 p2 = Ok false.
Proof.
  intros [(Hc1 & -> & _)|(Hc1 & -> & _)]%rule1_inv H2.
  - apply cond1_true in Hc1 as (s & a & Hs & Hgs & Ha & Hea).
    assert (Hc2 : cond2 (<["active_days_7d" := VInt 1]> p) = Ok false).
    { rewrite (cond2_counts _ s (VInt 1)); [|by simplify_map_eq..].
      simpl. by rewrite (gt0_true_eq0 s). }
    apply rule2_inv in H2 as [(? & ? & _)|(_ & -> & _)]; [congruence|].
    split; [|done].
    rewrite (cond1_counts _ s (VInt 1)); [|by simplify_map_eq..].
    by rewrite Hgs.
  - apply rule2_inv in H2 as [(a' & Hc2 & Ha' & -> & _)|(Hc2 & -> & _)]; [|done].
    apply cond2_true in Hc2 as (s & a & Hs & Hes & Ha & Hga). simplify_eq.
    split.
    + rewrite (cond1_counts _ a a); [|by simplify_map_eq..].
      by rewrite Hga, bind_Ok, (gt0_true_eq0 a).
    + rewrite (cond2_counts _ a a); [|by simplify_map_eq..].
      by rewrite Hga, bind_Ok, (gt0_true_eq0 a).
Qed.

(** *** The last rule is a no-op on its own output *)

Lemma rule3_again p fx p' fx' :
  rule3 (p, fx) = Ok (p', fx') → rule3 (p', []) = Ok (p', []).
Proof.
  intros H. pose proof (rule3_frame _ _ _ _ H) as [_ Hfr].
  apply rule3_inv in H as (s & Hs & H).
  assert (Hs' : p' !! "sessions_7d" = Some s).
  { rewrite Hfr; [done|]. compute_done. }
  unfold rule3. cbn [fst]. rewrite (getitem_Some _ _ _ Hs'), bind_Ok.
  destruct H as [(-> & _)|(-> & [p1 f1] & [p2 f2] & H1 & H2 & H3)]; [done|].
  cbv beta iota.
  apply zero_metric_post in H1 as ((v1 & L1 & N1) & _ & _).
  apply zero_metric_post in H2 as ((v2 & L2 & N2) & E2 & _).
  apply zero_metric_post in H3 as ((v3 & L3 & N3) & E3 & _).
  rewrite (zero_metric_noop _ _ _ v1), bind_Ok; [|by rewrite E3, E2|done].
  rewrite (zero_metric_noop _ _ _ v2), bind_Ok; [|by rewrite E3|done].
  by rewrite (zero_metric_noop _ _ _ v3).
Qed.

(** When the last rule sees [sessions_7d == 0], the three per-session
    metrics compare equal to zero afterwards. *)
Lemma rule3_zeroes p fx p' fx' s :
  rule3 (p, fx) = Ok (p', fx') → p !! "sessions_7d" = Some s → eq0 s = true →
  ∀ k, k ∈ metrics → ∃ v, p' !! k = Some v ∧ eq0 v = true.
Proof.
  intros H Hs He.
  apply rule3_inv in H as (s' & Hs' & H). simplify_eq.
  destruct H as [(? & _)|(_ & [p1 f1] & [p2 f2] & H1 & H2 & H3)]; [congruence|].
  apply zero_metric_post in H1 as ((v1 & L1 & N1) & _ & _).
  apply zero_metric_post in H2 as ((v2 & L2 & N2) & E2 & _).
  apply zero_metric_post in H3 as ((v3 & L3 & N3) & E3 & _).
  unfold ne0 in *. apply negb_false_iff in N1, N2, N3.
  intros k Hk. unfold metrics in Hk.
  apply elem_of_cons in Hk as [->|Hk]; [exists v1; by rewrite E3, E2|].
  apply elem_of_cons in Hk as [->|Hk]; [exists v2; by rewrite E3|].
  apply list_elem_of_singleton in Hk as ->. by exists v3.
Qed.

(** *** The block as a whole *)

Lemma repair_inv p p' fx :
  repair p = Ok (p', fx) →
  ∃ p1 f1 p2 f2,
    rule1 (p, []) = Ok (p1, f1) ∧ rule2 (p1, f1) = Ok (p2, f2) ∧
    rule3 (p2, f2) = Ok (p', fx).
Proof.
  unfold repair. intros ([p1 f1] & H1 & H)%bind_Ok_inv.
  apply bind_Ok_inv in H as ([p2 f2] & H2 & H3). eauto 10.
Qed.

Lemma rule1_noop p fx : cond1 p = Ok false → rule1 (p, fx) = Ok (p, fx).
Proof. unfold rule1. by intros ->. Qed.

Lemma rule2_noop p fx : cond2 p = Ok false → rule2 (p, fx) = Ok (p, fx).
Proof. unfold rule2. by intros ->. Qed.

Lemma repair_again p p' fx : repair p = Ok (p', fx) → repair p' = Ok (p', []).
Proof.
  intros (p1 & f1 & p2 & f2 & H1 & H2 & H3)%repair_inv.
  destruct (rules12_settled _ _ _ _ _ _ H1 H2) as [C1 C2].
  destruct (rule3_frame _ _ _ _ H3) as [_ Hfr].
  assert (p' !! "sessions_7d" = p2 !! "sessions_7d") as Es
    by (apply Hfr; compute_done).
  assert (p' !! "active_days_7d" = p2 !! "active_days_7d") as Ea
    by (apply Hfr; compute_done).
  unfold repair.
  rewrite rule1_noop, bind_Ok by (by rewrite (cond1_ext p2)).
  rewrite rule2_noop, bind_Ok by (by rewrite (cond2_ext p2)).
  by apply rule3_again in H3.
Qed.

Lemma repair_frame p p' fx :
  repair p = Ok (p', fx) →
  dom p' = dom p ∧ ∀ k, k ∉ repaired_fields → p' !! k = p !! k.
Proof.
  intros (p1 & f1 & p2 & f2 & H1 & H2 & H3)%repair_inv.
  apply rule1_frame in H1 as [D1 E1].
  apply rule2_frame in H2 as [D2 E2].
  apply rule3_frame in H3 as [D3 E3].
  split; [congruence|].
  intros k Hk. unfold repaired_fields in Hk.
  apply not_elem_of_cons in Hk as [? Hk].
  apply not_elem_of_cons in Hk as [? Hk].
  by rewrite E3, E2, E1.
Qed.

(** *** The block does not raise on a payload that has the five fields
        with numeric, non-negative counts *)

Lemma zero_metric_total k p fx :
  is_Some (p !! k) → ∃ p1 fx1, zero_metric k (p, fx) = Ok (p1, fx1).
Proof.
  intros [v Hv]. unfold zero_metric. rewrite (getitem_Some _ _ _ Hv), bind_Ok.
  destruct (ne0 v); eauto.
Qed.

Lemma rule3_total p fx :
  is_Some (p !! "sessions_7d") → (∀ k, k ∈ metrics → is_Some (p !! k)) →
  ∃ p' fx', rule3 (p, fx) = Ok (p', fx').
Proof.
  intros [s Hs] Hm. unfold rule3. cbn [fst].
  rewrite (getitem_Some _ _ _ Hs), bind_Ok.
  destruct (eq0 s); [|by eauto].
  destruct (zero_metric_total "avg_turns_per_session_7d" p fx)
    as (p1 & f1 & H1); [apply Hm; compute_done|].
  rewrite H1, bind_Ok. apply zero_metric_post in H1 as (_ & E1 & _).
  destruct (zero_metric_total "tokens_per_session_7d" p1 f1)
    as (p2 & f2 & H2); [rewrite E1 by done; apply Hm; compute_done|].
  rewrite H2, bind_Ok. apply zero_metric_post in H2 as (_ & E2 & _).
  apply zero_metric_total. rewrite E2, E1 by done. apply Hm; compute_done.
Qed.

Lemma rules12_total p fx s a :
  p !! "sessions_7d" = Some s → p !! "active_days_7d" = Some a →
  nonneg s → nonneg a →
  ∃ p1 f1 p2 f2 s2 a2,
    rule1 (p, fx) = Ok (p1, f1) ∧ rule2 (p1, f1) = Ok (p2, f2) ∧
    p2 !! "sessions_7d" = Some s2 ∧ p2 !! "active_days_7d" = Some a2 ∧
    nonneg s2 ∧ nonneg a2.
Proof.
  intros Hs Ha Ns Na.
  assert (∃ p1 f1 a1, rule1 (p, fx) = Ok (p1, f1) ∧
            p1 !! "sessions_7d" = Some s ∧ p1 !! "active_days_7d" = Some a1 ∧
            nonneg a1) as (p1 & f1 & a1 & H1 & Hs1 & Ha1 & Na1).
  { unfold rule1. rewrite (cond1_counts p s a) by done.
    destruct (nonneg_gt0_total s Ns) as [b ->]. rewrite bind_Ok.
    destruct (b && eq0 a); cbn.
    - eexists _, _, (VInt 1). split; [done|]. by simplify_map_eq.
    - eexists _, _, a. by split. }
  exists p1, f1.
  unfold rule2. rewrite (cond2_counts p1 s a1) by done.
  destruct (nonneg_gt0_total a1 Na1) as [b ->]. rewrite bind_Ok.
  destruct (b && eq0 s); cbn.
  - rewrite (getitem_Some _ _ _ Ha1). cbn.
    eexists _, _, a1, a1. split_and!; [done|done|by simplify_map_eq..|done|done].
  - eexists _, _, s, a1. by split_and!.
Qed.

Lemma repair_total p s a t k m :
  p !! "sessions_7d" = Some s → p !! "active_days_7d" = Some a →
  p !! "avg_turns_per_session_7d" = Some t →
  p !! "tokens_per_session_7d" = Some k →
  p !! "model_switch_rate_7d" = Some m →
  nonneg s → nonneg a →
  ∃ p' fx, repair p = Ok (p', fx).
Proof.
  intros Hs Ha Ht Hk Hm Ns Na.
  destruct (rules12_total p [] s a Hs Ha Ns Na)
    as (p1 & f1 & p2 & f2 & s2 & a2 & H1 & H2 & Hs2 & _).
  unfold repair. rewrite H1, bind_Ok, H2, bind_Ok.
  apply rule1_frame in H1 as [_ E1]. apply rule2_frame in H2 as [_ E2].
  apply rule3_total; [by rewrite Hs2|].
  intros f Hf. unfold metrics in Hf. rewrite E2, E1.
  - repeat (apply elem_of_cons in Hf as [->|Hf]); [by eexists..|].
    by apply elem_of_nil in Hf.
  - intros ->. revert Hf. compute_done.
  - intros ->. revert Hf. compute_done.
Qed.

End RepairFacts.

(** ** binary64: what rounding to nearest does to a mantissa *)

Module Binary64Facts.

Lemma digits2_pos_size p : digits2_pos p = Pos.size p.
Proof. induction p; simpl; congruence. Qed.

Lemma Zdigits2_log2 z : 0 < z → Zdigits2 z = Z.log2 z + 1.
Proof.
  destruct z as [|p|p]; [lia| |lia]. intros _.
  destruct p; simpl; rewrite ?digits2_pos_size; lia.
Qed.

Lemma Zdigits2_bounds z :
  0 < z → 2 ^ (Zdigits2 z - 1) <= z < 2 ^ Zdigits2 z.
Proof.
  intros Hz. rewrite (Zdigits2_log2 z Hz).
  replace (Z.log2 z + 1 - 1) with (Z.log2 z) by lia.
  apply (Z.log2_spec z Hz).
Qed.

Lemma Zdigits2_unique z d :
  2 ^ (d - 1) <= z < 2 ^ d → 0 < d → Zdigits2 z = d.
Proof.
  intros Hz Hd.
  assert (0 < z) by (pose proof (Z.pow_pos_nonneg 2 (d - 1)); lia).
  rewrite Zdigits2_log2 by done.
  rewrite (Z.log2_unique z (d - 1)); [lia|lia|].
  by replace (Z.succ (d - 1)) with d by lia.
Qed.

Lemma shr_1_m mrs : 0 <= shr_m mrs → shr_m (shr_1 mrs) = shr_m mrs / 2.
Proof.
  destruct mrs as [m r s]. cbn [shr_m]. intros Hm.
  destruct m as [|[p|p|]|]; cbn [shr_1 shr_m]; [done| | |done|lia].
  - apply (Z.div_unique _ 2 _ 1); lia.
  - apply (Z.div_unique _ 2 _ 0); lia.
Qed.

Lemma iter_shr_1_m p mrs :
  0 <= shr_m mrs →
  shr_m (SpecFloat.iter_pos shr_1 p mrs) = shr_m mrs / 2 ^ Z.pos p.
Proof.
  revert mrs. induction p as [p IH|p IH|]; intros mrs Hm; simpl SpecFloat.iter_pos.
  - assert (0 <= shr_m (shr_1 mrs)) by (rewrite shr_1_m by done; by apply Z.div_pos).
    assert (0 <= shr_m (SpecFloat.iter_pos shr_1 p (shr_1 mrs)))
      by (rewrite IH by done; apply Z.div_pos; lia).
    rewrite !IH, shr_1_m by done.
    rewrite !Z.div_div by lia. f_equal.
    rewrite <- (Z.pow_1_r 2) at 1. rewrite <- !Z.pow_add_r by lia.
    f_equal. lia.
  - assert (0 <= shr_m (SpecFloat.iter_pos shr_1 p mrs))
      by (rewrite IH by done; apply Z.div_pos; lia).
    rewrite !IH by done.
    rewrite !Z.div_div by lia. f_equal.
    rewrite <- !Z.pow_add_r by lia. f_equal. lia.
  - by rewrite shr_1_m.
Qed.

Lemma round_nearest_even_range m l :
  m <= round_nearest_even m l <= m + 1.
Proof. destruct l as [|[]]; simpl; [lia|destruct (Z.even m); lia|lia..]. Qed.

Lemma shr_record_of_loc_m m l : shr_m (shr_record_of_loc m l) = m.
Proof. by destruct l as [|[]]. Qed.

(** The first step of rounding, in the range of normal numbers: the
    mantissa loses its digits beyond the 53rd. *)
Lemma shr_fexp_m m e l :
  0 < m → -1074 <= Zdigits2 m + e - 53 →
  ∃ mrs, shr_fexp prec emax m e l = (mrs, e + Z.max (Zdigits2 m - 53) 0) ∧
         shr_m mrs = m / 2 ^ Z.max (Zdigits2 m - 53) 0 ∧
         (Zdigits2 m <= 53 → mrs = shr_record_of_loc m l).
Proof.
  intros Hm He. unfold shr_fexp, fexp, emin, prec, emax.
  replace (Z.max (Zdigits2 m + e - 53) (3 - 1024 - 53) - e)
    with (Zdigits2 m - 53) by lia.
  destruct (Zdigits2 m - 53) as [|p|p] eqn:Hk; simpl shr.
  - eexists. split_and!; [by rewrite Z.add_0_r| |done].
    by rewrite shr_record_of_loc_m, Z.div_1_r.
  - eexists. split_and!; [done| |lia].
    rewrite iter_shr_1_m; rewrite shr_record_of_loc_m; [|lia].
    by rewrite Z.max_l by lia.
  - eexists. split_and!; [by rewrite Z.max_r, Z.add_0_r by lia| |done].
    rewrite Z.max_r by lia. by rewrite shr_record_of_loc_m, Z.div_1_r.
Qed.

(** Rounding a positive mantissa of at least 53 digits, away from the
    subnormal range and from overflow: the result is a normal number, its
    exponent is raised by the [k] digits dropped (one more when rounding up
    carries into a 54th digit), and it is off by at most one unit of the
    last digit kept.  A mantissa of exactly 53 digits is kept as it is. *)
Lemma binary_round_aux_bounds (P : positive) (E : Z) :
  let k := Zdigits2 (Z.pos P) - 53 in
  0 <= k → -1074 <= E + k → E + k + 1 <= 971 →
  ∃ (m : positive) (j : Z),
    binary_round_aux prec emax false (Z.pos P) E loc_Exact
      = S754_finite false m (E + j) ∧
    k <= j <= k + 1 ∧
    Zdigits2 (Z.pos m) = 53 ∧
    Z.pos P - 2 ^ k <= Z.pos m * 2 ^ j <= Z.pos P + 2 ^ k ∧
    (k = 0 → m = P ∧ j = 0).
Proof.
  intros k Hk Hlo Hhi.
  pose proof (Zdigits2_bounds (Z.pos P) eq_refl) as HP.
  replace (Zdigits2 (Z.pos P)) with (k + 53) in HP by (unfold k; lia).
  replace (k + 53 - 1) with (52 + k) in HP by lia.
  replace (k + 53) with (53 + k) in HP by lia.
  rewrite !Z.pow_add_r in HP by lia.
  assert (0 < 2 ^ k) as H2k by (apply Z.pow_pos_nonneg; lia).
  destruct (shr_fexp_m (Z.pos P) E loc_Exact) as (mrs1 & E1 & M1 & X1);
    [done|fold k; lia|].
  fold k in E1, M1. rewrite Z.max_l in E1, M1 by lia.
  set (m1 := Z.pos P / 2 ^ k) in *.
  assert (m1 * 2 ^ k <= Z.pos P < (m1 + 1) * 2 ^ k) as Hm1.
  { unfold m1. pose proof (Z.mul_div_le (Z.pos P) (2 ^ k) H2k).
    pose proof (Z.mul_succ_div_gt (Z.pos P) (2 ^ k) H2k). lia. }
  assert (2 ^ 52 <= m1 < 2 ^ 53) as Rm1 by (split; nia).
  set (m2 := round_nearest_even (shr_m mrs1) (loc_of_shr_record mrs1)).
  assert (m1 <= m2 <= m1 + 1) as Rm2
    by (unfold m2; rewrite M1; apply round_nearest_even_range).
  assert (0 < m2) as Pm2 by lia.
  assert (53 <= Zdigits2 m2 <= 54) as Dm2.
  { pose proof (Zdigits2_bounds m2 Pm2) as [Hl Hu].
    split.
    - apply Z.nlt_ge. intros Hd.
      assert (2 ^ Zdigits2 m2 <= 2 ^ 52) by (apply Z.pow_le_mono_r; lia). lia.
    - apply Z.nlt_ge. intros Hd.
      assert (2 ^ 54 <= 2 ^ (Zdigits2 m2 - 1)) by (apply Z.pow_le_mono_r; lia).
      lia. }
  destruct (shr_fexp_m m2 (E + k) loc_Exact) as (mrs2 & E2 & M2 & X2);
    [done|lia|].
  set (k2 := Z.max (Zdigits2 m2 - 53) 0) in *.
  assert (shr_m mrs2 * 2 ^ k2 = m2 ∧ Zdigits2 (shr_m mrs2) = 53) as [V3 D3].
  { rewrite M2. destruct (Z.eq_dec (Zdigits2 m2) 53) as [H53|H54].
    - unfold k2. rewrite H53. simpl. by rewrite Z.div_1_r, Z.mul_1_r.
    - assert (Zdigits2 m2 = 54) as H by lia.
      pose proof (Zdigits2_bounds m2 Pm2) as [Hl _]. rewrite H in Hl.
      simpl in Hl. assert (m2 = 2 ^ 53) as -> by lia.
      unfold k2. rewrite H. done. }
  assert (0 < shr_m mrs2) as P3.
  { assert (0 <= k2) by (unfold k2; lia).
    assert (0 < 2 ^ k2) by (apply Z.pow_pos_nonneg; lia). nia. }
  destruct (shr_m mrs2) as [|m|] eqn:Hm3; [lia| |lia].
  exists m, (k + k2).
  assert (0 <= k2 <= 1) as Rk2 by (unfold k2; lia).
  split_and!.
  - unfold binary_round_aux. rewrite E1. fold m2. rewrite E2, Hm3.
    replace (E + k + k2 <=? Py.emax - Py.prec) with true
      by (symmetry; apply Z.leb_le; unfold Py.emax, Py.prec; lia).
    f_equal. lia.
  - lia.
  - lia.
  - done.
  - rewrite Z.pow_add_r by lia. nia.
  - rewrite Z.pow_add_r by lia. nia.
  - intros Hk0.
    assert (mrs1 = shr_record_of_loc (Z.pos P) loc_Exact) as Hr
      by (apply X1; unfold k in Hk0; lia).
    assert (m2 = Z.pos P) as Hm2 by (unfold m2; by rewrite Hr).
    assert (Zdigits2 m2 = 53) as H53 by (rewrite Hm2; unfold k in Hk0; lia).
    assert (k2 = 0) as Hk2 by (unfold k2; lia).
    rewrite Hk2, Z.mul_1_r in V3. split; [|lia].
    assert (Z.pos m = Z.pos P) by congruence. by simplify_eq.
Qed.

Lemma pos_iter_xO (p q : positive) :
  Z.pos (Pos.iter xO p q) = Z.pos p * 2 ^ Z.pos q.
Proof.
  change (Pos.iter xO p q) with (shift_pos q p).
  rewrite shift_pos_correct, Z.pow_pos_fold. apply Z.mul_comm.
Qed.

(** [float(n)] for a positive [int] below [2 ^ 63]: a normal number within
    a relative distance [2 ^ -52] of [n]. *)
Lemma float_of_int_bounds (n : Z) :
  0 < n < 2 ^ 63 →
  ∃ (m : positive) (e : Z),
    float_of_int n = Ok (S754_finite false m e) ∧
    Zdigits2 (Z.pos m) = 53 ∧ -52 <= e <= 11 ∧
    n * 2 ^ 52 - n <= Z.pos m * 2 ^ (e + 52) <= n * 2 ^ 52 + n.
Proof.
  intros [Hn0 Hn63]. destruct n as [|p|p]; [lia| |lia].
  pose proof (Zdigits2_bounds (Z.pos p) eq_refl) as Hd.
  set (d := Zdigits2 (Z.pos p)) in *.
  assert (1 <= d <= 63) as Rd.
  { split.
    - apply Z.nlt_ge. intros H.
      assert (2 ^ d <= 2 ^ 0) by (apply Z.pow_le_mono_r; lia).
      change (2 ^ 0) with 1 in *. lia.
    - apply Z.nlt_ge. intros H.
      assert (2 ^ 63 <= 2 ^ (d - 1)) by (apply Z.pow_le_mono_r; lia). lia. }
  unfold float_of_int, float_of_Z, binary_normalize, binary_round.
  change (Z.pos (digits2_pos p)) with d.
  replace (fexp prec emax (d + 0)) with (d - 53)
    by (unfold fexp, emin, prec, emax; lia).
  unfold shl_align.
  destruct (d - 53 - 0) as [|q|q] eqn:Hq.
  - (* exactly 53 digits *)
    destruct (binary_round_aux_bounds p 0) as (m & j & -> & _ & Dm & _ & X);
      [fold d; lia..|].
    destruct X as [-> ->]; [fold d; lia|].
    exists p, 0. split_and!; [done|done|lia|lia|simpl (0 + 52); lia|simpl (0 + 52); lia].
  - (* more than 53 digits: rounded *)
    destruct (binary_round_aux_bounds p 0) as (m & j & -> & Rj & Dm & Bm & _);
      [fold d; lia..|].
    fold d in Rj, Bm. simpl (0 + j).
    exists m, j. split_and!; [done|done|lia|lia| |].
    + replace (d - 1) with (d - 53 + 52) in Hd by lia.
      rewrite !Z.pow_add_r in * by lia. nia.
    + replace (d - 1) with (d - 53 + 52) in Hd by lia.
      rewrite !Z.pow_add_r in * by lia. nia.
  - (* fewer than 53 digits: exact *)
    assert (Z.pos q = 53 - d) as Eq by lia.
    pose proof (pos_iter_xO p q) as Hz. rewrite Eq in Hz.
    set (mz := Pos.iter xO p q) in *.
    assert (0 < 2 ^ (53 - d)) as H2 by (apply Z.pow_pos_nonneg; lia).
    assert (2 ^ (d - 1) * 2 ^ (53 - d) = 2 ^ 52) as H52
      by (rewrite <- Z.pow_add_r by lia; f_equal; lia).
    assert (2 ^ d * 2 ^ (53 - d) = 2 ^ 53) as H53
      by (rewrite <- Z.pow_add_r by lia; f_equal; lia).
    assert (Zdigits2 (Z.pos mz) = 53) as Dz.
    { apply Zdigits2_unique; [|lia]. rewrite Hz. split; nia. }
    destruct (binary_round_aux_bounds mz (d - 53)) as (m & j & -> & _ & Dm & _ & X);
      [rewrite Dz; lia..|].
    destruct X as [-> ->]; [rewrite Dz; lia|].
    exists mz, (d - 53 + 0). split_and!; [done|done|lia|lia| |].
    + replace (d - 53 + 0 + 52) with (d - 1) by lia. rewrite Hz. nia.
    + replace (d - 53 + 0 + 52) with (d - 1) by lia. rewrite Hz. nia.
Qed.

(** [int(n * ratio)] for a ratio in [[0.5, 1)] (a 53-digit mantissa [M]
    with exponent -53) and for [0 < n < 2 ^ 63]: the result is an integer
    [a] with [n * (M - 6) < 2 ^ 53 * (a + 1)] and
    [2 ^ 53 * a <= n * (M + 6)]. *)
Lemma cut_bounds (n : Z) (M : positive) :
  0 < n < 2 ^ 63 → Zdigits2 (Z.pos M) = 53 →
  ∃ a, Processing.cut n (S754_finite false M (-53)) = Ok a ∧
       0 <= a ∧
       2 ^ 53 * a <= n * (Z.pos M + 6) ∧
       n * (Z.pos M - 6) < 2 ^ 53 * (a + 1).
Proof.
  intros Hn DM.
  destruct (float_of_int_bounds n Hn) as (m & e & Hf & Dm & Re & Bn).
  pose proof (Zdigits2_bounds (Z.pos m) eq_refl) as Rm. rewrite Dm in Rm.
  pose proof (Zdigits2_bounds (Z.pos M) eq_refl) as RM. rewrite DM in RM.
  change (2 ^ (53 - 1)) with (2 ^ 52) in *.
  assert (Zdigits2 (Z.pos (m * M)) - 53 = 52 ∨ Zdigits2 (Z.pos (m * M)) - 53 = 53)
    as Hk.
  { pose proof (Zdigits2_bounds (Z.pos (m * M)) eq_refl) as [Hl Hu].
    set (d := Zdigits2 (Z.pos (m * M))) in *.
    rewrite Pos2Z.inj_mul in Hl, Hu.
    assert (2 ^ 52 * 2 ^ 52 <= Z.pos m * Z.pos M)
      by (apply Z.mul_le_mono_nonneg; lia).
    assert (Z.pos m * Z.pos M < 2 ^ 53 * 2 ^ 53)
      by (apply Z.mul_lt_mono_nonneg; lia).
    assert (104 < d).
    { apply Z.nle_gt. intros Hd.
      assert (2 ^ d <= 2 ^ 104) by (apply Z.pow_le_mono_r; lia).
      change (2 ^ 104) with (2 ^ 52 * 2 ^ 52) in *. lia. }
    assert (d < 107).
    { apply Z.nle_gt. intros Hd.
      assert (2 ^ 106 <= 2 ^ (d - 1)) by (apply Z.pow_le_mono_r; lia).
      change (2 ^ 106) with (2 ^ 53 * 2 ^ 53) in *. lia. }
    lia. }
  destruct (binary_round_aux_bounds (m * M) (e + -53))
    as (m' & j & Hr & Rj & _ & BW & _); [lia..|].
  set (k := Zdigits2 (Z.pos (m * M)) - 53) in *.
  rewrite Pos2Z.inj_mul in BW.
  set (W := Z.pos m' * 2 ^ j) in *.
  assert (2 ^ k <= 2 ^ 53) as H2k by (apply Z.pow_le_mono_r; lia).
  assert (0 < 2 ^ k) as H2k' by (apply Z.pow_pos_nonneg; lia).
  set (A := 2 ^ (e + 52)) in *.
  set (B := 2 ^ (53 - e)).
  assert (0 < A) as HA by (apply Z.pow_pos_nonneg; lia).
  assert (0 < B) as HB by (apply Z.pow_pos_nonneg; lia).
  assert (B * A = 2 ^ 52 * 2 ^ 53) as HAB.
  { unfold A, B. rewrite <- !Z.pow_add_r by lia. f_equal. lia. }
  (* the integer the code returns *)
  assert (Processing.cut n (S754_finite false M (-53)) = Ok (W / B)) as Hcut.
  { unfold Processing.cut, int_mul_float.
    rewrite Hf, bind_Ok. cbv [mret result_ret]. rewrite bind_Ok.
    unfold SFmul. cbn [xorb]. rewrite Hr. cbn [int_of_float cond_Zopp].
    f_equal. unfold W, B. destruct (0 <=? e + -53 + j) eqn:Hs.
    - apply Z.leb_le in Hs.
      assert (2 ^ j = 2 ^ (e + -53 + j) * 2 ^ (53 - e)) as ->
        by (rewrite <- Z.pow_add_r by lia; f_equal; lia).
      rewrite Z.mul_assoc, Z.div_mul; [done|apply Z.pow_nonzero; lia].
    - apply Z.leb_gt in Hs.
      assert (2 ^ (53 - e) = 2 ^ (- (e + -53 + j)) * 2 ^ j) as ->
        by (rewrite <- Z.pow_add_r by lia; f_equal; lia).
      rewrite Z.div_mul_cancel_r; [done|apply Z.pow_nonzero; lia..]. }
  exists (W / B). split; [done|].
  pose proof (Z.mul_div_le W B HB) as Hfl.
  pose proof (Z.mul_succ_div_gt W B HB) as Hce.
  set (a := W / B) in *.
  assert (0 <= W) as HW0 by (unfold W; apply Z.mul_nonneg_nonneg; [lia|apply Z.pow_nonneg; lia]).
  assert (0 <= a) as Ha0 by (unfold a; apply Z.div_pos; lia).
  split; [done|].
  set (N := Z.pos m) in *. set (Mz := Z.pos M) in *.
  assert (2 ^ 53 * A <= 2 * (N * A)) as H53A.
  { change (2 ^ 53) with (2 * 2 ^ 52). nia. }
  split.
  - (* upper bound *)
    assert (a * (B * A) <= (N * A) * Mz + 2 ^ 53 * A) as H1.
    { assert (a * B * A <= (N * Mz + 2 ^ 53) * A)
        by (apply Z.mul_le_mono_nonneg_r; lia). lia. }
    assert ((N * A) * Mz <= (n * 2 ^ 52 + n) * Mz) as H2
      by (apply Z.mul_le_mono_nonneg_r; lia).
    rewrite HAB in H1.
    assert (a * (2 ^ 52 * 2 ^ 53) <= 2 ^ 52 * (n * (Mz + 6))) as H3.
    { assert (n * Mz <= n * 2 ^ 53) by (apply Z.mul_le_mono_nonneg_l; lia).
      change (2 ^ 53) with (2 * 2 ^ 52) in *. lia. }
    apply (Z.mul_le_mono_pos_l _ _ (2 ^ 52)); [done|]. lia.
  - (* lower bound *)
    assert ((N * A) * Mz - 2 ^ 53 * A < (a + 1) * (B * A)) as H1.
    { assert ((N * Mz - 2 ^ 53) * A <= W * A)
        by (apply Z.mul_le_mono_nonneg_r; lia).
      assert (W * A < (B * Z.succ a) * A)
        by (apply Z.mul_lt_mono_pos_r; lia). lia. }
    assert ((n * 2 ^ 52 - n) * Mz <= (N * A) * Mz) as H2
      by (apply Z.mul_le_mono_nonneg_r; lia).
    rewrite HAB in H1.
    assert (2 ^ 52 * (n * (Mz - 6)) < (a + 1) * (2 ^ 52 * 2 ^ 53)) as H3.
    { assert (n * Mz <= n * 2 ^ 53) by (apply Z.mul_le_mono_nonneg_l; lia).
      change (2 ^ 53) with (2 * 2 ^ 52) in *. lia. }
    apply (Z.mul_lt_mono_pos_l (2 ^ 52)); [done|]. lia.
Qed.

(** The two cut points of the split, for a table of [n] rows. *)
Lemma cut_points (n : Z) :
  0 <= n < 2 ^ 63 →
  ∃ a b, Processing.cut n lit_0_70 = Ok a ∧ Processing.cut n lit_0_85 = Ok b ∧
         0 <= a <= b ∧ b <= n.
Proof.
  intros [Hn0 Hn]. destruct (Z.eq_dec n 0) as [->|Hne].
  { exists 0, 0. by split_and!. }
  destruct (cut_bounds n 6305039478318694) as (a & Ha & Ha0 & Hau & Hal);
    [lia|done|].
  destruct (cut_bounds n 7656119366529843) as (b & Hb & Hb0 & Hbu & Hbl);
    [lia|done|].
  exists a, b. split_and!; [done|done|lia| |].
  - assert (2 ^ 53 * a < 2 ^ 53 * (b + 1)) by lia. 
    assert (a < b + 1) by (apply (Z.mul_lt_mono_pos_l (2 ^ 53)); lia). lia.
  - assert (2 ^ 53 * b <= 2 ^ 53 * n) by (change (2 ^ 53) with 9007199254740992; lia).
    apply (Z.mul_le_mono_pos_l _ _ (2 ^ 53)); lia.
Qed.

End Binary64Facts.

(** ** binary64: the value rounding to nearest returns *)

Module NearestFacts.
Import Binary64Facts.

(** What [shr_1] keeps of a number [P] after [k] shifts: the digits above
    the [k]th in the mantissa, the [k]th digit in the round bit, and
    whether any digit below is set in the sticky bit. *)
Definition shr_inv (P : Z) (mrs : shr_record) (k : Z) : Prop :=
  0 <= shr_m mrs ∧
  ∃ t, 2 * P = (2 * shr_m mrs + Z.b2z (shr_r mrs)) * 2 ^ k + t ∧
       0 <= t < 2 ^ k ∧ (shr_s mrs = true ↔ t ≠ 0).

(** [P / 2 ^ k] rounded to the nearest integer, ties to even. *)
Definition nearest_even (P k : Z) : Z :=
  let q := P / 2 ^ k in
  let t := 2 * (P mod 2 ^ k) in
  if t <? 2 ^ k then q
  else if 2 ^ k <? t then q + 1
  else if Z.even q then q else q + 1.

Lemma shr_1_inv P mrs k :
  0 <= k → shr_inv P mrs k → shr_inv P (shr_1 mrs) (k + 1).
Proof.
  intros Hk (Hm & t & HP & Ht & Hs). destruct mrs as [m r s].
  cbn [shr_m shr_r shr_s] in *.
  assert (0 < 2 ^ k) as H2k by (apply Z.pow_pos_nonneg; lia).
  assert (2 ^ (k + 1) = 2 * 2 ^ k) as E
    by (rewrite Z.pow_add_r, Z.pow_1_r by lia; lia).
  unfold shr_inv. rewrite E.
  assert (Z.b2z r = 0 ∨ Z.b2z r = 1) as Hr by (destruct r; simpl; lia).
  assert ((r || s = true) ↔ Z.b2z r * 2 ^ k + t ≠ 0) as Hs'.
  { rewrite orb_true_iff, Hs. destruct r; simpl; split; try lia; intuition lia. }
  destruct m as [|[p|p|]|]; cbn [shr_1 shr_m shr_r shr_s]; [| | | |lia];
    (split; [lia|]); exists (Z.b2z r * 2 ^ k + t);
    (split_and!; [cbn [Z.b2z]; lia|nia|nia|done]).
Qed.

Lemma iter_shr_1_inv P p mrs k :
  0 <= k → shr_inv P mrs k →
  shr_inv P (SpecFloat.iter_pos shr_1 p mrs) (k + Z.pos p).
Proof.
  revert mrs k. induction p as [p IH|p IH|]; intros mrs k Hk Hinv;
    simpl SpecFloat.iter_pos.
  - replace (k + Z.pos p~1) with (k + 1 + Z.pos p + Z.pos p) by lia.
    apply IH; [lia|]. apply IH; [lia|]. by apply shr_1_inv.
  - replace (k + Z.pos p~0) with (k + Z.pos p + Z.pos p) by lia.
    apply IH; [lia|]. by apply IH.
  - by apply shr_1_inv.
Qed.

(** Rounding the shifted record gives the nearest integer. *)
Lemma round_shr_inv P mrs k :
  0 <= k → shr_inv P mrs k →
  round_nearest_even (shr_m mrs) (loc_of_shr_record mrs) = nearest_even P k.
Proof.
  intros Hk (Hm & t & HP & Ht & Hs). destruct mrs as [m r s].
  cbn [shr_m shr_r shr_s] in *.
  assert (0 < 2 ^ k) as H2k by (apply Z.pow_pos_nonneg; lia).
  assert (Z.b2z r = 0 ∨ Z.b2z r = 1) as Hr by (destruct r; simpl; lia).
  set (rem := P - m * 2 ^ k).
  assert (2 * rem = Z.b2z r * 2 ^ k + t) as Hrem by (unfold rem; lia).
  assert (0 <= rem < 2 ^ k) as Rrem by nia.
  assert (P / 2 ^ k = m) as Hq
    by (symmetry; apply (Z.div_unique _ _ _ rem); [lia|unfold rem; lia]).
  assert (P mod 2 ^ k = rem) as Hmod
    by (symmetry; apply (Z.mod_unique _ _ m); [lia|unfold rem; lia]).
  unfold nearest_even. rewrite Hq, Hmod, Hrem.
  destruct r, s; cbn [loc_of_shr_record round_nearest_even Z.b2z].
  - assert (t ≠ 0) by (by apply Hs).
    rewrite (proj2 (Z.ltb_ge _ _)), (proj2 (Z.ltb_lt _ _)) by lia. done.
  - assert (t = 0) as -> by (destruct (Z.eq_dec t 0); [done|]; by apply Hs in n).
    rewrite (proj2 (Z.ltb_ge _ _)), (proj2 (Z.ltb_ge _ _)) by lia. done.
  - rewrite (proj2 (Z.ltb_lt _ _)) by lia. done.
  - rewrite (proj2 (Z.ltb_lt _ _)) by lia. done.
Qed.

(** The value of [nearest_even] next to a multiple [T] of [2 ^ k]. *)
Lemma nearest_even_up P k T δ :
  0 <= k → P = T - δ → (2 ^ k | T) → 0 <= 2 * δ < 2 ^ k →
  nearest_even P k * 2 ^ k = T.
Proof.
  intros Hk -> [q ->] Hδ.
  assert (0 < 2 ^ k) as H2k by (apply Z.pow_pos_nonneg; lia).
  unfold nearest_even.
  destruct (Z.eq_dec δ 0) as [->|Hne].
  - rewrite Z.sub_0_r, Z.div_mul, Z.mod_mul by lia.
    rewrite (proj2 (Z.ltb_lt _ _)) by lia. done.
  - assert ((q * 2 ^ k - δ) / 2 ^ k = q - 1) as ->
      by (symmetry; apply (Z.div_unique _ _ _ (2 ^ k - δ)); lia).
    assert ((q * 2 ^ k - δ) mod 2 ^ k = 2 ^ k - δ) as ->
      by (symmetry; apply (Z.mod_unique _ _ (q - 1)); lia).
    rewrite (proj2 (Z.ltb_ge _ _)), (proj2 (Z.ltb_lt _ _)) by lia. lia.
Qed.

Lemma nearest_even_down P k T δ :
  0 <= k → P = T - δ → (2 ^ k | T) → 2 ^ k < 2 * δ < 2 * 2 ^ k →
  nearest_even P k * 2 ^ k = T - 2 ^ k.
Proof.
  intros Hk -> [q ->] Hδ.
  assert (0 < 2 ^ k) as H2k by (apply Z.pow_pos_nonneg; lia).
  unfold nearest_even.
  assert ((q * 2 ^ k - δ) / 2 ^ k = q - 1) as ->
    by (symmetry; apply (Z.div_unique _ _ _ (2 ^ k - δ)); lia).
  assert ((q * 2 ^ k - δ) mod 2 ^ k = 2 ^ k - δ) as ->
    by (symmetry; apply (Z.mod_unique _ _ (q - 1)); lia).
  rewrite (proj2 (Z.ltb_lt _ _)) by lia. lia.
Qed.

Lemma nearest_even_tie P k T δ :
  0 <= k → P = T - δ → (2 ^ k | T) → 2 * δ = 2 ^ k → Z.even (T / 2 ^ k) = true →
  nearest_even P k * 2 ^ k = T.
Proof.
  intros Hk -> [q ->] Hδ.
  assert (0 < 2 ^ k) as H2k by (apply Z.pow_pos_nonneg; lia).
  rewrite Z.div_mul by lia. intros Hev.
  unfold nearest_even.
  assert ((q * 2 ^ k - δ) / 2 ^ k = q - 1) as ->
    by (symmetry; apply (Z.div_unique _ _ _ (2 ^ k - δ)); lia).
  assert ((q * 2 ^ k - δ) mod 2 ^ k = 2 ^ k - δ) as ->
    by (symmetry; apply (Z.mod_unique _ _ (q - 1)); lia).
  rewrite (proj2 (Z.ltb_ge _ _)), (proj2 (Z.ltb_ge _ _)) by lia.
  replace (q - 1) with (Z.pred q) by lia.
  rewrite Z.even_pred, <- Z.negb_even, Hev. simpl. lia.
Qed.

(** Rounding a positive mantissa of more than 53 digits, away from the
    subnormal range and from overflow: the value returned is the mantissa
    rounded to the nearest multiple of [2 ^ k], ties to even, where [k] is
    the number of digits dropped. *)
Lemma binary_round_aux_nearest (P : positive) (E : Z) :
  let k := Zdigits2 (Z.pos P) - 53 in
  0 < k → -1074 <= E + k → E + k + 1 <= 971 →
  ∃ (m : positive) (j : Z),
    binary_round_aux prec emax false (Z.pos P) E loc_Exact
      = S754_finite false m (E + j) ∧
    k <= j <= k + 1 ∧
    Z.pos m * 2 ^ j = nearest_even (Z.pos P) k * 2 ^ k.
Proof.
  intros k Hk Hlo Hhi.
  pose proof (Zdigits2_bounds (Z.pos P) eq_refl) as HP.
  replace (Zdigits2 (Z.pos P)) with (k + 53) in HP by (unfold k; lia).
  replace (k + 53 - 1) with (52 + k) in HP by lia.
  replace (k + 53) with (53 + k) in HP by lia.
  rewrite !Z.pow_add_r in HP by lia.
  assert (0 < 2 ^ k) as H2k by (apply Z.pow_pos_nonneg; lia).
  destruct k as [|p|p] eqn:Hkp; [lia| |lia].
  set (mrs1 := SpecFloat.iter_pos shr_1 p (shr_record_of_loc (Z.pos P) loc_Exact)).
  assert (shr_fexp prec emax (Z.pos P) E loc_Exact = (mrs1, E + Z.pos p)) as E1.
  { unfold shr_fexp, fexp, emin, prec, emax.
    replace (Z.max (Zdigits2 (Z.pos P) + E - 53) (3 - 1024 - 53) - E)
      with (Z.pos p) by lia.
    reflexivity. }
  assert (shr_inv (Z.pos P) mrs1 (Z.pos p)) as Hinv.
  { change (Z.pos p) with (0 + Z.pos p). apply iter_shr_1_inv; [lia|].
    split; [cbn; lia|]. exists 0. cbn. split_and!; [lia|lia|lia|done]. }
  assert (shr_m mrs1 = Z.pos P / 2 ^ Z.pos p) as M1
    by (unfold mrs1; by rewrite iter_shr_1_m).
  set (m1 := Z.pos P / 2 ^ Z.pos p) in *.
  assert (m1 * 2 ^ Z.pos p <= Z.pos P < (m1 + 1) * 2 ^ Z.pos p) as Hm1.
  { unfold m1. pose proof (Z.mul_div_le (Z.pos P) (2 ^ Z.pos p) H2k).
    pose proof (Z.mul_succ_div_gt (Z.pos P) (2 ^ Z.pos p) H2k). lia. }
  assert (2 ^ 52 <= m1 < 2 ^ 53) as Rm1 by (split; nia).
  set (m2 := round_nearest_even (shr_m mrs1) (loc_of_shr_record mrs1)).
  assert (m2 = nearest_even (Z.pos P) (Z.pos p)) as Hnear
    by (apply round_shr_inv; [lia|done]).
  assert (m1 <= m2 <= m1 + 1) as Rm2
    by (unfold m2; rewrite M1; apply round_nearest_even_range).
  assert (0 < m2) as Pm2 by lia.
  assert (53 <= Zdigits2 m2 <= 54) as Dm2.
  { pose proof (Zdigits2_bounds m2 Pm2) as [Hl Hu].
    split.
    - apply Z.nlt_ge. intros Hd.
      assert (2 ^ Zdigits2 m2 <= 2 ^ 52) by (apply Z.pow_le_mono_r; lia). lia.
    - apply Z.nlt_ge. intros Hd.
      assert (2 ^ 54 <= 2 ^ (Zdigits2 m2 - 1)) by (apply Z.pow_le_mono_r; lia).
      lia. }
  destruct (shr_fexp_m m2 (E + Z.pos p) loc_Exact) as (mrs2 & E2 & M2 & X2);
    [done|lia|].
  set (k2 := Z.max (Zdigits2 m2 - 53) 0) in *.
  assert (shr_m mrs2 * 2 ^ k2 = m2) as V3.
  { rewrite M2. destruct (Z.eq_dec (Zdigits2 m2) 53) as [H53|H54].
    - unfold k2. rewrite H53. simpl. by rewrite Z.div_1_r, Z.mul_1_r.
    - assert (Zdigits2 m2 = 54) as H by lia.
      pose proof (Zdigits2_bounds m2 Pm2) as [Hl _]. rewrite H in Hl.
      simpl in Hl. assert (m2 = 2 ^ 53) as -> by lia.
      unfold k2. rewrite H. done. }
  assert (0 <= k2 <= 1) as Rk2 by (unfold k2; lia).
  assert (0 < shr_m mrs2) as P3.
  { assert (0 < 2 ^ k2) by (apply Z.pow_pos_nonneg; lia). nia. }
  destruct (shr_m mrs2) as [|m|] eqn:Hm3; [lia| |lia].
  exists m, (Z.pos p + k2). split_and!.
  - unfold binary_round_aux. rewrite E1. fold m2. rewrite E2, Hm3.
    replace (E + Z.pos p + k2 <=? Py.emax - Py.prec) with true
      by (symmetry; apply Z.leb_le; unfold Py.emax, Py.prec; lia).
    f_equal. lia.
  - lia.
  - lia.
  - rewrite <- Hnear, <- V3, Z.pow_add_r by lia. lia.
Qed.

(** [float(n)] is exact for a positive [int] below [2 ^ 53]. *)
Lemma float_of_int_exact (n : Z) :
  0 < n < 2 ^ 53 →
  ∃ (m : positive) (e : Z),
    float_of_int n = Ok (S754_finite false m e) ∧
    Zdigits2 (Z.pos m) = 53 ∧ -52 <= e <= 0 ∧
    Z.pos m = n * 2 ^ (- e).
Proof.
  intros [Hn0 Hn53]. destruct n as [|p|p]; [lia| |lia].
  pose proof (Zdigits2_bounds (Z.pos p) eq_refl) as Hd.
  set (d := Zdigits2 (Z.pos p)) in *.
  assert (1 <= d <= 53) as Rd.
  { split.
    - apply Z.nlt_ge. intros H.
      assert (2 ^ d <= 2 ^ 0) by (apply Z.pow_le_mono_r; lia).
      change (2 ^ 0) with 1 in *. lia.
    - apply Z.nlt_ge. intros H.
      assert (2 ^ 53 <= 2 ^ (d - 1)) by (apply Z.pow_le_mono_r; lia). lia. }
  unfold float_of_int, float_of_Z, binary_normalize, binary_round.
  change (Z.pos (digits2_pos p)) with d.
  replace (fexp prec emax (d + 0)) with (d - 53)
    by (unfold fexp, emin, prec, emax; lia).
  unfold shl_align.
  destruct (d - 53 - 0) as [|q|q] eqn:Hq; [|lia|].
  - destruct (binary_round_aux_bounds p 0) as (m & j & -> & _ & Dm & _ & X);
      [fold d; lia..|].
    destruct X as [-> ->]; [fold d; lia|].
    exists p, 0. split_and!; [done|done|lia|lia|simpl; lia].
  - assert (Z.pos q = 53 - d) as Eq by lia.
    pose proof (pos_iter_xO p q) as Hz. rewrite Eq in Hz.
    set (mz := Pos.iter xO p q) in *.
    assert (0 < 2 ^ (53 - d)) as H2 by (apply Z.pow_pos_nonneg; lia).
    assert (2 ^ (d - 1) * 2 ^ (53 - d) = 2 ^ 52) as H52
      by (rewrite <- Z.pow_add_r by lia; f_equal; lia).
    assert (2 ^ d * 2 ^ (53 - d) = 2 ^ 53) as H53
      by (rewrite <- Z.pow_add_r by lia; f_equal; lia).
    assert (Zdigits2 (Z.pos mz) = 53) as Dz.
    { apply Zdigits2_unique; [|lia]. rewrite Hz. split; nia. }
    destruct (binary_round_aux_bounds mz (d - 53)) as (m & j & -> & _ & Dm & _ & X);
      [rewrite Dz; lia..|].
    destruct X as [-> ->]; [rewrite Dz; lia|].
    exists mz, (d - 53 + 0). split_and!; [done|done|lia|lia|].
    rewrite Hz. f_equal. f_equal. lia.
Qed.

(** [int(n * ratio)] for a ratio in [[0.5, 1)] (a 53-digit mantissa [M]
    with exponent -53) and for [0 < n < 2 ^ 53]: with [s] the power of two
    that brings [n] to 53 digits, the exact product [n * s * M] has
    [53 + k] digits and is rounded to the nearest multiple of [2 ^ k]; the
    result is the integer part of that. *)
Lemma cut_nearest (n : Z) (M : positive) :
  0 < n < 2 ^ 53 → Zdigits2 (Z.pos M) = 53 →
  ∃ e k,
    -52 <= e <= 0 ∧ 52 <= k <= 53 ∧
    2 ^ 52 <= n * 2 ^ (- e) < 2 ^ 53 ∧
    2 ^ (k + 52) <= n * 2 ^ (- e) * Z.pos M < 2 ^ (k + 53) ∧
    Processing.cut n (S754_finite false M (-53))
      = Ok (nearest_even (n * 2 ^ (- e) * Z.pos M) k * 2 ^ k / 2 ^ (53 - e)).
Proof.
  intros Hn DM.
  destruct (float_of_int_exact n Hn) as (m & e & Hf & Dm & Re & Hm).
  pose proof (Zdigits2_bounds (Z.pos m) eq_refl) as Rm. rewrite Dm in Rm.
  pose proof (Zdigits2_bounds (Z.pos M) eq_refl) as RM. rewrite DM in RM.
  change (2 ^ (53 - 1)) with (2 ^ 52) in *.
  pose proof (Zdigits2_bounds (Z.pos (m * M)) eq_refl) as HD.
  set (d := Zdigits2 (Z.pos (m * M))) in *.
  assert (104 < d < 107) as Rd.
  { destruct HD as [Hl Hu]. rewrite Pos2Z.inj_mul in Hl, Hu.
    assert (2 ^ 52 * 2 ^ 52 <= Z.pos m * Z.pos M)
      by (apply Z.mul_le_mono_nonneg; lia).
    assert (Z.pos m * Z.pos M < 2 ^ 53 * 2 ^ 53)
      by (apply Z.mul_lt_mono_nonneg; lia).
    split.
    - apply Z.nle_gt. intros Hd.
      assert (2 ^ d <= 2 ^ 104) by (apply Z.pow_le_mono_r; lia).
      change (2 ^ 104) with (2 ^ 52 * 2 ^ 52) in *. lia.
    - apply Z.nle_gt. intros Hd.
      assert (2 ^ 106 <= 2 ^ (d - 1)) by (apply Z.pow_le_mono_r; lia).
      change (2 ^ 106) with (2 ^ 53 * 2 ^ 53) in *. lia. }
  destruct (binary_round_aux_nearest (m * M) (e + -53))
    as (m' & j & Hr & Rj & HW); [fold d; lia..|].
  fold d in Rj, HW.
  exists e, (d - 53). rewrite <- Hm.
  replace (d - 53 + 52) with (d - 1) by lia.
  replace (d - 53 + 53) with d by lia.
  rewrite <- Pos2Z.inj_mul.
  split_and!; [lia|lia|lia|lia|lia|lia|lia|lia|].
  unfold Processing.cut, int_mul_float.
  rewrite Hf, bind_Ok. cbv [mret result_ret]. rewrite bind_Ok.
  unfold SFmul. cbn [xorb]. rewrite Hr. cbn [int_of_float cond_Zopp].
  f_equal. rewrite <- HW. destruct (0 <=? e + -53 + j) eqn:Hs.
  - apply Z.leb_le in Hs.
    assert (2 ^ j = 2 ^ (e + -53 + j) * 2 ^ (53 - e)) as ->
      by (rewrite <- Z.pow_add_r by lia; f_equal; lia).
    rewrite Z.mul_assoc, Z.div_mul; [done|apply Z.pow_nonzero; lia].
  - apply Z.leb_gt in Hs.
    assert (2 ^ (53 - e) = 2 ^ (- (e + -53 + j)) * 2 ^ j) as ->
      by (rewrite <- Z.pow_add_r by lia; f_equal; lia).
    rewrite Z.div_mul_cancel_r; [done|apply Z.pow_nonzero; lia..].
Qed.

(** [int(n * 0.85)] on a multiple of 20: the product misses [17 * j] by
    less than half a unit of its last digit and is rounded back to it. *)
Lemma cut_85_multiple (j b : Z) :
  0 < j → 20 * j <= 2 ^ 46 → Processing.cut (20 * j) lit_0_85 = Ok b →
  b = 17 * j.
Proof.
  intros Hj Hn Hb.
  change (2 ^ 46) with 70368744177664 in Hn.
  destruct (cut_nearest (20 * j) 7656119366529843)
    as (e & k & Re & Rk & Rs & RP & Hcut);
    [change (2 ^ 53) with 9007199254740992; lia|done|].
  unfold lit_0_85 in Hb. rewrite Hcut in Hb. injection Hb as <-.
  set (s := 2 ^ (- e)) in *.
  assert (2 ^ (53 - e) = 2 ^ 53 * s) as ->
    by (unfold s; rewrite <- Z.pow_add_r by lia; f_equal; lia).
  assert (2 ^ (k + 53) = 2 ^ k * 2 ^ 53) as Ek by (rewrite Z.pow_add_r; lia).
  assert (2 ^ 53 = 2 ^ (53 - k) * 2 ^ k) as Ed
    by (rewrite <- Z.pow_add_r by lia; f_equal; lia).
  assert (0 < 2 ^ k) as H2k by (apply Z.pow_pos_nonneg; lia).
  assert (0 < s) as Hs by (apply Z.pow_pos_nonneg; lia).
  set (js := j * s).
  assert (0 < js) as Hjs by (unfold js; lia).
  assert (20 * j * s * 7656119366529843 = js * (17 * 2 ^ 53 - 4)) as EP
    by (unfold js; change (2 ^ 53) with 9007199254740992; lia).
  rewrite EP in RP |- *. rewrite Ek in RP.
  rewrite (nearest_even_up _ k (17 * js * 2 ^ 53) (4 * js)).
  - replace (17 * js * 2 ^ 53) with (17 * j * (2 ^ 53 * s)) by (unfold js; lia).
    apply Z.div_mul. change (2 ^ 53) with 9007199254740992. lia.
  - lia.
  - lia.
  - exists (17 * js * 2 ^ (53 - k)). rewrite Ed at 1. lia.
  - change (2 ^ 53) with 9007199254740992 in RP. lia.
Qed.

(** [int(n * 0.70)] on a multiple of 10: the product misses [7 * j] by
    [4 * j] units of [2 ^ -53]; it is rounded back to [7 * j] unless that
    is more than half a unit of its last digit, which happens when a power
    of two lies between [7 * j] and [8 * j]. *)
Lemma cut_70_multiple (j a : Z) :
  0 < j → 10 * j <= 2 ^ 46 → Processing.cut (10 * j) lit_0_70 = Ok a →
  (a = 7 * j - 1 ∧ ∃ c, 7 * j <= 2 ^ c < 8 * j) ∨
  (a = 7 * j ∧ ¬ ∃ c, 7 * j <= 2 ^ c < 8 * j).
Proof.
  intros Hj Hn Ha.
  change (2 ^ 46) with 70368744177664 in Hn.
  destruct (cut_nearest (10 * j) 6305039478318694)
    as (e & k & Re & Rk & Rs & RP & Hcut);
    [change (2 ^ 53) with 9007199254740992; lia|done|].
  unfold lit_0_70 in Ha. rewrite Hcut in Ha. injection Ha as <-.
  set (s := 2 ^ (- e)) in *.
  assert (2 ^ (53 - e) = 2 ^ 53 * s) as ->
    by (unfold s; rewrite <- Z.pow_add_r by lia; f_equal; lia).
  assert (2 ^ (k + 53) = 2 ^ k * 2 ^ 53) as Ek by (rewrite Z.pow_add_r; lia).
  assert (2 ^ (k + 52) = 2 ^ k * 2 ^ 52) as Ek' by (rewrite Z.pow_add_r; lia).
  assert (2 ^ 53 = 2 ^ (53 - k) * 2 ^ k) as Ed
    by (rewrite <- Z.pow_add_r by lia; f_equal; lia).
  assert (2 ^ k = 2 ^ (k + e) * s) as Eke
    by (unfold s; rewrite <- Z.pow_add_r by lia; f_equal; lia).
  assert (0 < 2 ^ k) as H2k by (apply Z.pow_pos_nonneg; lia).
  assert (0 < 2 ^ (k + e)) as H2ke by (apply Z.pow_pos_nonneg; lia).
  assert (0 < s) as Hs by (apply Z.pow_pos_nonneg; lia).
  set (js := j * s).
  assert (0 < js) as Hjs by (unfold js; lia).
  assert (10 * j * s * 6305039478318694 = js * (7 * 2 ^ 53 - 4)) as EP
    by (unfold js; change (2 ^ 53) with 9007199254740992; lia).
  rewrite EP in RP |- *. rewrite Ek, Ek' in RP.
  assert ((2 ^ k | 7 * js * 2 ^ 53)) as Hdiv
    by (exists (7 * js * 2 ^ (53 - k)); rewrite Ed at 1; lia).
  assert (7 * js * 2 ^ 53 = 7 * j * (2 ^ 53 * s)) as ET by (unfold js; lia).
  destruct (Z_lt_le_dec (2 ^ k) (8 * js)) as [Hdown|Hup].
  - (* more than half a unit: rounded down *)
    left. split.
    + rewrite (nearest_even_down _ k (7 * js * 2 ^ 53) (4 * js));
        [|lia|lia|done|change (2 ^ 53) with 9007199254740992 in RP; lia].
      rewrite ET. symmetry.
      apply (Z.div_unique _ _ _ (2 ^ 53 * s - 2 ^ k)); [|lia].
      assert (2 ^ k <= 2 ^ 53) by (apply Z.pow_le_mono_r; lia).
      change (2 ^ 53) with 9007199254740992 in *. lia.
    + exists (k + e). set (c := 2 ^ (k + e)) in *. split.
      * apply Z.nlt_ge. intros Hc.
        assert (c * s <= (7 * j - 1) * s) by (apply Z.mul_le_mono_nonneg_r; lia).
        assert (j * s = js) by done.
        change (2 ^ 53) with 9007199254740992 in *. nia.
      * apply (Z.mul_lt_mono_pos_r s); [done|]. unfold js in Hdown. lia.
  - (* at most half a unit: rounded up, a tie going to the even mantissa *)
    right. split.
    + assert (nearest_even (js * (7 * 2 ^ 53 - 4)) k * 2 ^ k = 7 * js * 2 ^ 53)
        as ->.
      { destruct (Z.eq_dec (8 * js) (2 ^ k)) as [Htie|Hne].
        - apply (nearest_even_tie _ k _ (4 * js)); [lia|lia|done|lia|].
          rewrite <- Htie.
          replace (7 * js * 2 ^ 53) with (7 * 2 ^ 50 * (8 * js))
            by (change (2 ^ 53) with (8 * 2 ^ 50); lia).
          rewrite Z.div_mul by lia. done.
        - apply (nearest_even_up _ k _ (4 * js)); [lia|lia|done|lia]. }
      rewrite ET. apply Z.div_mul. change (2 ^ 53) with 9007199254740992. lia.
    + intros (c & Hc7 & Hc8).
      assert (0 <= c).
      { destruct (Z_lt_le_dec c 0) as [Hneg|]; [|done].
        rewrite Z.pow_neg_r in Hc7 by done. lia. }
      assert (2 ^ c * s < 2 ^ (k + e) * s) as Hlt.
      { assert (2 ^ c * s < 8 * j * s) by (apply Z.mul_lt_mono_pos_r; lia).
        unfold js in Hup. lia. }
      assert (c < k + e).
      { apply (Z.pow_lt_mono_r_iff 2); [lia|lia|].
        apply (Z.mul_lt_mono_pos_r s); done. }
      assert (2 ^ c <= 2 ^ (k + e - 1)) as Hle by (apply Z.pow_le_mono_r; lia).
      assert (2 ^ (k + e) = 2 * 2 ^ (k + e - 1)) as E2
        by (rewrite <- (Z.pow_succ_r 2) by lia; f_equal; lia).
      set (c' := 2 ^ (k + e - 1)) in *.
      assert (7 * j * s <= c' * s) by (apply Z.mul_le_mono_nonneg_r; lia).
      assert (j * s = js) by done.
      change (2 ^ 53) with 9007199254740992 in *.
      change (2 ^ 52) with 4503599627370496 in *. nia.
Qed.

(** Up to [2 ^ 46] rows, [int(n * 0.85)] is the floor of [17n/20]. *)
Lemma cut_85_exact (n b : Z) :
  0 <= n <= 2 ^ 46 → Processing.cut n lit_0_85 = Ok b → b = 17 * n / 20.
Proof.
  intros Hn Hb. destruct (Z.eq_dec n 0) as [->|Hne].
  { vm_compute in Hb. by simplify_eq. }
  destruct (Z.eq_dec (n mod 20) 0) as [Hmul|Hrest].
  - apply Z.mod_divide in Hmul as [j ->]; [|lia].
    rewrite (Z.mul_comm j 20) in *.
    rewrite (cut_85_multiple j b); [|lia|lia|done].
    replace (17 * (20 * j)) with (17 * j * 20) by lia.
    by rewrite Z.div_mul.
  - destruct (cut_bounds n 7656119366529843) as (b' & Hb' & _ & Hu & Hl);
      [change (2 ^ 63) with 9223372036854775808;
       change (2 ^ 46) with 70368744177664 in Hn; lia|done|].
    unfold lit_0_85 in Hb. rewrite Hb' in Hb. simplify_eq.
    change (2 ^ 53) with 9007199254740992 in *.
    change (2 ^ 46) with 70368744177664 in *.
    pose proof (Z.div_mod (17 * n) 20 ltac:(lia)) as Hdm.
    pose proof (Z.mod_pos_bound (17 * n) 20 ltac:(lia)) as Hr.
    pose proof (Z.div_mod n 20 ltac:(lia)) as Hdm'.
    pose proof (Z.mod_pos_bound n 20 ltac:(lia)) as Hr'.
    assert (1 <= (17 * n) mod 20) by lia.
    lia.
Qed.

(** Up to [2 ^ 46] rows, [int(n * 0.70)] is the floor of [7n/10], except
    on the multiples [10 * j] of 10 for which a power of two lies between
    [7 * j] and [8 * j], where it is one less. *)
Lemma cut_70_exact (n a : Z) :
  0 <= n <= 2 ^ 46 → Processing.cut n lit_0_70 = Ok a →
  7 * n / 10 - 1 <= a <= 7 * n / 10 ∧
  (a = 7 * n / 10 - 1 ↔
   n mod 10 = 0 ∧ ∃ c, 7 * (n / 10) <= 2 ^ c < 8 * (n / 10)).
Proof.
  intros Hn Ha. destruct (Z.eq_dec n 0) as [->|Hne].
  { vm_compute in Ha. simplify_eq. split; [done|]. split; [done|].
    intros (_ & c & Hc). change (0 / 10) with 0 in Hc.
    pose proof (Z.pow_nonneg 2 c). lia. }
  destruct (Z.eq_dec (n mod 10) 0) as [Hmul|Hrest].
  - apply Z.mod_divide in Hmul as [j ->]; [|lia].
    rewrite (Z.mul_comm j 10) in *.
    replace (7 * (10 * j)) with (7 * j * 10) by lia.
    replace (10 * j / 10) with j by (rewrite Z.mul_comm, Z.div_mul; lia).
    rewrite Z.div_mul by lia.
    replace ((10 * j) mod 10) with 0 by (rewrite Z.mul_comm, Z.mod_mul; lia).
    destruct (cut_70_multiple j a) as [[-> Hc]|[-> Hc]]; [lia|lia|done| |].
    + split; [lia|]. split; [done|lia].
    + split; [lia|]. split; [lia|]. by intros [_ ?].
  - destruct (cut_bounds n 6305039478318694) as (a' & Ha' & _ & Hu & Hl);
      [change (2 ^ 63) with 9223372036854775808;
       change (2 ^ 46) with 70368744177664 in Hn; lia|done|].
    unfold lit_0_70 in Ha. rewrite Ha' in Ha. simplify_eq.
    change (2 ^ 53) with 9007199254740992 in *.
    change (2 ^ 46) with 70368744177664 in *.
    pose proof (Z.div_mod (7 * n) 10 ltac:(lia)) as Hdm.
    pose proof (Z.mod_pos_bound (7 * n) 10 ltac:(lia)) as Hr.
    pose proof (Z.div_mod n 10 ltac:(lia)) as Hdm'.
    pose proof (Z.mod_pos_bound n 10 ltac:(lia)) as Hr'.
    assert (1 <= (7 * n) mod 10) by lia.
    assert (a = 7 * n / 10) as -> by lia.
    split; [lia|]. split; [lia|]. by intros [? _].
Qed.

End NearestFacts.

(** ** Sorting and slicing *)

Module SplitFacts.
Import Processing.

Section ByKey.
Context {Row : Type} (key : Row → Z).

Lemma filter_none (P : Row → Prop) `{!∀ x, Decision (P x)} (l : list Row) :
  (∀ x, x ∈ l → ¬ P x) → filter P l = [].
Proof.
  induction l as [|r l IH]; intros Hl; [done|].
  rewrite filter_cons, decide_False by (apply Hl; left).
  apply IH. intros x Hx. apply Hl. by right.
Qed.

End ByKey.

Section Slices.
Context {A : Type}.
Implicit Types l : list A.

Lemma iloc_head l a :
  0 <= a <= Z.of_nat (length l) → iloc None (Some a) l = take (Z.to_nat a) l.
Proof.
  intros Ha. unfold iloc, bound. cbn [from_option].
  replace (a <? 0) with false by (symmetry; apply Z.ltb_ge; lia).
  rewrite Z.min_l by lia. simpl drop. f_equal. lia.
Qed.

Lemma iloc_mid l a b :
  0 <= a <= b → b <= Z.of_nat (length l) →
  iloc (Some a) (Some b) l = take (Z.to_nat (b - a)) (drop (Z.to_nat a) l).
Proof.
  intros Ha Hb. unfold iloc, bound. cbn [from_option].
  replace (a <? 0) with false by (symmetry; apply Z.ltb_ge; lia).
  replace (b <? 0) with false by (symmetry; apply Z.ltb_ge; lia).
  by rewrite !Z.min_l by lia.
Qed.

Lemma iloc_tail l b :
  0 <= b <= Z.of_nat (length l) → iloc (Some b) None l = drop (Z.to_nat b) l.
Proof.
  intros Hb. unfold iloc, bound. cbn [from_option].
  replace (b <? 0) with false by (symmetry; apply Z.ltb_ge; lia).
  rewrite Z.min_l by lia. apply take_ge. rewrite length_drop. lia.
Qed.

Lemma three_slices l (a b : nat) :
  (a ≤ b)%nat → take a l ++ take (b - a) (drop a l) ++ drop b l = l.
Proof.
  intros Hab. rewrite app_assoc, take_take_drop.
  replace (a + (b - a))%nat with b by lia. apply take_drop.
Qed.

End Slices.

End SplitFacts.

(** ** Validation of the raw table *)

Module ValidateFacts.
Import Processing.

Lemma append_assoc (s1 s2 s3 : string) :
  (s1 +:+ s2) +:+ s3 = s1 +:+ (s2 +:+ s3).
Proof.
  induction s1 as [|c s1 IH]; [done|].
  change (String c ((s1 +:+ s2) +:+ s3) = String c (s1 +:+ (s2 +:+ s3))).
  by f_equal.
Qed.

Lemma append_nil_r (s : string) : s +:+ "" = s.
Proof.
  induction s as [|c s IH]; [done|].
  change (String c (s +:+ "") = String c s). by f_equal.
Qed.

Lemma occurs_in_refl s : occurs_in s s.
Proof.
  exists "", "". by rewrite append_nil_r.
Qed.

Lemma occurs_in_app_l s t u : occurs_in s t → occurs_in s (u +:+ t).
Proof.
  intros (a & b & ->). exists (u +:+ a), b. by rewrite append_assoc.
Qed.

Lemma occurs_in_app_r s t u : occurs_in s t → occurs_in s (t +:+ u).
Proof.
  intros (a & b & ->). exists a, (b +:+ u). by rewrite !append_assoc.
Qed.

Lemma occurs_in_join sep (l : list string) s :
  s ∈ l → occurs_in s (join sep l).
Proof.
  induction l as [|x l IH]; intros Hs; [by apply elem_of_nil in Hs|].
  apply elem_of_cons in Hs as [->|Hs].
  - destruct l; [apply occurs_in_refl|]. simpl.
    apply occurs_in_app_r, occurs_in_refl.
  - destruct l as [|y l]; [by apply elem_of_nil in Hs|].
    change (join sep (x :: y :: l)) with (x +:+ sep +:+ join sep (y :: l)).
    by apply occurs_in_app_l, occurs_in_app_l, IH.
Qed.

(** Every name of the list is printed, between its quotes. *)
Lemma occurs_in_repr_list (l : list string) c :
  c ∈ l → occurs_in (repr_str c) (repr_list l).
Proof.
  intros Hc. unfold repr_list.
  apply occurs_in_app_l, occurs_in_app_r, occurs_in_join.
  by apply list_elem_of_fmap_2.
Qed.

Lemma elem_of_missing df c :
  c ∈ missing df ↔ c ∈ required_cols ∧ c ∉ columns df.
Proof. unfold missing. rewrite list_elem_of_filter. tauto. Qed.

Lemma check_required_Ok df :
  missing df = [] → check_required df = Ok ().
Proof. unfold check_required. by intros ->. Qed.

Lemma check_required_Raise df :
  missing df ≠ [] →
  check_required df =
    Raise (ValueError ("Missing required columns: " +:+ repr_list (missing df))).
Proof. unfold check_required. by destruct (missing df). Qed.

Lemma length_filter_fmap {A B} (f : A → B) (P : B → Prop) (Q : A → Prop)
    `{!∀ y, Decision (P y)} `{!∀ x, Decision (Q x)} (l : list A) :
  (∀ x, Q x ↔ P (f x)) →
  length (filter P (f <$> l)) = length (filter Q l).
Proof.
  intros HPQ. induction l as [|x l IH]; [done|].
  rewrite fmap_cons, !filter_cons.
  destruct (decide (P (f x))) as [HP|HP].
  - rewrite decide_True by (by apply HPQ). simpl. by rewrite IH.
  - rewrite decide_False by (by rewrite HPQ). done.
Qed.

Section Dates.
Variable to_datetime : list cell → nat → option Z.

(** The date column after parsing. *)
Lemma parse_dates_column df :
  (λ r, r "obs_end_date") <$> rows (parse_dates to_datetime df) =
  parsed to_datetime ((λ r, r "obs_end_date") <$> rows df)
    <$> seq 0 (length (rows df)).
Proof.
  unfold parse_dates. cbn [rows]. rewrite fmap_imap, <- imap_seq_0.
  apply imap_ext. intros i r _. cbn. apply fn_lookup_insert.
Qed.

Lemma isna_parsed col i :
  isna (parsed to_datetime col i) = true ↔ to_datetime col i = None.
Proof. unfold parsed. by destruct (to_datetime col i). Qed.

(** The number reported is the number of entries that did not parse. *)
Lemma bad_rows_count df :
  bad_rows (parse_dates to_datetime df) =
  length (filter (λ i, to_datetime ((λ r, r "obs_end_date") <$> rows df) i = None)
                 (seq 0 (length (rows df)))).
Proof.
  unfold bad_rows.
  etrans; [symmetry; by apply (length_filter_fmap
             (λ r : string → cell, r "obs_end_date") (λ c, isna c = true))|].
  rewrite parse_dates_column.
  apply length_filter_fmap. intros i. by rewrite isna_parsed.
Qed.

Lemma existsb_isna (l : list (string → cell)) :
  existsb (λ r, isna (r "obs_end_date")) l = true ↔
  (0 < length (filter (λ r, isna (r "obs_end_date") = true) l))%nat.
Proof.
  induction l as [|r l IH]; simpl; [split; [done|lia]|].
  rewrite filter_cons. destruct (isna (r "obs_end_date")) eqn:Hr; simpl.
  - split; [lia|done].
  - done.
Qed.

Lemma validate_bad df :
  missing df = [] → (0 < bad_rows (parse_dates to_datetime df))%nat →
  validate to_datetime df =
    Raise (ValueError ("obs_end_date has "
                       +:+ pretty (bad_rows (parse_dates to_datetime df))
                       +:+ " unparsable values.")).
Proof.
  intros Hm Hb. unfold validate. rewrite check_required_Ok, bind_Ok by done.
  apply existsb_isna in Hb. unfold bad_rows in *. by rewrite Hb.
Qed.

Lemma validate_good df :
  missing df = [] → bad_rows (parse_dates to_datetime df) = 0%nat →
  validate to_datetime df = Ok (parse_dates to_datetime df).
Proof.
  intros Hm Hb. unfold validate. rewrite check_required_Ok, bind_Ok by done.
  destruct (existsb _ _) eqn:He; [|done].
  apply existsb_isna in He. unfold bad_rows in Hb. lia.
Qed.

End Dates.

End ValidateFacts.

(** ** Aligning a payload with the feature list *)

Module InferenceFacts.
Import Inference.

Lemma cell_None df c : cell df c = None ↔ c ∉ columns df.
Proof.
  unfold columns. induction df as [|[k v] df IH]; simpl.
  - split; [intros _; apply not_elem_of_nil|done].
  - rewrite not_elem_of_cons. destruct (decide (k = c)) as [->|Hne].
    + split; [done|]. by intros [? _].
    + rewrite IH. split; [by split|by intros [_ ?]].
Qed.

Lemma cell_Some_elem_of df c v : cell df c = Some v → (c, v) ∈ df.
Proof.
  induction df as [|[k w] df IH]; simpl; [done|].
  destruct (decide (k = c)) as [->|Hne].
  - intros [= ->]. left.
  - intros H. right. by apply IH.
Qed.

Lemma cell_app df df' c :
  cell (df ++ df') c =
    match cell df c with Some v => Some v | None => cell df' c end.
Proof.
  induction df as [|[k w] df IH]; simpl; [done|].
  by destruct (decide (k = c)).
Qed.

(** The cells a dictionary puts in the frame are its values. *)
Lemma cell_DataFrame (payload : gmap string value) c :
  cell (DataFrame payload) c = payload !! c.
Proof.
  unfold DataFrame. destruct (cell (map_to_list payload) c) as [v|] eqn:Hc.
  - apply cell_Some_elem_of in Hc. symmetry. by apply elem_of_map_to_list.
  - apply cell_None in Hc. destruct (payload !! c) as [v|] eqn:Hp; [|done].
    exfalso. apply Hc. unfold columns.
    apply elem_of_map_to_list in Hp. by apply (list_elem_of_fmap_2 fst) in Hp.
Qed.

Lemma cell_fill df c' c :
  cell (fill df c') c =
    match cell df c with
    | Some v => Some v
    | None => if decide (c' = c) then Some (VInt 0) else None
    end.
Proof.
  unfold fill. destruct (decide (c' ∈ columns df)) as [Hin|Hout].
  - destruct (cell df c) as [v|] eqn:Hc; [done|].
    apply cell_None in Hc. rewrite decide_False; [done|]. by intros ->.
  - rewrite cell_app. destruct (cell df c); [done|]. done.
Qed.

Lemma cell_foldl_fill cs df c :
  cell (foldl fill df cs) c =
    match cell df c with
    | Some v => Some v
    | None => if decide (c ∈ cs) then Some (VInt 0) else None
    end.
Proof.
  revert df. induction cs as [|c' cs IH]; intros df; cbn [foldl].
  - destruct (cell df c); [done|]. rewrite decide_False; [done|apply not_elem_of_nil].
  - rewrite IH, cell_fill. destruct (cell df c) as [v|]; [done|].
    destruct (decide (c' = c)) as [->|Hne].
    + rewrite decide_True; [done|left].
    + destruct (decide (c ∈ cs)) as [Hin|Hout].
      * rewrite decide_True; [done|by right].
      * rewrite decide_False; [done|]. rewrite not_elem_of_cons. by split.
Qed.

Lemma select_Ok df cols (f : string → value) :
  (∀ c, c ∈ cols → cell df c = Some (f c)) →
  select df cols = Ok ((λ c, (c, f c)) <$> cols).
Proof.
  induction cols as [|c cols IH]; intros Hc; simpl; [done|].
  rewrite (Hc c) by left. rewrite IH, bind_Ok; [done|].
  intros c' Hc'. apply Hc. by right.
Qed.

Lemma cell_tabulate (f : string → value) (cs : list string) c :
  c ∈ cs → cell ((λ c, (c, f c)) <$> cs) c = Some (f c).
Proof.
  induction cs as [|c' cs IH]; intros Hc; [by apply elem_of_nil in Hc|].
  rewrite fmap_cons. cbn [cell]. destruct (decide (c' = c)) as [->|Hne]; [done|].
  apply elem_of_cons in Hc as [->|Hc]; [done|]. by apply IH.
Qed.

(** The frame [_prep] returns, in closed form. *)
Lemma prep_closed_form (FEATURES : list string) (payload : gmap string value) :
  _prep FEATURES payload =
    Ok ((λ c, (c, default (VInt 0) (payload !! c))) <$> FEATURES).
Proof.
  unfold _prep. apply select_Ok. intros c Hc.
  rewrite cell_foldl_fill, cell_DataFrame.
  destruct (payload !! c); [done|]. by rewrite decide_True.
Qed.

(** Lower-casing leaves the accepted names as they are. *)
Lemma accepted_names_lower :
  lower <$> ["xgb"; "xgboost"; "logreg"; "logistic"]
    = ["xgb"; "xgboost"; "logreg"; "logistic"].
Proof. reflexivity. Qed.

End InferenceFacts.

(** ** The auto-fix block: which rule fired, and what it recorded *)

Module RepairCases.
Import App RepairFacts.

(** The three messages of the last rule's inner tests. *)
Definition metric_msg (k : string) : string :=
  k +:+ " set to 0 because sessions_7d = 0".

Definition zeroed (v : value) : value := if ne0 v then VFloat f0 else v.

Definition zero_note (k : string) (v : value) : list string :=
  if ne0 v then [metric_msg k] else [].

Lemma zero_metric_eq k p fx v :
  p !! k = Some v →
  zero_metric k (p, fx) = Ok (<[k := zeroed v]> p, fx ++ zero_note k v).
Proof.
  intros Hv. unfold zero_metric, zeroed, zero_note.
  rewrite (getitem_Some _ _ _ Hv), bind_Ok.
  destruct (ne0 v); cbv [mret result_ret]; [done|].
  by rewrite insert_id, app_nil_r.
Qed.

(** The last rule in closed form, when [sessions_7d == 0]. *)
Lemma rule3_zero p fx s t k m :
  p !! "sessions_7d" = Some s → eq0 s = true →
  p !! "avg_turns_per_session_7d" = Some t →
  p !! "tokens_per_session_7d" = Some k →
  p !! "model_switch_rate_7d" = Some m →
  rule3 (p, fx) =
    Ok (<["model_switch_rate_7d" := zeroed m]>
        (<["tokens_per_session_7d" := zeroed k]>
        (<["avg_turns_per_session_7d" := zeroed t]> p)),
        fx ++ zero_note "avg_turns_per_session_7d" t
           ++ zero_note "tokens_per_session_7d" k
           ++ zero_note "model_switch_rate_7d" m).
Proof.
  intros Hs He Ht Hk Hm. unfold rule3. cbn [fst].
  rewrite (getitem_Some _ _ _ Hs), bind_Ok, He.
  rewrite (zero_metric_eq _ _ _ t), bind_Ok by done.
  rewrite (zero_metric_eq _ _ _ k), bind_Ok by (by rewrite lookup_insert_ne).
  rewrite (zero_metric_eq _ _ _ m) by (by rewrite !lookup_insert_ne).
  by rewrite <- !app_assoc.
Qed.

Lemma rule3_skip p fx s :
  p !! "sessions_7d" = Some s → eq0 s = false → rule3 (p, fx) = Ok (p, fx).
Proof.
  intros Hs He. unfold rule3. cbn [fst].
  by rewrite (getitem_Some _ _ _ Hs), bind_Ok, He.
Qed.

(** The three ways the block can go. *)
Lemma repair_cases p p' fx :
  repair p = Ok (p', fx) →
  (∃ s a, p !! "sessions_7d" = Some s ∧ gt0 s = Ok true ∧
          p !! "active_days_7d" = Some a ∧ eq0 a = true ∧
          p' = <["active_days_7d" := VInt 1]> p ∧
          fx = ["active_days_7d set to 1 because sessions_7d > 0"]) ∨
  (∃ s a, p !! "sessions_7d" = Some s ∧ eq0 s = true ∧
          p !! "active_days_7d" = Some a ∧ gt0 a = Ok true ∧
          p' = <["sessions_7d" := a]> p ∧
          fx = ["sessions_7d set to active_days_7d because active_days_7d > 0"]) ∨
  (cond1 p = Ok false ∧ cond2 p = Ok false ∧ rule3 (p, []) = Ok (p', fx)).
Proof.
  intros (p1 & f1 & p2 & f2 & H1 & H2 & H3)%repair_inv.
  pose proof (rules12_settled _ _ _ _ _ _ H1 H2) as [C1 C2].
  apply rule1_inv in H1 as [(Hc1 & -> & ->)|(Hc1 & -> & ->)].
  - left. apply cond1_true in Hc1 as (s & a & Hs & Hgs & Ha & Hea).
    assert (cond2 (<["active_days_7d" := VInt 1]> p) = Ok false) as Hc2'.
    { rewrite (cond2_counts _ s (VInt 1)) by (by simplify_map_eq).
      cbn. by rewrite (gt0_true_eq0 s). }
    apply rule2_inv in H2 as [(a' & Hc2 & _)|(_ & -> & ->)]; [congruence|].
    rewrite (rule3_skip _ _ s) in H3;
      [|by rewrite lookup_insert_ne|by apply gt0_true_eq0].
    exists s, a. by simplify_eq.
  - apply rule2_inv in H2 as [(a' & Hc2 & Ha' & -> & ->)|(Hc2 & -> & ->)].
    + right. left. apply cond2_true in Hc2 as (s & a & Hs & Hes & Ha & Hga).
      simplify_eq.
      rewrite (rule3_skip _ _ a) in H3;
        [|by rewrite lookup_insert_eq|by apply gt0_true_eq0].
      exists s, a. by simplify_eq.
    + right. right. done.
Qed.

(** The block does not raise when the two counts are numbers and the three
    metrics are present. *)
Lemma repair_total_numeric p s a t k m bs ba :
  p !! "sessions_7d" = Some s → p !! "active_days_7d" = Some a →
  p !! "avg_turns_per_session_7d" = Some t →
  p !! "tokens_per_session_7d" = Some k →
  p !! "model_switch_rate_7d" = Some m →
  gt0 s = Ok bs → gt0 a = Ok ba →
  ∃ p' fx, repair p = Ok (p', fx).
Proof.
  intros Hs Ha Ht Hk Hm Gs Ga. unfold repair, rule1.
  rewrite (cond1_counts p s a Hs Ha), Gs, bind_Ok. cbv [mret result_ret].
  rewrite bind_Ok.
  destruct (bs && eq0 a) eqn:E1; rewrite bind_Ok.
  - apply andb_true_iff in E1 as [-> Hea].
    unfold rule2.
    rewrite (cond2_counts _ s (VInt 1)) by (by simplify_map_eq). cbn.
    rewrite (gt0_true_eq0 s Gs). cbn.
    rewrite (rule3_skip _ _ s);
      [eauto|by rewrite lookup_insert_ne|by apply gt0_true_eq0].
  - unfold rule2. rewrite (cond2_counts p s a Hs Ha), Ga, bind_Ok.
    cbv [mret result_ret]. rewrite bind_Ok.
    destruct (ba && eq0 s) eqn:E2.
    + apply andb_true_iff in E2 as [-> Hes].
      rewrite (getitem_Some _ _ _ Ha), !bind_Ok.
      rewrite (rule3_skip _ _ a);
        [eauto|by rewrite lookup_insert_eq|by apply gt0_true_eq0].
    + rewrite bind_Ok. destruct (eq0 s) eqn:Hes.
      * rewrite (rule3_zero p [] s t k m) by done. eauto.
      * rewrite (rule3_skip p [] s) by done. eauto.
Qed.

End RepairCases.

(** ** Scoring: the chosen model, the order of floats *)

Module PredictFacts.
Import Inference InferenceFacts.

Lemma lower_ascii_idemp c : lower_ascii (lower_ascii c) = lower_ascii c.
Proof. destruct c as [[] [] [] [] [] [] [] []]; reflexivity. Qed.

Lemma lower_idemp s : lower (lower s) = lower s.
Proof.
  induction s as [|c s IH]; [done|].
  cbn [lower]. by rewrite lower_ascii_idemp, IH.
Qed.

(** The frame handed to the model. *)
Definition prepared (FEATURES : list string) (payload : gmap string value) : frame1 :=
  (λ c, (c, default (VInt 0) (payload !! c))) <$> FEATURES.

(** The dictionary [predict] returns. *)
Definition output (prob threshold : spec_float) : gmap string value :=
  <["threshold" := VFloat threshold]>
  (<["churn_prediction" := VInt (Z.b2z (float_ge prob threshold))]>
  (<["churn_probability" := VFloat prob]> ∅)).

Section Models.
Variable FEATURES : list string.
Variable XGB LOGREG_PIPE : frame1 → result spec_float.

Lemma predict_xgb payload mc threshold :
  lower mc ∈ ["xgb"; "xgboost"] →
  predict FEATURES XGB LOGREG_PIPE payload mc threshold =
    (prob ← XGB (prepared FEATURES payload); mret (output prob threshold)).
Proof.
  intros Hmc. unfold predict. rewrite prep_closed_form, bind_Ok.
  by rewrite decide_True.
Qed.

Lemma predict_logreg payload mc threshold :
  lower mc ∈ ["logreg"; "logistic"] →
  predict FEATURES XGB LOGREG_PIPE payload mc threshold =
    (prob ← LOGREG_PIPE (prepared FEATURES payload); mret (output prob threshold)).
Proof.
  intros Hmc. unfold predict. rewrite prep_closed_form, bind_Ok.
  rewrite decide_False, decide_True; [done|done|].
  intros Hx. repeat (apply elem_of_cons in Hmc as [Hmc|Hmc]);
    [rewrite Hmc in Hx; revert Hx; compute_done..|by apply elem_of_nil in Hmc].
Qed.

Lemma predict_other payload mc threshold :
  lower mc ∉ ["xgb"; "xgboost"; "logreg"; "logistic"] →
  predict FEATURES XGB LOGREG_PIPE payload mc threshold =
    Raise (ValueError "model_choice must be 'xgb' or 'logreg'").
Proof.
  intros Hmc. unfold predict. rewrite prep_closed_form, bind_Ok.
  rewrite !not_elem_of_cons in Hmc. destruct Hmc as (? & ? & ? & ? & _).
  rewrite decide_False, decide_False; [done| |];
    rewrite !not_elem_of_cons; split_and!; (done || apply not_elem_of_nil).
Qed.

(** The result when the chosen model returns a probability. *)
Lemma predict_chosen payload mc threshold prob :
  (lower mc ∈ ["xgb"; "xgboost"] ∧
   XGB (prepared FEATURES payload) = Ok prob) ∨
  (lower mc ∈ ["logreg"; "logistic"] ∧
   LOGREG_PIPE (prepared FEATURES payload) = Ok prob) →
  predict FEATURES XGB LOGREG_PIPE payload mc threshold = Ok (output prob threshold).
Proof.
  intros [[Hmc Hprob]|[Hmc Hprob]].
  - by rewrite predict_xgb, Hprob.
  - by rewrite predict_logreg, Hprob.
Qed.

End Models.

(** [<=] on floats is transitive. *)
Lemma SFleb_trans x y z :
  SFleb x y = true → SFleb y z = true → SFleb x z = true.
Proof.
  unfold SFleb.
  destruct x as [sx|sx| |sx mx ex], y as [sy|sy| |sy my ey],
    z as [sz|sz| |sz mz ez]; simpl; try done;
    try (destruct sx; simpl; try done); try (destruct sy; simpl; try done);
    try (destruct sz; simpl; try done).
  all: change (Pos.compare_cont Eq) with Pos.compare.
  all: destruct (Z.compare_spec ex ey), (Z.compare_spec ey ez),
         (Z.compare_spec ex ez); try lia; try done; subst.
  all: destruct (Pos.compare_spec mx my), (Pos.compare_spec my mz),
         (Pos.compare_spec mx mz); simpl; try lia; try done.
Qed.

End PredictFacts.

(** ** The split in closed form; the cut points of small tables *)

Module SplitShape.
Import Processing SplitFacts Binary64Facts.

Section Shape.
Context {Row : Type} (obs_end_date : Row → Z) {sorter : SortValues obs_end_date}.

Lemma time_split_shape (table : list Row) :
  Z.of_nat (length table) < 2 ^ 63 →
  ∃ a b,
    cut (Z.of_nat (length table)) lit_0_70 = Ok a ∧
    cut (Z.of_nat (length table)) lit_0_85 = Ok b ∧
    0 <= a <= b ∧ b <= Z.of_nat (length table) ∧
    time_split obs_end_date table =
      Ok {| train_df := take (Z.to_nat a) (sort_values table);
            val_df := take (Z.to_nat (b - a)) (drop (Z.to_nat a) (sort_values table));
            test_df := drop (Z.to_nat b) (sort_values table) |}.
Proof.
  intros Hn.
  assert (length (sort_values table) = length table) as Hlen
    by (apply Permutation_length, sort_values_Permutation).
  destruct (cut_points (Z.of_nat (length table))) as (a & b & Ha & Hb & Hab & Hbn);
    [lia|].
  exists a, b. split_and!; [done|done|lia|lia|lia|].
  unfold time_split. rewrite Hlen, Ha, bind_Ok, Hb, bind_Ok.
  cbv [mret result_ret]. f_equal. f_equal.
  - apply iloc_head. lia.
  - apply iloc_mid; lia.
  - apply iloc_tail. lia.
Qed.

End Shape.

(** Which cut points coincide, by the number of rows. *)
Lemma cut_points_edges (n a b : Z) :
  0 <= n < 2 ^ 63 →
  cut n lit_0_70 = Ok a → cut n lit_0_85 = Ok b →
  (a = 0 ↔ n <= 1) ∧ (a = b ↔ n <= 3) ∧ (b = n ↔ n = 0).
Proof.
  intros Hn Ha Hb.
  destruct (Z_lt_le_dec n 7) as [Hsmall|Hbig].
  - assert (n = 0 ∨ n = 1 ∨ n = 2 ∨ n = 3 ∨ n = 4 ∨ n = 5 ∨ n = 6)
      as [->|[->|[->|[->|[->|[->| ->]]]]]] by lia;
      vm_compute in Ha, Hb; simplify_eq; lia.
  - destruct (cut_bounds n 6305039478318694) as (a' & Ha' & _ & Hau & Hal);
      [lia|done|].
    destruct (cut_bounds n 7656119366529843) as (b' & Hb' & _ & Hbu & Hbl);
      [lia|done|].
    unfold lit_0_70 in Ha. unfold lit_0_85 in Hb.
    rewrite Ha' in Ha. rewrite Hb' in Hb. simplify_eq.
    change (2 ^ 53) with 9007199254740992 in *.
    split_and!; split; lia.
Qed.

End SplitShape.

(** ** Reading several files; trailing slashes *)

Module LoadingFacts.
Import Processing Loading.

Section MapM.
Context {A B : Type}.
Implicit Types (f g : A → result B) (l : list A).

Lemma mapM_cons f x l :
  mapM f (x :: l) = (y ← f x; k ← mapM f l; mret (y :: k)).
Proof. reflexivity. Qed.

Lemma mapM_ext_in f g l :
  (∀ x, x ∈ l → f x = g x) → mapM f l = mapM g l.
Proof.
  induction l as [|x l IH]; intros Hfg; [done|].
  rewrite !mapM_cons, (Hfg x) by left.
  rewrite IH; [done|]. intros y Hy. apply Hfg. by right.
Qed.

(** The first exception raised is the result. *)
Lemma mapM_Raise f l e :
  mapM f l = Raise e → ∃ x, x ∈ l ∧ f x = Raise e.
Proof.
  induction l as [|x l IH]; [done|]. rewrite mapM_cons.
  destruct (f x) as [y|e'] eqn:Hx.
  - rewrite bind_Ok. destruct (mapM f l) as [k|e''] eqn:Hl; [done|].
    intros [= <-]. destruct IH as (x' & Hx' & Hfx'); [done|].
    exists x'. split; [by right|done].
  - intros [= <-]. exists x. split; [left|done].
Qed.

End MapM.

Lemma rev_app_append s t u :
  String.rev_app (s +:+ t) u = String.rev_app t (String.rev_app s u).
Proof.
  revert u. induction s as [|c s IH]; intros u; [done|].
  change (String c s +:+ t) with (String c (s +:+ t)). cbn [String.rev_app].
  apply IH.
Qed.

(** One more trailing slash changes nothing once they are stripped. *)
Lemma rstrip_slash_slash s : rstrip_slash (s +:+ "/") = rstrip_slash s.
Proof.
  unfold rstrip_slash, String.rev. by rewrite rev_app_append.
Qed.

End LoadingFacts.

(** ** The index array: exchanges, ranges, and the partition *)

Module ArrayFacts.
Import Npysort.

Local Open Scope nat_scope.

Implicit Types (a : list nat).

Lemma length_swap a i j : length (swap a i j) = length a.
Proof. unfold swap. by rewrite !length_insert. Qed.

Lemma swap_l a i j :
  i < length a → j < length a → swap a i j !!! i = a !!! j.
Proof.
  intros Hi Hj. unfold swap. destruct (decide (i = j)) as [->|Hne].
  - by rewrite list_lookup_total_insert_eq by (by rewrite length_insert).
  - rewrite list_lookup_total_insert_ne by done.
    by rewrite list_lookup_total_insert_eq.
Qed.

Lemma swap_r a i j :
  i < length a → j < length a → swap a i j !!! j = a !!! i.
Proof.
  intros Hi Hj. unfold swap.
  by rewrite list_lookup_total_insert_eq by (by rewrite length_insert).
Qed.

Lemma swap_other a i j k : k ≠ i → k ≠ j → swap a i j !!! k = a !!! k.
Proof.
  intros Hi Hj. unfold swap. by rewrite !list_lookup_total_insert_ne.
Qed.

(** Writing over an entry replaces it in the bag of entries. *)
Lemma insert_Permutation a i x :
  i < length a → <[i := x]> a ≡ₚ x :: delete i a.
Proof.
  revert i. induction a as [|y a IH]; intros [|i] Hi; simpl in *; try lia.
  - done.
  - rewrite (IH i) by lia. apply perm_swap.
Qed.

Lemma lookup_Permutation a i :
  i < length a → a ≡ₚ a !!! i :: delete i a.
Proof.
  intros Hi. apply delete_Permutation. by apply list_lookup_lookup_total_lt.
Qed.

(** Filling a hole at [j] with what was at [i], the hole moving to [i]. *)
Lemma move_Permutation a i j x :
  i < length a → j < length a →
  <[i := x]> (<[j := a !!! i]> a) ≡ₚ <[j := x]> a.
Proof.
  intros Hi Hj. destruct (decide (i = j)) as [->|Hne].
  - by rewrite list_insert_insert_eq.
  - set (b := <[j := a !!! i]> a).
    assert (length b = length a) as Hb by (unfold b; by rewrite length_insert).
    assert (b !!! i = a !!! i) as Hbi
      by (unfold b; by rewrite list_lookup_total_insert_ne).
    rewrite (insert_Permutation b i) by lia.
    rewrite (insert_Permutation a j) by lia.
    assert (b ≡ₚ a !!! i :: delete i b) as H1
      by (rewrite <- Hbi; apply lookup_Permutation; lia).
    assert (b ≡ₚ a !!! i :: delete j a) as H2
      by (unfold b; by apply insert_Permutation).
    rewrite H1 in H2. apply Permutation_cons_inv in H2. by rewrite H2.
Qed.

Lemma swap_Permutation a i j :
  i < length a → j < length a → swap a i j ≡ₚ a.
Proof.
  intros Hi Hj. unfold swap. rewrite (move_Permutation a j i) by done.
  rewrite list_insert_id; [done|]. by apply list_lookup_lookup_total_lt.
Qed.

(** [within l r a a']: [a'] is [a] with the entries of the positions [l]
    to [r] moved among those positions (some possibly repeated, as when a
    loop holds one entry in a variable). *)
Definition within (l r : nat) a a' : Prop :=
  length a' = length a ∧
  (∀ k, k < l ∨ r < k → a' !!! k = a !!! k) ∧
  (∀ k, l ≤ k ≤ r → ∃ k', l ≤ k' ≤ r ∧ a' !!! k = a !!! k').

Lemma within_refl l r a : within l r a a.
Proof. split_and!; [done|done|]. intros k Hk. by exists k. Qed.

Lemma within_trans l r a1 a2 a3 :
  within l r a1 a2 → within l r a2 a3 → within l r a1 a3.
Proof.
  intros (L1 & O1 & I1) (L2 & O2 & I2). split_and!.
  - congruence.
  - intros k Hk. rewrite O2, O1; done.
  - intros k Hk. destruct (I2 k Hk) as (k' & Hk' & ->).
    destruct (I1 k' Hk') as (k'' & Hk'' & ->). by exists k''.
Qed.

Lemma within_mono l r l' r' a a' :
  l' ≤ l → r ≤ r' → within l r a a' → within l' r' a a'.
Proof.
  intros Hl Hr (L & O & I). split_and!; [done|intros k Hk; apply O; lia|].
  intros k Hk. destruct (decide (l ≤ k ≤ r)) as [Hin|Hout].
  - destruct (I k Hin) as (k' & Hk' & ->). exists k'. split; [lia|done].
  - exists k. split; [done|]. apply O. lia.
Qed.

Lemma within_insert l r a i j :
  l ≤ i ≤ r → l ≤ j ≤ r → i < length a → within l r a (<[i := a !!! j]> a).
Proof.
  intros Hi Hj Hlen. split_and!.
  - by rewrite length_insert.
  - intros k Hk. rewrite list_lookup_total_insert_ne; [done|lia].
  - intros k Hk. destruct (decide (k = i)) as [->|Hne].
    + exists j. by rewrite list_lookup_total_insert_eq.
    + exists k. by rewrite list_lookup_total_insert_ne.
Qed.

Lemma within_swap l r a i j :
  l ≤ i ≤ r → l ≤ j ≤ r → i < length a → j < length a →
  within l r a (swap a i j).
Proof.
  intros Hi Hj Hli Hlj. split_and!.
  - apply length_swap.
  - intros k Hk. apply swap_other; lia.
  - intros k Hk. destruct (decide (k = i)) as [->|Hni].
    + exists j. by rewrite swap_l.
    + destruct (decide (k = j)) as [->|Hnj].
      * exists i. by rewrite swap_r.
      * exists k. by rewrite swap_other.
Qed.

Section Partition.

Variable v : nat → Z.

(** One conditional exchange. *)
Lemma cswap_spec a i j :
  i < length a → j < length a → i ≠ j →
  let a' := if (v (a !!! i) <? v (a !!! j))%Z then swap a i j else a in
  (v (a' !!! j) ≤ v (a' !!! i))%Z ∧
  length a' = length a ∧ a' ≡ₚ a ∧
  (∀ k, k ≠ i → k ≠ j → a' !!! k = a !!! k) ∧
  ((a' !!! i = a !!! i ∧ a' !!! j = a !!! j) ∨
   (a' !!! i = a !!! j ∧ a' !!! j = a !!! i)).
Proof.
  intros Hi Hj Hne. destruct (Z.ltb_spec (v (a !!! i)) (v (a !!! j))); cbn zeta.
  - rewrite swap_l, swap_r by done. split_and!.
    + lia.
    + apply length_swap.
    + by apply swap_Permutation.
    + intros k ??. by apply swap_other.
    + by right.
  - split_and!; [lia|done|done|done|by left].
Qed.

Lemma within_positions l r a a' :
  length a' = length a →
  (∀ k, k < l ∨ r < k → a' !!! k = a !!! k) →
  (∀ k, l ≤ k ≤ r → ∃ k', l ≤ k' ≤ r ∧ a' !!! k = a !!! k') →
  within l r a a'.
Proof. by intros; split_and!. Qed.

Lemma median3_spec a pl pm pr :
  pl < pm → pm < pr → pr < length a →
  let a' := median3 v a pl pm pr in
  within pl pr a a' ∧ a' ≡ₚ a ∧
  (v (a' !!! pl) ≤ v (a' !!! pm))%Z ∧ (v (a' !!! pm) ≤ v (a' !!! pr))%Z.
Proof.
  intros H1 H2 H3. unfold median3.
  destruct (cswap_spec a pm pl) as (O1 & L1 & P1 & K1 & S1); [lia..|].
  set (a1 := if (v (a !!! pm) <? v (a !!! pl))%Z then swap a pm pl else a) in *.
  destruct (cswap_spec a1 pr pm) as (O2 & L2 & P2 & K2 & S2); [lia..|].
  set (a2 := if (v (a1 !!! pr) <? v (a1 !!! pm))%Z then swap a1 pr pm else a1) in *.
  destruct (cswap_spec a2 pm pl) as (O3 & L3 & P3 & K3 & S3); [lia..|].
  set (a3 := if (v (a2 !!! pm) <? v (a2 !!! pl))%Z then swap a2 pm pl else a2) in *.
  cbn zeta.
  assert (a2 !!! pl = a1 !!! pl) as E2 by (apply K2; lia).
  assert (a3 !!! pr = a2 !!! pr) as E3 by (apply K3; lia).
  assert (a1 !!! pr = a !!! pr) as E1 by (apply K1; lia).
  split_and!.
  - apply within_positions.
    + congruence.
    + intros k Hk. rewrite K3, K2, K1; (done || lia).
    + intros k Hk.
      assert (∀ k, ∃ k', (k = pl ∨ k = pm ∨ k = pr → pl ≤ k' ≤ pr) ∧
                         (k ≠ pl → k ≠ pm → k ≠ pr → k' = k) ∧
                         a3 !!! k = a !!! k') as Hall.
      { clear k Hk. intros k.
        destruct (decide (k = pl)) as [->|?]; [|destruct (decide (k = pm)) as [->|?];
          [|destruct (decide (k = pr)) as [->|?]]].
        - destruct S3 as [[_ ->]|[_ ->]], S2 as [[_ E]|[_ E]], S1 as [[? ?]|[? ?]];
            rewrite ?E, ?E2, ?E1; eexists; (split; [|split; [|first [eassumption|reflexivity]]]); lia.
        - destruct S3 as [[-> _]|[-> _]], S2 as [[_ E]|[_ E]], S1 as [[? ?]|[? ?]];
            rewrite ?E, ?E2, ?E1; eexists; (split; [|split; [|first [eassumption|reflexivity]]]); lia.
        - rewrite E3. destruct S2 as [[-> _]|[-> _]], S1 as [[? ?]|[? ?]];
            rewrite ?E1; eexists; (split; [|split; [|first [eassumption|reflexivity]]]); lia.
        - exists k. split; [lia|]. split; [done|]. rewrite K3, K2, K1; done. }
      destruct (Hall k) as (k' & Hs & Ho & ->). exists k'. split; [|done].
      destruct (decide (k = pl)); [apply Hs; by left|].
      destruct (decide (k = pm)); [apply Hs; right; by left|].
      destruct (decide (k = pr)); [apply Hs; right; by right|].
      rewrite Ho; done.
  - by rewrite P3, P2, P1.
  - done.
  - rewrite E3.
    destruct S3 as [[-> _]|[-> _]]; [done|]. rewrite E2.
    destruct S2 as [[Ea Eb]|[Ea Eb]], S1 as [[Ec Ed]|[Ec Ed]];
      rewrite ?Ea, ?Eb, ?Ec, ?Ed, ?E1 in *; lia.
Qed.

Lemma scan_up_spec a vp n pi pj :
  pi < pj → pj - pi ≤ n → (vp ≤ v (a !!! pj))%Z →
  let r := scan_up v a vp n pi in
  pi < r ≤ pj ∧ (vp ≤ v (a !!! r))%Z ∧ ∀ k, pi < k < r → (v (a !!! k) < vp)%Z.
Proof.
  revert pi. induction n as [|n IH]; intros pi Hlt Hn Hs; [lia|].
  cbn [scan_up]. destruct (Z.ltb_spec (v (a !!! S pi)) vp) as [Hless|Hge].
  - assert (S pi ≠ pj) by (intros <-; lia).
    destruct (IH (S pi)) as (R1 & R2 & R3); [lia|lia|done|].
    split_and!; [lia|lia|done|].
    intros k Hk. destruct (decide (k = S pi)) as [->|?]; [done|]. apply R3. lia.
  - split_and!; [lia|lia|done|]. intros k Hk. lia.
Qed.

Lemma scan_down_spec a vp pj lo :
  lo < pj → (v (a !!! lo) ≤ vp)%Z →
  let r := scan_down v a vp pj in
  lo ≤ r < pj ∧ (v (a !!! r) ≤ vp)%Z ∧ ∀ k, r < k < pj → (vp < v (a !!! k))%Z.
Proof.
  induction pj as [|pk IH]; intros Hlt Hs; [lia|].
  cbn [scan_down]. destruct (Z.ltb_spec vp (v (a !!! pk))) as [Hless|Hge].
  - assert (pk ≠ lo) by (intros ->; lia).
    destruct IH as (R1 & R2 & R3); [lia|done|].
    split_and!; [lia|lia|done|].
    intros k Hk. destruct (decide (k = pk)) as [->|?]; [done|]. apply R3. lia.
  - split_and!; [lia|lia|done|]. intros k Hk. lia.
Qed.

(** The loop of the partition: entries up to [pi] are at most the pivot,
    entries from [pj] on are at least the pivot, and the pivot waits at
    [pr - 1]. *)
Lemma hoare_spec a0 pl pr vp n a pi pj :
  pl ≤ pi → pi < pj → pj < pr → pr < length a →
  within pl pr a0 a → a ≡ₚ a0 →
  (∀ k, pl ≤ k ≤ pi → (v (a !!! k) ≤ vp)%Z) →
  (∀ k, pj ≤ k ≤ pr → (vp ≤ v (a !!! k))%Z) →
  v (a !!! (pr - 1)) = vp →
  pj - pi ≤ n →
  ∃ a' pi',
    hoare v a vp n pi pj = (a', pi') ∧
    pl < pi' < pr ∧ within pl pr a0 a' ∧ a' ≡ₚ a0 ∧
    (∀ k, pl ≤ k < pi' → (v (a' !!! k) ≤ vp)%Z) ∧
    (∀ k, pi' ≤ k ≤ pr → (vp ≤ v (a' !!! k))%Z) ∧
    v (a' !!! (pr - 1)) = vp.
Proof.
  revert a pi pj.
  induction n as [|n IH]; intros a pi pj H1 H2 H3 H4 Hw Hp Hlo Hhi Hpiv Hn; [lia|].
  cbn [hoare].
  destruct (scan_up_spec a vp (length a) pi pj) as (U1 & U2 & U3);
    [done|lia|apply Hhi; lia|].
  set (pi' := scan_up v a vp (length a) pi) in *.
  destruct (scan_down_spec a vp pj pi) as (D1 & D2 & D3); [done|apply Hlo; lia|].
  set (pj' := scan_down v a vp pj) in *.
  destruct (Nat.leb_spec pj' pi') as [Hbreak|Hmore].
  - exists a, pi'. split_and!; [done|lia|lia|done|done| | |done].
    + intros k Hk. destruct (decide (k ≤ pi)); [apply Hlo; lia|].
      apply Z.lt_le_incl, U3. lia.
    + intros k Hk. destruct (decide (k = pi')) as [->|?]; [done|].
      destruct (decide (pj ≤ k)); [apply Hhi; lia|].
      apply Z.lt_le_incl, D3. lia.
  - apply (IH (swap a pi' pj')).
    + lia.
    + lia.
    + lia.
    + by rewrite length_swap.
    + eapply within_trans; [done|]. apply within_swap; lia.
    + rewrite swap_Permutation; [done|lia|lia].
    + intros k Hk. destruct (decide (k = pi')) as [->|?].
      * rewrite swap_l by lia. done.
      * rewrite swap_other by lia.
        destruct (decide (k ≤ pi)); [apply Hlo; lia|].
        apply Z.lt_le_incl, U3. lia.
    + intros k Hk. destruct (decide (k = pj')) as [->|?].
      * rewrite swap_r by lia. done.
      * rewrite swap_other by lia.
        destruct (decide (pj ≤ k)); [apply Hhi; lia|].
        apply Z.lt_le_incl, D3. lia.
    + rewrite swap_other by lia. done.
    + lia.
Qed.

(** One partition of a range of at least three entries: the pivot ends at
    [pi], strictly inside the range, after entries that are at most the
    pivot and before entries that are at least the pivot. *)
Lemma partition_spec a pl pr :
  pl + 2 ≤ pr → pr < length a →
  ∃ a' pi,
    partition v a pl pr = (a', pi) ∧
    pl < pi < pr ∧ within pl pr a a' ∧ a' ≡ₚ a ∧
    (∀ k, pl ≤ k < pi → (v (a' !!! k) ≤ v (a' !!! pi))%Z) ∧
    (∀ k, pi < k ≤ pr → (v (a' !!! pi) ≤ v (a' !!! k))%Z).
Proof.
  intros Hsize Hlen. unfold partition.
  set (pm := pl + (pr - pl) / 2).
  assert (pl < pm < pr) as Hpm.
  { unfold pm. pose proof (Nat.div_mod_eq (pr - pl) 2).
    pose proof (Nat.mod_upper_bound (pr - pl) 2). lia. }
  destruct (median3_spec a pl pm pr) as (W1 & P1 & M1 & M2); [lia..|].
  set (a1 := median3 v a pl pm pr) in *.
  assert (length a1 = length a) as L1 by apply W1.
  set (vp := v (a1 !!! pm)).
  set (a2 := swap a1 pm (pr - 1)).
  assert (length a2 = length a) as L2 by (unfold a2; by rewrite length_swap).
  destruct (hoare_spec a pl pr vp (length a2) a2 pl (pr - 1))
    as (a3 & pi & -> & Hpi & W3 & P3 & Hlo & Hhi & Hpiv).
  - done.
  - lia.
  - lia.
  - lia.
  - eapply within_trans; [done|]. apply within_swap; lia.
  - unfold a2. rewrite swap_Permutation; [done|lia|lia].
  - intros k Hk. assert (k = pl) as -> by lia.
    unfold a2. rewrite swap_other by lia. done.
  - intros k Hk. unfold a2. destruct (decide (k = pr)) as [->|?].
    + rewrite swap_other by lia. done.
    + assert (k = pr - 1) as -> by lia. rewrite swap_r by lia. done.
  - unfold a2. rewrite swap_r by lia. done.
  - lia.
  - assert (length a3 = length a) as L3 by apply W3.
    exists (swap a3 pi (pr - 1)), pi.
    assert (swap a3 pi (pr - 1) !!! pi = a3 !!! (pr - 1)) as Epi
      by (apply swap_l; lia).
    split_and!; [done|lia|lia| | | |].
    + eapply within_trans; [done|]. apply within_swap; lia.
    + rewrite swap_Permutation; [done|lia|lia].
    + intros k Hk. rewrite Epi, Hpiv, swap_other by lia. apply Hlo. lia.
    + intros k Hk. rewrite Epi, Hpiv.
      destruct (decide (k = pr - 1)) as [->|?].
      * rewrite swap_r by lia. apply Hhi. lia.
      * rewrite swap_other by lia. apply Hhi. lia.
Qed.

End Partition.

End ArrayFacts.

(** ** Insertion into a sorted range *)

Module InsertionFacts.
Import Npysort ArrayFacts.

Local Open Scope nat_scope.

Section Insertion.

Variable v : nat → Z.

(** The order the range is sorted in: any transitive relation on entries
    that holds between an entry of smaller key and one of larger key. *)
Variable R : relation nat.
Context `{!Transitive R}.
Hypothesis R_less : ∀ x y, (v x < v y)%Z → R x y.

Implicit Types (a : list nat).

(** The inner loop, with the entry [vi] held aside and its place at [pj]
    free: the entries after [pj] have been moved up by one and come after
    [vi]. *)
Lemma shift_spec a pl pi vi pj :
  pl ≤ pj → pj ≤ pi → pi < length a →
  (∀ j k, pl ≤ j → j < k → k < pj → R (a !!! j) (a !!! k)) →
  (∀ j k, pj < j → j < k → k ≤ pi → R (a !!! j) (a !!! k)) →
  (∀ j k, pl ≤ j → j < pj → pj < k → k ≤ pi → R (a !!! j) (a !!! k)) →
  (∀ k, pj < k → k ≤ pi → R vi (a !!! k)) →
  (∀ k, pl ≤ k → k < pj → ¬ (v vi < v (a !!! k))%Z → R (a !!! k) vi) →
  let a' := shift v a pl vi (v vi) pj in
  length a' = length a ∧ a' ≡ₚ <[pj := vi]> a ∧
  (∀ k, k < pl ∨ pi < k → a' !!! k = a !!! k) ∧
  (∀ k, pl ≤ k ≤ pi →
     a' !!! k = vi ∨ ∃ k', pl ≤ k' ≤ pi ∧ a' !!! k = a !!! k') ∧
  (∀ j k, pl ≤ j → j < k → k ≤ pi → R (a' !!! j) (a' !!! k)).
Proof.
  revert a. induction pj as [|pk IH]; intros a Hl Hp Hlen S1 S2 S3 S4 Stop.
  - (* the beginning of the array *)
    cbn [shift]. split_and!.
    + by rewrite length_insert.
    + done.
    + intros k Hk. rewrite list_lookup_total_insert_ne; [done|lia].
    + intros k Hk. destruct (decide (k = 0)) as [->|?].
      * left. by rewrite list_lookup_total_insert_eq by lia.
      * right. exists k. rewrite list_lookup_total_insert_ne by lia. done.
    + intros j k Hj Hjk Hk. rewrite (list_lookup_total_insert_ne _ _ k) by lia.
      destruct (decide (j = 0)) as [->|?].
      * rewrite list_lookup_total_insert_eq by lia. apply S4; lia.
      * rewrite list_lookup_total_insert_ne by lia. apply S2; lia.
  - cbn [shift].
    destruct ((pl <? S pk) && (v vi <? v (a !!! pk))%Z) eqn:Htest.
    + (* one more entry moves up *)
      apply andb_true_iff in Htest as [Hpl Hless].
      apply Nat.ltb_lt in Hpl. apply Z.ltb_lt in Hless.
      set (a2 := <[S pk := a !!! pk]> a).
      assert (length a2 = length a) as L2 by (unfold a2; by rewrite length_insert).
      assert (∀ k, k ≠ S pk → a2 !!! k = a !!! k) as E2
        by (intros k Hk; unfold a2; by rewrite list_lookup_total_insert_ne).
      assert (a2 !!! S pk = a !!! pk) as E2'
        by (unfold a2; by rewrite list_lookup_total_insert_eq by lia).
      destruct (IH a2) as (L & P & O & I & Srt); [lia|lia|lia|..].
      * intros j k ???. rewrite !E2 by lia. apply S1; lia.
      * intros j k ???. rewrite (E2 k) by lia.
        destruct (decide (j = S pk)) as [->|?].
        -- rewrite E2'. apply S3; lia.
        -- rewrite E2 by lia. apply S2; lia.
      * intros j k ????. rewrite (E2 j) by lia.
        destruct (decide (k = S pk)) as [->|?].
        -- rewrite E2'. apply S1; lia.
        -- rewrite E2 by lia. apply S3; lia.
      * intros k ??. destruct (decide (k = S pk)) as [->|?].
        -- rewrite E2'. by apply R_less.
        -- rewrite E2 by lia. apply S4; lia.
      * intros k ??. rewrite E2 by lia. apply Stop; lia.
      * split_and!.
        -- lia.
        -- rewrite P. unfold a2. apply move_Permutation; lia.
        -- intros k Hk. rewrite O, E2 by lia. done.
        -- intros k Hk. destruct (I k Hk) as [?|(k' & Hk' & ->)]; [by left|].
           right. destruct (decide (k' = S pk)) as [->|?].
           ++ exists pk. rewrite E2'. split; (done || lia).
           ++ exists k'. rewrite E2 by lia. split; (done || lia).
        -- done.
    + (* the place of [vi] *)
      assert (pl = S pk ∨ ¬ (v vi < v (a !!! pk))%Z) as Hstop.
      { apply andb_false_iff in Htest as [H|H].
        - apply Nat.ltb_ge in H. left. lia.
        - apply Z.ltb_ge in H. right. lia. }
      assert (∀ k, pl ≤ k → k < S pk → R (a !!! k) vi) as Hbefore.
      { intros k Hk1 Hk2. destruct Hstop as [->|Hge]; [lia|].
        destruct (decide (k = pk)) as [->|?]; [apply Stop; (done || lia)|].
        trans (a !!! pk); [apply S1; lia|apply Stop; (done || lia)]. }
      split_and!.
      * by rewrite length_insert.
      * done.
      * intros k Hk. rewrite list_lookup_total_insert_ne; [done|lia].
      * intros k Hk. destruct (decide (k = S pk)) as [->|?].
        -- left. by rewrite list_lookup_total_insert_eq by lia.
        -- right. exists k. rewrite list_lookup_total_insert_ne by lia. done.
      * intros j k Hj Hjk Hk.
        destruct (decide (j = S pk)) as [->|?]; [|destruct (decide (k = S pk)) as [->|?]].
        -- rewrite list_lookup_total_insert_eq by lia.
           rewrite list_lookup_total_insert_ne by lia. apply S4; lia.
        -- rewrite list_lookup_total_insert_eq by lia.
           rewrite list_lookup_total_insert_ne by lia. apply Hbefore; lia.
        -- rewrite !list_lookup_total_insert_ne by lia.
           destruct (decide (k < S pk)); [apply S1; lia|].
           destruct (decide (j < S pk)); [apply S3; lia|apply S2; lia].
Qed.

(** The outer loop: the entries before [pi] are sorted and are the first
    entries of the range, in another order. *)
Lemma insertion_spec a0 pl pr n a pi :
  (∀ j k, pl ≤ j → j < k → k ≤ pr →
     ¬ (v (a0 !!! k) < v (a0 !!! j))%Z → R (a0 !!! j) (a0 !!! k)) →
  pl < pi → pi + n = S pr → pr < length a →
  length a = length a0 → a ≡ₚ a0 →
  (∀ k, k < pl ∨ pi ≤ k → a !!! k = a0 !!! k) →
  (∀ k, pl ≤ k < pi → ∃ k', pl ≤ k' < pi ∧ a !!! k = a0 !!! k') →
  (∀ j k, pl ≤ j → j < k → k < pi → R (a !!! j) (a !!! k)) →
  let a' := insertion v a pl pi n in
  within pl pr a0 a' ∧ a' ≡ₚ a0 ∧
  (∀ j k, pl ≤ j → j < k → k ≤ pr → R (a' !!! j) (a' !!! k)).
Proof.
  intros HR0. revert a pi.
  induction n as [|n IH]; intros a pi Hpi Hn Hlen L P O I Srt; cbn [insertion].
  - split_and!; [|done|intros j k ???; apply Srt; lia].
    split_and!; [done|intros k Hk; apply O; lia|].
    intros k Hk. destruct (I k) as (k' & Hk' & ->); [lia|]. exists k'.
    split; [lia|done].
  - set (vi := a !!! pi).
    assert (vi = a0 !!! pi) as Hvi by (apply O; lia).
    destruct (shift_spec a pl pi vi pi) as (L1 & P1 & O1 & I1 & S1);
      [lia|lia|lia|..].
    + intros j k ???. by apply Srt.
    + intros j k ???. lia.
    + intros j k ????. lia.
    + intros k ??. lia.
    + intros k Hk1 Hk2 Hge. destruct (I k) as (k' & Hk' & E); [lia|].
      rewrite E in Hge |- *. rewrite Hvi in Hge |- *. apply HR0; (done || lia).
    + apply IH; [lia|lia|lia|lia| | | |].
      * rewrite P1, list_insert_id; [done|].
        by apply list_lookup_lookup_total_lt; lia.
      * intros k Hk. rewrite O1 by lia. apply O. lia.
      * intros k Hk. destruct (I1 k) as [->|(k' & Hk' & ->)]; [lia| |].
        -- exists pi. split; [lia|done].
        -- destruct (decide (k' = pi)) as [->|?].
           ++ exists pi. split; [lia|]. apply O. lia.
           ++ destruct (I k') as (k'' & Hk'' & ->); [lia|].
              exists k''. split; [lia|done].
      * intros j k ???. apply S1; lia.
Qed.

(** The insertion sort of a range: it is sorted with respect to [R] as
    soon as [R] holds between two entries of the range that are not out of
    order by their keys. *)
Lemma insertion_sort_spec a pl pr :
  pl ≤ pr → pr < length a →
  (∀ j k, pl ≤ j → j < k → k ≤ pr →
     ¬ (v (a !!! k) < v (a !!! j))%Z → R (a !!! j) (a !!! k)) →
  let a' := insertion_sort v a pl pr in
  within pl pr a a' ∧ a' ≡ₚ a ∧
  (∀ j k, pl ≤ j → j < k → k ≤ pr → R (a' !!! j) (a' !!! k)).
Proof.
  intros Hle Hlen HR0. unfold insertion_sort.
  apply insertion_spec; [done|lia|lia|done|done|done|done| |].
  - intros k Hk. exists k. split; [lia|done].
  - intros j k ???. lia.
Qed.

End Insertion.

(** The order of the keys alone. *)
Definition by_index_key (v : nat → Z) : relation nat := λ x y, (v x ≤ v y)%Z.

#[export] Instance by_index_key_trans v : Transitive (by_index_key v).
Proof. intros x y z. unfold by_index_key. lia. Qed.

(** Sorted by the keys. *)
Lemma insertion_sort_sorted (v : nat → Z) a pl pr :
  pl ≤ pr → pr < length a →
  let a' := insertion_sort v a pl pr in
  within pl pr a a' ∧ a' ≡ₚ a ∧
  (∀ j k, pl ≤ j → j < k → k ≤ pr → (v (a' !!! j) ≤ v (a' !!! k))%Z).
Proof.
  intros Hle Hlen.
  apply (insertion_sort_spec v (by_index_key v)); [|done|done|].
  - intros x y ?. unfold by_index_key. lia.
  - intros j k ????. unfold by_index_key. lia.
Qed.

(** The order of keys, ties broken by the entries themselves. *)
Definition key_then_index (v : nat → Z) : relation nat :=
  λ x y, (v x < v y)%Z ∨ (v x = v y ∧ x ≤ y).

#[export] Instance key_then_index_trans v : Transitive (key_then_index v).
Proof. intros x y z. unfold key_then_index. lia. Qed.

(** On entries that come in increasing order, the insertion sort breaks
    the ties of keys by the entries: it is stable. *)
Lemma insertion_sort_stable (v : nat → Z) a pl pr :
  pl ≤ pr → pr < length a →
  (∀ j k, pl ≤ j → j < k → k ≤ pr → a !!! j ≤ a !!! k) →
  let a' := insertion_sort v a pl pr in
  within pl pr a a' ∧ a' ≡ₚ a ∧
  (∀ j k, pl ≤ j → j < k → k ≤ pr → key_then_index v (a' !!! j) (a' !!! k)).
Proof.
  intros Hle Hlen Hinc.
  apply (insertion_sort_spec v (key_then_index v)); [|done|done|].
  - intros x y ?. by left.
  - intros j k ??? Hge. pose proof (Hinc j k). unfold key_then_index. lia.
Qed.

End InsertionFacts.

(** ** The heap sort of a range *)

Module HeapFacts.
Import Npysort ArrayFacts.

Local Open Scope nat_scope.

Section Heap.

Variable v : nat → Z.

Implicit Types (a : list nat).

Lemma length_heap_set a base k x : length (heap_set a base k x) = length a.
Proof. unfold heap_set. by rewrite length_insert. Qed.

Lemma heap_get_set_eq a base k x :
  1 ≤ k → base + k ≤ length a → heap_get (heap_set a base k x) base k = x.
Proof.
  intros Hk Hlen. unfold heap_get, heap_set.
  by rewrite list_lookup_total_insert_eq by lia.
Qed.

Lemma heap_get_set_ne a base i k x :
  1 ≤ i → 1 ≤ k → i ≠ k →
  heap_get (heap_set a base i x) base k = heap_get a base k.
Proof.
  intros Hi Hk Hne. unfold heap_get, heap_set.
  by rewrite list_lookup_total_insert_ne by lia.
Qed.

(** The nodes from [lo] on dominate their children, in the heap of the
    first [n] entries of the range. *)
Definition heap_from (base n lo : nat) a : Prop :=
  ∀ k c, lo ≤ k → c = 2 * k ∨ c = 2 * k + 1 → c ≤ n →
         (v (heap_get a base c) ≤ v (heap_get a base k))%Z.

(** Sifting [tmp] down from the free node [i]: the other nodes dominate
    their children, and the parent of [i] dominates [tmp] and the children
    of [i]. *)
Lemma sift_spec base n lo tmp fuel a i :
  1 ≤ lo → lo ≤ i → i ≤ n → base + n ≤ length a → n - i < fuel →
  (∀ k c, lo ≤ k → k ≠ i → c = 2 * k ∨ c = 2 * k + 1 → c ≤ n →
          (v (heap_get a base c) ≤ v (heap_get a base k))%Z) →
  (∀ k, lo ≤ k → i = 2 * k ∨ i = 2 * k + 1 →
        (v tmp ≤ v (heap_get a base k))%Z ∧
        ∀ c, c = 2 * i ∨ c = 2 * i + 1 → c ≤ n →
             (v (heap_get a base c) ≤ v (heap_get a base k))%Z) →
  let a' := sift v a base n tmp fuel i (2 * i) in
  length a' = length a ∧ a' ≡ₚ heap_set a base i tmp ∧
  (∀ p, p < base + i - 1 ∨ base + n - 1 < p → a' !!! p = a !!! p) ∧
  (∀ k, i ≤ k ≤ n →
     heap_get a' base k = tmp ∨
     ∃ k', i ≤ k' ≤ n ∧ heap_get a' base k = heap_get a base k') ∧
  heap_from base n lo a'.
Proof.
  intros Hlo. revert a i.
  induction fuel as [|fuel IH]; intros a i Hi Hin Hlen Hfuel Hothers Hparent;
    [lia|].
  assert (∀ x,
    (∀ c, c = 2 * i ∨ c = 2 * i + 1 → c ≤ n →
          (v (heap_get a base c) ≤ v x)%Z) →
    (∀ k, lo ≤ k → i = 2 * k ∨ i = 2 * k + 1 → (v x ≤ v (heap_get a base k))%Z) →
    let a' := heap_set a base i x in
    length a' = length a ∧ a' ≡ₚ heap_set a base i x ∧
    (∀ p, p < base + i - 1 ∨ base + n - 1 < p → a' !!! p = a !!! p) ∧
    (∀ k, i ≤ k ≤ n →
       heap_get a' base k = x ∨
       ∃ k', i ≤ k' ≤ n ∧ heap_get a' base k = heap_get a base k') ∧
    heap_from base n lo a') as Hput.
  { intros x Hch Hpar. split_and!.
    - apply length_heap_set.
    - done.
    - intros p Hp. unfold heap_set. rewrite list_lookup_total_insert_ne; [done|lia].
    - intros k Hk. destruct (decide (k = i)) as [->|?].
      + left. apply heap_get_set_eq; lia.
      + right. exists k. split; [done|]. apply heap_get_set_ne; lia.
    - intros k c Hk Hc Hcn. destruct (decide (k = i)) as [->|?].
      + rewrite heap_get_set_eq by lia. rewrite heap_get_set_ne by lia.
        by apply Hch.
      + rewrite (heap_get_set_ne _ _ _ k) by lia.
        destruct (decide (c = i)) as [->|?].
        * rewrite heap_get_set_eq by lia. by apply Hpar.
        * rewrite heap_get_set_ne by lia. by apply Hothers. }
  cbn [sift]. destruct (Nat.leb_spec (2 * i) n) as [Hj|Hj].
  - set (j := if (2 * i <? n)
                 && (v (heap_get a base (2 * i)) <? v (heap_get a base (2 * i + 1)))%Z
              then 2 * i + 1 else 2 * i).
    assert ((j = 2 * i ∨ j = 2 * i + 1) ∧ j ≤ n ∧
            ∀ c, c = 2 * i ∨ c = 2 * i + 1 → c ≤ n →
                 (v (heap_get a base c) ≤ v (heap_get a base j))%Z) as (Hjc & Hjn & Hjmax).
    { unfold j. destruct (Nat.ltb_spec (2 * i) n) as [Hlt|Hge]; cbn [andb].
      - destruct (Z.ltb_spec (v (heap_get a base (2 * i)))
                    (v (heap_get a base (2 * i + 1)))) as [Hless|Hge].
        + split_and!; [by right|lia|]. intros c [-> | ->] _; lia.
        + split_and!; [by left|lia|]. intros c [-> | ->] _; lia.
      - split_and!; [by left|lia|]. intros c [-> | ->] ?; lia. }
    destruct (Z.ltb_spec (v tmp) (v (heap_get a base j))) as [Hless|Hge].
    + (* the larger child moves up *)
      set (a2 := heap_set a base i (heap_get a base j)).
      assert (heap_get a2 base i = heap_get a base j) as E2i
        by (apply heap_get_set_eq; lia).
      assert (∀ k, 1 ≤ k → k ≠ i → heap_get a2 base k = heap_get a base k) as E2
        by (intros k ??; apply heap_get_set_ne; lia).
      replace (j + j) with (2 * j) by lia.
      destruct (IH a2 j) as (L & P & O & I & H);
        [lia|lia|unfold a2; by rewrite length_heap_set|lia|..].
      * intros k c Hk Hne Hc Hcn. destruct (decide (k = i)) as [->|?].
        -- rewrite E2i. destruct (decide (c = j)) as [->|?].
           ++ rewrite E2 by lia. lia.
           ++ rewrite E2 by lia. by apply Hjmax.
        -- rewrite (E2 k) by lia. destruct (decide (c = i)) as [->|?].
           ++ rewrite E2i. destruct (Hparent k) as [_ Hg]; [lia|lia|].
              by apply Hg.
           ++ rewrite E2 by lia. by apply Hothers.
      * intros k Hk Hjk. assert (k = i) as -> by lia. rewrite E2i.
        split; [lia|]. intros c Hc Hcn. rewrite E2 by lia.
        apply Hothers; (done || lia).
      * split_and!.
        -- rewrite L. apply length_heap_set.
        -- rewrite P. unfold a2, heap_set, heap_get.
           apply move_Permutation; lia.
        -- intros p Hp. rewrite O by lia. unfold a2, heap_set.
           rewrite list_lookup_total_insert_ne; [done|lia].
        -- intros k Hk. destruct (decide (k = i)) as [->|?].
           ++ right. exists j. split; [lia|].
              unfold heap_get at 1. rewrite O by lia. apply E2i.
           ++ destruct (decide (j ≤ k)) as [?|Hbelow].
              ** destruct (I k) as [?|(k' & Hk' & ->)]; [lia|by left|].
                 right. exists k'. split; [lia|]. apply E2; lia.
              ** right. exists k. split; [done|].
                 unfold heap_get at 1. rewrite O by lia. apply E2; lia.
        -- done.
    + (* [tmp] stays at [i] *)
      apply Hput.
      * intros c Hc Hcn. pose proof (Hjmax c Hc Hcn). lia.
      * intros k Hk Hik. by apply Hparent.
  - (* no child *)
    apply Hput.
    + intros c Hc Hcn. lia.
    + intros k Hk Hik. by apply Hparent.
Qed.

(** What the two phases keep of the array: its length, its entries, the
    entries outside the range, and the entries of the range as a bag. *)
Definition heap_within (base N : nat) a a' : Prop :=
  length a' = length a ∧ a' ≡ₚ a ∧
  (∀ p, p < base ∨ base + N - 1 < p → a' !!! p = a !!! p) ∧
  (∀ k, 1 ≤ k ≤ N → ∃ k', 1 ≤ k' ≤ N ∧ heap_get a' base k = heap_get a base k').

Lemma heap_within_refl base N a : heap_within base N a a.
Proof. split_and!; [done|done|done|]. intros k Hk. by exists k. Qed.

Lemma heap_within_trans base N a1 a2 a3 :
  heap_within base N a1 a2 → heap_within base N a2 a3 →
  heap_within base N a1 a3.
Proof.
  intros (L1 & P1 & O1 & I1) (L2 & P2 & O2 & I2). split_and!.
  - congruence.
  - by rewrite P2.
  - intros p Hp. rewrite O2, O1; done.
  - intros k Hk. destruct (I2 k Hk) as (k' & Hk' & ->).
    destruct (I1 k' Hk') as (k'' & Hk'' & ->). by exists k''.
Qed.

(** The first phase: the heap is built from the last parent down. *)
Lemma heapify_spec base n l a :
  l ≤ n → base + n ≤ length a → heap_from base n (l + 1) a →
  let a' := heapify v a base n l in
  heap_within base n a a' ∧ heap_from base n 1 a'.
Proof.
  revert a. induction l as [|l IH]; intros a Hl Hlen Hheap; cbn [heapify].
  - split; [apply heap_within_refl|done].
  - destruct (sift_spec base n (S l) (heap_get a base (S l)) n a (S l))
      as (L & P & O & I & H); [lia|lia|lia|lia|lia|..].
    + intros k c Hk Hne Hc Hcn. apply Hheap; (done || lia).
    + intros k Hk Hc. lia.
    + set (a1 := sift v a base n (heap_get a base (S l)) n (S l) (2 * S l)) in *.
      destruct (IH a1) as [W H']; [lia|lia| |].
      * intros k c Hk. apply H. lia.
      * split; [|done]. eapply heap_within_trans; [|done]. split_and!.
        -- done.
        -- rewrite P. unfold heap_set, heap_get. rewrite list_insert_id; [done|].
           apply list_lookup_lookup_total_lt. lia.
        -- intros p Hp. apply O. lia.
        -- intros k Hk. destruct (decide (S l ≤ k)) as [?|Hbelow].
           ++ destruct (I k) as [->|(k' & Hk' & ->)]; [lia| |].
              ** exists (S l). split; [lia|done].
              ** exists k'. split; [lia|done].
           ++ exists k. split; [done|]. unfold heap_get. apply O. lia.
Qed.

(** The root of a heap holds a largest key. *)
Lemma heap_root base n a k :
  heap_from base n 1 a → 1 ≤ k ≤ n →
  (v (heap_get a base k) ≤ v (heap_get a base 1))%Z.
Proof.
  intros Hheap. induction k as [k IH] using lt_wf_ind. intros Hk.
  destruct (decide (k = 1)) as [->|Hne]; [done|].
  pose proof (Nat.div_mod_eq k 2) as Hdiv.
  pose proof (Nat.mod_upper_bound k 2) as Hmod.
  trans (v (heap_get a base (k / 2))).
  - apply Hheap; lia.
  - apply IH; lia.
Qed.

(** The second phase: the root goes to the end of the heap, which then
    has one entry less. *)
Lemma extract_spec base N n a :
  n ≤ N → base + N ≤ length a → heap_from base n 1 a →
  (∀ j k, n < j → j < k → k ≤ N →
          (v (heap_get a base j) ≤ v (heap_get a base k))%Z) →
  (∀ j k, 1 ≤ j → j ≤ n → n < k → k ≤ N →
          (v (heap_get a base j) ≤ v (heap_get a base k))%Z) →
  let a' := extract v a base n in
  heap_within base N a a' ∧
  (∀ j k, 1 ≤ j → j < k → k ≤ N →
          (v (heap_get a' base j) ≤ v (heap_get a' base k))%Z).
Proof.
  revert a. induction n as [|n IH]; intros a Hn Hlen Hheap Hsuffix Hcross.
  { split; [apply heap_within_refl|]. intros j k ???. apply Hsuffix; lia. }
  destruct n as [|n'].
  { split; [apply heap_within_refl|]. intros j k ???.
    destruct (decide (j = 1)) as [->|?]; [apply Hcross; lia|apply Hsuffix; lia]. }
  change (extract v a base (S (S n')))
    with (extract v (sift v (heap_set a base (S (S n')) (heap_get a base 1)) base
                       (S n') (heap_get a base (S (S n'))) (S n') 1 (2 * 1))
            base (S n')).
  set (n := S n') in *. set (tmp := heap_get a base (S n)).
  set (a1 := heap_set a base (S n) (heap_get a base 1)).
  assert (length a1 = length a) as L1 by apply length_heap_set.
  assert (∀ k, 1 ≤ k → k ≠ S n → heap_get a1 base k = heap_get a base k) as E1
    by (intros k ??; apply heap_get_set_ne; lia).
  assert (heap_get a1 base (S n) = heap_get a base 1) as E1'
    by (apply heap_get_set_eq; lia).
  destruct (sift_spec base n 1 tmp n a1 1) as (L & P & O & I & H);
    [lia|lia|unfold n; lia|lia|unfold n; lia|..].
  - intros k c Hk Hne Hc Hcn. rewrite !E1 by lia. apply Hheap; (done || lia).
  - intros k Hk Hc. lia.
  - set (a2 := sift v a1 base n tmp n 1 (2 * 1)) in *.
    assert (∀ k, n < k → heap_get a2 base k = heap_get a1 base k) as E2
      by (intros k ?; unfold heap_get; apply O; lia).
    assert (∀ k, 1 ≤ k ≤ n →
              ∃ k', 1 ≤ k' ≤ S n ∧ heap_get a2 base k = heap_get a base k') as I2.
    { intros k Hk. destruct (I k Hk) as [->|(k' & Hk' & ->)].
      - exists (S n). split; [lia|done].
      - exists k'. split; [lia|]. apply E1; lia. }
    destruct (IH a2) as [W Srt]; [lia|lia| | | |].
    + intros k c Hk. by apply H.
    + intros j k Hj Hjk Hk. rewrite !E2 by lia.
      rewrite (E1 k) by lia. destruct (decide (j = S n)) as [->|?].
      * rewrite E1'. apply Hcross; lia.
      * rewrite E1 by lia. apply Hsuffix; lia.
    + intros j k Hj1 Hj2 Hk1 Hk2. rewrite (E2 k) by lia.
      destruct (I2 j) as (j' & Hj' & ->); [lia|].
      destruct (decide (k = S n)) as [->|?].
      * rewrite E1'. apply (heap_root base (S n)); [done|lia].
      * rewrite E1 by lia. apply Hcross; lia.
    + split; [|done]. eapply heap_within_trans; [|done]. split_and!.
      * lia.
      * rewrite P. unfold a1, tmp, heap_set, heap_get.
        apply (swap_Permutation a (base + S n - 1) (base + 1 - 1)); lia.
      * intros p Hp. rewrite O by lia. unfold a1, heap_set.
        rewrite list_lookup_total_insert_ne; [done|lia].
      * intros k Hk. destruct (decide (k ≤ n)) as [?|?].
        -- destruct (I2 k) as (k' & Hk' & ->); [lia|]. exists k'.
           split; [lia|done].
        -- rewrite E2 by lia. destruct (decide (k = S n)) as [->|?].
           ++ exists 1. split; [lia|done].
           ++ exists k. split; [lia|]. apply E1; lia.
Qed.

(** The heap sort of the [n] entries from [pl] on. *)
Lemma aheapsort_spec a pl n :
  1 ≤ n → pl + n ≤ length a →
  let a' := aheapsort v a pl n in
  within pl (pl + n - 1) a a' ∧ a' ≡ₚ a ∧
  (∀ j k, pl ≤ j → j < k → k ≤ pl + n - 1 → (v (a' !!! j) ≤ v (a' !!! k))%Z).
Proof.
  intros Hn Hlen. unfold aheapsort.
  pose proof (Nat.div_mod_eq n 2) as Hdiv.
  pose proof (Nat.mod_upper_bound n 2) as Hmod.
  destruct (heapify_spec pl n (n / 2) a) as [W1 H1]; [lia|lia| |].
  { intros k c Hk Hc Hcn. lia. }
  set (a1 := heapify v a pl n (n / 2)) in *.
  destruct (extract_spec pl n n a1) as [W2 Srt];
    [lia|destruct W1 as [-> _]; lia|done|intros j k ???; lia|intros j k ????; lia|].
  set (a2 := extract v a1 pl n) in *.
  destruct (heap_within_trans _ _ _ _ _ W1 W2) as (L & P & O & I).
  split_and!.
  - split_and!; [done|intros p Hp; apply O; lia|].
    intros p Hp. destruct (I (p - pl + 1)) as (k' & Hk' & E); [lia|].
    exists (pl + k' - 1). split; [lia|].
    unfold heap_get in E. by replace (pl + (p - pl + 1) - 1) with p in E by lia.
  - done.
  - intros j k Hj Hjk Hk.
    pose proof (Srt (j - pl + 1) (k - pl + 1)) as Hs. unfold heap_get in Hs.
    replace (pl + (j - pl + 1) - 1) with j in Hs by lia.
    replace (pl + (k - pl + 1) - 1) with k in Hs by lia.
    apply Hs; lia.
Qed.

End Heap.

End HeapFacts.

(** ** The loops of the quicksort: ranges still to sort *)

Module QuicksortFacts.
Import Npysort ArrayFacts InsertionFacts HeapFacts.

Local Open Scope nat_scope.

Section Quicksort.

Variable v : nat → Z.

Implicit Types (a : list nat) (f g : frame) (stack : list frame).

(** The range of a saved frame holds both positions. *)
Definition covers f (j k : nat) : Prop := f.1.1 ≤ j ∧ k ≤ f.1.2.

(** Two entries are in the order of their keys unless one range still to
    sort holds both. *)
Definition ordered a stack : Prop :=
  ∀ j k, j < k → k < length a →
         (v (a !!! j) ≤ v (a !!! k))%Z ∨ ∃ f, f ∈ stack ∧ covers f j k.

(** The ranges still to sort do not overlap. *)
Fixpoint apart stack : Prop :=
  match stack with
  | [] => True
  | f :: stack => (∀ g, g ∈ stack → f.1.2 < g.1.1 ∨ g.1.2 < f.1.1) ∧ apart stack
  end.

(** The number of entries still to sort. *)
Fixpoint weight stack : nat :=
  match stack with
  | [] => 0
  | f :: stack => f.1.2 - f.1.1 + 1 + weight stack
  end.

(** Sorting inside one range: the range is replaced by the ranges [news]
    that are left to sort inside it. *)
Lemma ordered_refine a a' l r d news stack :
  ordered a ((l, r, d) :: stack) → within l r a a' → r < length a →
  (∀ g, g ∈ stack → r < g.1.1 ∨ g.1.2 < l) →
  (∀ j k, l ≤ j → j < k → k ≤ r →
     (v (a' !!! j) ≤ v (a' !!! k))%Z ∨ ∃ f, f ∈ news ∧ covers f j k) →
  ordered a' (news ++ stack).
Proof.
  intros Hord (L & O & I) Hr Hapart Hin j k Hjk Hk. rewrite L in Hk.
  assert (∀ j' k', j' < k' → k' < length a → ¬ (l ≤ j' ∧ k' ≤ r) →
            (l ≤ j' ≤ r ∨ l ≤ k' ≤ r) →
            (v (a !!! j') ≤ v (a !!! k'))%Z) as Hcross.
  { intros j' k' Hjk' Hk' Hnot Hone.
    destruct (Hord j' k' Hjk' Hk') as [?|(f & Hf & Hc1 & Hc2)]; [done|].
    apply elem_of_cons in Hf as [->|Hf]; [cbn in *; lia|].
    destruct (Hapart f Hf); lia. }
  destruct (decide (l ≤ j ∧ k ≤ r)) as [[??]|Hnot].
  { destruct (Hin j k) as [?|(f & Hf & Hc)]; [done..|by left|].
    right. exists f. split; [|done]. apply elem_of_app. by left. }
  destruct (decide (l ≤ j ≤ r)) as [Hj|Hj].
  - destruct (I j Hj) as (j' & Hj' & ->). rewrite (O k) by lia.
    left. apply Hcross; lia.
  - rewrite (O j) by lia. destruct (decide (l ≤ k ≤ r)) as [Hk'|Hk'].
    + destruct (I k Hk') as (k' & Hk'' & ->). left. apply Hcross; lia.
    + rewrite (O k) by lia.
      destruct (Hord j k Hjk Hk) as [?|(f & Hf & Hc1 & Hc2)]; [by left|].
      apply elem_of_cons in Hf as [->|Hf]; [cbn in *; lia|].
      right. exists f. split; [|done]. apply elem_of_app. by right.
Qed.

(** The partitions of one round: the range left is short, the other parts
    are saved. *)
Lemma partitions_spec fuel a pl pr stack cdepth :
  pl ≤ pr → pr < length a → pr - pl ≤ fuel →
  ordered a ((pl, pr, cdepth) :: stack) → apart ((pl, pr, cdepth) :: stack) →
  Forall (λ f, f.1.1 ≤ f.1.2 < length a) stack →
  ∃ a' pl' pr' stack' cdepth',
    partitions v a pl pr stack cdepth fuel = (a', pl', pr', stack', cdepth') ∧
    a' ≡ₚ a ∧ length a' = length a ∧
    pl' ≤ pr' ∧ pr' < length a ∧ pr' - pl' ≤ SMALL_QUICKSORT ∧
    ordered a' ((pl', pr', cdepth') :: stack') ∧
    apart ((pl', pr', cdepth') :: stack') ∧
    Forall (λ f, f.1.1 ≤ f.1.2 < length a) stack' ∧
    weight ((pl', pr', cdepth') :: stack') ≤ weight ((pl, pr, cdepth) :: stack).
Proof.
  revert a pl pr stack cdepth.
  induction fuel as [|fuel IH]; intros a pl pr stack cdepth Hle Hlen Hfuel Hord Hap Hwf;
    cbn [partitions].
  { exists a, pl, pr, stack, cdepth. unfold SMALL_QUICKSORT.
    split_and!; (done || lia). }
  destruct (Nat.ltb_spec SMALL_QUICKSORT (pr - pl)) as [Hbig|Hsmall];
    [|exists a, pl, pr, stack, cdepth; split_and!; (done || lia)].
  unfold SMALL_QUICKSORT in Hbig.
  destruct (partition_spec v a pl pr) as (a1 & pi & -> & Hpi & W & P & Hlo & Hhi);
    [lia|lia|].
  assert (length a1 = length a) as L1 by apply W.
  destruct Hap as [Hap1 Hap2]. cbn [fst snd] in Hap1.
  assert (∀ j k, pl ≤ j → j < k → k ≤ pr →
     (v (a1 !!! j) ≤ v (a1 !!! k))%Z ∨
     (pl ≤ j ∧ k ≤ pi - 1) ∨ (S pi ≤ j ∧ k ≤ pr)) as Hparts.
  { intros j k Hj Hjk Hk.
    destruct (decide (k < pi)); [right; left; lia|].
    destruct (decide (pi < j)); [right; right; lia|]. left.
    trans (v (a1 !!! pi)).
    - destruct (decide (j = pi)) as [->|?]; [done|]. apply Hlo. lia.
    - destruct (decide (k = pi)) as [->|?]; [done|]. apply Hhi. lia. }
  destruct (Nat.ltb_spec (pi - pl) (pr - pi)) as [Hleft|Hright].
  - (* the left part is the shorter one *)
    destruct (IH a1 pl (pi - 1) ((S pi, pr, (cdepth - 1)%Z) :: stack) (cdepth - 1)%Z)
      as (a' & pl' & pr' & stack' & cdepth' & E & P' & L' & H1 & H2 & H3 & H4 & H5 & H6 & H7).
    + lia.
    + lia.
    + lia.
    + apply (ordered_refine a a1 pl pr cdepth
               [(pl, pi - 1, (cdepth - 1)%Z); (S pi, pr, (cdepth - 1)%Z)] stack);
        [done|done|lia|done|].
      intros j k Hj Hjk Hk. destruct (Hparts j k) as [?|[?|?]]; [done..|by left| |].
      * right. eexists. split; [by left|]. done.
      * right. eexists. split; [right; by left|]. done.
    + cbn [apart fst snd]. split_and!; [| |done].
      * intros g [->|Hg]%elem_of_cons; [cbn; lia|].
        destruct (Hap1 g Hg); lia.
      * intros g Hg. destruct (Hap1 g Hg); lia.
    + rewrite L1. apply Forall_cons. split; [cbn; lia|done].
    + exists a', pl', pr', stack', cdepth'. rewrite L1 in *.
      split_and!; [done|by rewrite P'|lia|done|done|done|done|done|done|].
      cbn [weight fst snd] in *. lia.
  - (* the right part is the shorter one *)
    destruct (IH a1 (S pi) pr ((pl, pi - 1, (cdepth - 1)%Z) :: stack) (cdepth - 1)%Z)
      as (a' & pl' & pr' & stack' & cdepth' & E & P' & L' & H1 & H2 & H3 & H4 & H5 & H6 & H7).
    + lia.
    + lia.
    + lia.
    + apply (ordered_refine a a1 pl pr cdepth
               [(S pi, pr, (cdepth - 1)%Z); (pl, pi - 1, (cdepth - 1)%Z)] stack);
        [done|done|lia|done|].
      intros j k Hj Hjk Hk. destruct (Hparts j k) as [?|[?|?]]; [done..|by left| |].
      * right. eexists. split; [right; by left|]. done.
      * right. eexists. split; [by left|]. done.
    + cbn [apart fst snd]. split_and!; [| |done].
      * intros g [->|Hg]%elem_of_cons; [cbn; lia|].
        destruct (Hap1 g Hg); lia.
      * intros g Hg. destruct (Hap1 g Hg); lia.
    + rewrite L1. apply Forall_cons. split; [cbn; lia|done].
    + exists a', pl', pr', stack', cdepth'. rewrite L1 in *.
      split_and!; [done|by rewrite P'|lia|done|done|done|done|done|done|].
      cbn [weight fst snd] in *. lia.
Qed.

(** The rounds: each one sorts a range for good. *)
Lemma rounds_spec fuel a pl pr stack cdepth :
  pl ≤ pr → pr < length a → weight ((pl, pr, cdepth) :: stack) ≤ fuel →
  ordered a ((pl, pr, cdepth) :: stack) → apart ((pl, pr, cdepth) :: stack) →
  Forall (λ f, f.1.1 ≤ f.1.2 < length a) stack →
  let a' := rounds v a pl pr stack cdepth fuel in
  a' ≡ₚ a ∧ ordered a' [].
Proof.
  revert a pl pr stack cdepth.
  induction fuel as [|fuel IH]; intros a pl pr stack cdepth Hle Hlen Hfuel Hord Hap Hwf.
  { cbn [weight fst snd] in Hfuel. lia. }
  assert (∀ a1 stack1,
    a1 ≡ₚ a → length a1 = length a → ordered a1 stack1 → apart stack1 →
    Forall (λ f, f.1.1 ≤ f.1.2 < length a) stack1 → weight stack1 ≤ fuel →
    let a' := match stack1 with
              | [] => a1
              | (pl, pr, cdepth) :: stack => rounds v a1 pl pr stack cdepth fuel
              end in
    a' ≡ₚ a ∧ ordered a' []) as Hnext.
  { intros a1 stack1 P1 L1 O1 A1 W1 F1. destruct stack1 as [|[[pl1 pr1] d1] stack1].
    - done.
    - apply Forall_cons in W1 as [Hf W1]. cbn [fst snd] in Hf.
      destruct (IH a1 pl1 pr1 stack1 d1) as [P' O']; [lia|lia|done|done|done| |].
      + by rewrite L1.
      + split; [|done]. by rewrite P'. }
  cbn [rounds]. destruct (cdepth <? 0)%Z.
  - (* the depth limit is used up *)
    destruct (aheapsort_spec v a pl (pr - pl + 1)) as (W & P & Srt); [lia|lia|].
    replace (pl + (pr - pl + 1) - 1) with pr in W, Srt by lia.
    apply Hnext; [done|apply W| |apply Hap|done|cbn [weight fst snd] in Hfuel; lia].
    apply (ordered_refine a _ pl pr cdepth [] stack); [done|done|lia|apply Hap|].
    intros j k ???. left. by apply Srt.
  - destruct (partitions_spec (length a) a pl pr stack cdepth)
      as (a1 & pl1 & pr1 & stack1 & cdepth1 & -> & P1 & L1 & H1 & H2 & _ & O1 & A1 & W1 & F1);
      [done|done|lia|done|done|done|].
    destruct (insertion_sort_sorted v a1 pl1 pr1) as (W & P & Srt); [lia|lia|].
    apply Hnext.
    + by rewrite P.
    + destruct W as [-> _]. done.
    + apply (ordered_refine a1 _ pl1 pr1 cdepth1 [] stack1); [done|done|lia|apply A1|].
      intros j k ???. left. by apply Srt.
    + apply A1.
    + done.
    + cbn [weight fst snd] in *. lia.
Qed.

(** [argsort] returns the positions [0] to [num - 1], in ascending order
    of their keys. *)
Lemma aquicksort_spec num :
  aquicksort v num ≡ₚ seq 0 num ∧
  ∀ j k, j < k → k < num →
         (v (aquicksort v num !!! j) ≤ v (aquicksort v num !!! k))%Z.
Proof.
  destruct num as [|n]; [split; [done|lia]|].
  unfold aquicksort.
  destruct (rounds_spec (S (S n)) (seq 0 (S n)) 0 (S n - 1) [] (depth_limit (S n)))
    as [P O].
  - lia.
  - rewrite length_seq. lia.
  - cbn [weight fst snd]. lia.
  - intros j k Hjk Hk. right. eexists. split; [by left|].
    rewrite length_seq in Hk. unfold covers. cbn [fst snd]. lia.
  - cbn. split; [|done]. intros g Hg. by apply elem_of_nil in Hg.
  - done.
  - split; [done|]. intros j k Hjk Hk.
    destruct (O j k) as [?|(f & Hf & _)]; [done| |done|by apply elem_of_nil in Hf].
    apply Permutation_length in P. rewrite P, length_seq. done.
Qed.

(** Up to 17 keys no partition is made: the sort is one insertion sort,
    which leaves equal keys in the order of their positions. *)
Lemma aquicksort_small num :
  num ≤ S SMALL_QUICKSORT →
  ∀ j k, j < k → k < num →
         key_then_index v (aquicksort v num !!! j) (aquicksort v num !!! k).
Proof.
  intros Hsmall j k Hjk Hk. destruct num as [|n]; [lia|].
  assert (aquicksort v (S n) = insertion_sort v (seq 0 (S n)) 0 n) as ->.
  { unfold aquicksort. cbn [rounds].
    assert ((depth_limit (S n) <? 0)%Z = false) as ->
      by (apply Z.ltb_ge; unfold depth_limit; lia).
    rewrite length_seq. cbn [partitions].
    replace (S n - 1) with n by lia.
    destruct (Nat.ltb_spec SMALL_QUICKSORT (n - 0)); [lia|done]. }
  destruct (insertion_sort_stable v (seq 0 (S n)) 0 n) as (_ & _ & Srt).
  - lia.
  - rewrite length_seq. lia.
  - intros j' k' ???. rewrite !lookup_total_seq_lt by lia. lia.
  - apply Srt; lia.
Qed.

End Quicksort.

End QuicksortFacts.

(** ** The sorted table: the rows taken in the order of the indexer *)

Module SortValuesFacts.
Import Npysort ArrayFacts InsertionFacts QuicksortFacts Processing.

Local Open Scope nat_scope.

Section Rows.

Context {Row : Type} (key : Row → Z).

Implicit Types (table : list Row) (idx : list nat).

(** The key array of a table. *)
Definition key_at table (i : nat) : Z := from_option key 0%Z (table !! i).

Lemma key_at_lookup table i r : table !! i = Some r → key_at table i = key r.
Proof. intros H. unfold key_at. by rewrite H. Qed.

Lemma omap_cons {A B} (f : A → option B) x l :
  omap f (x :: l) = match f x with Some y => y :: omap f l | None => omap f l end.
Proof. done. Qed.

(** Taking the rows in the order of their positions gives the table. *)
Lemma take_seq pre table :
  omap (λ i, (pre ++ table) !! i) (seq (length pre) (length table)) = table.
Proof.
  revert pre. induction table as [|r table IH]; intros pre; [done|].
  cbn [length seq]. rewrite omap_cons, list_lookup_middle by done. f_equal.
  replace (pre ++ r :: table) with ((pre ++ [r]) ++ table)
    by (by rewrite <- app_assoc).
  replace (S (length pre)) with (length (pre ++ [r]))
    by (rewrite length_app; simpl; lia).
  apply IH.
Qed.

Lemma take_all table : omap (λ i, table !! i) (seq 0 (length table)) = table.
Proof. apply (take_seq []). Qed.

Lemma pairwise_StronglySorted (R : relation nat) idx :
  (∀ j k, j < k → k < length idx → R (idx !!! j) (idx !!! k)) →
  StronglySorted R idx.
Proof.
  induction idx as [|i idx IH]; intros Hall; constructor.
  - apply IH. intros j k Hjk Hk. apply (Hall (S j) (S k)); simpl; lia.
  - apply Forall_lookup. intros k x Hx.
    assert (k < length idx) by (by eapply lookup_lt_Some).
    pose proof (Hall 0 (S k) ltac:(lia) ltac:(simpl; lia)) as H0.
    assert ((i :: idx) !!! S k = x) as E by (by apply list_lookup_total_correct).
    assert ((i :: idx) !!! 0 = i) as E0 by done.
    by rewrite E, E0 in H0.
Qed.

Lemma StronglySorted_filter {A} (R : relation A) (P : A → Prop)
    `{!∀ x, Decision (P x)} (l : list A) :
  StronglySorted R l → StronglySorted R (filter P l).
Proof.
  induction 1 as [|x l Hs IH Hx]; [constructor|].
  rewrite filter_cons. destruct (decide (P x)); [|done].
  constructor; [done|]. rewrite Forall_forall in Hx |- *.
  intros y [_ Hy]%list_elem_of_filter. by apply Hx.
Qed.

Lemma StronglySorted_weaken {A} (R R' : relation A) (P : A → Prop) (l : list A) :
  (∀ x y, P x → P y → R x y → R' x y) → Forall P l →
  StronglySorted R l → StronglySorted R' l.
Proof.
  intros HR HP. induction 1 as [|x l Hs IH Hx]; [constructor|].
  apply Forall_cons in HP as [Px HP]. constructor; [by apply IH|].
  rewrite Forall_forall in Hx, HP |- *. intros y Hy.
  apply HR; [done|by apply HP|by apply Hx].
Qed.

(** Rows taken in an order of their positions that a relation on rows
    follows are sorted by that relation. *)
Lemma take_StronglySorted (R' : relation nat) (R : relation Row) table idx :
  (∀ i j x y, table !! i = Some x → table !! j = Some y → R' i j → R x y) →
  StronglySorted R' idx →
  StronglySorted R (omap (λ i, table !! i) idx).
Proof.
  intros HR. induction 1 as [|i idx Hs IH Hi]; [constructor|].
  rewrite omap_cons. destruct (table !! i) as [x|] eqn:Ex; [|done].
  constructor; [done|]. apply Forall_forall. intros y Hy.
  apply list_elem_of_omap in Hy as (j & Hj & Ey).
  rewrite Forall_forall in Hi. by apply (HR i j), Hi.
Qed.

(** Selecting the rows of one key before or after taking them. *)
Lemma take_filter table idx (t : Z) :
  filter (λ r, key r = t) (omap (λ i, table !! i) idx)
  = omap (λ i, table !! i) (filter (λ i, key_at table i = t) idx).
Proof.
  induction idx as [|i idx IH]; [done|].
  rewrite filter_cons, omap_cons.
  destruct (table !! i) as [x|] eqn:Ex.
  - rewrite filter_cons, (key_at_lookup table i x Ex).
    destruct (decide (key x = t)); rewrite ?omap_cons, ?Ex, IH; done.
  - destruct (decide (key_at table i = t)); rewrite ?omap_cons, ?Ex, IH; done.
Qed.

Lemma quicksort_values_Permutation table : quicksort_values key table ≡ₚ table.
Proof.
  unfold quicksort_values.
  rewrite (proj1 (aquicksort_spec _ (length table))). by rewrite take_all.
Qed.

Lemma quicksort_values_Sorted table :
  Sorted (by_key key) (quicksort_values key table).
Proof.
  apply StronglySorted_Sorted. unfold quicksort_values.
  apply (take_StronglySorted (by_index_key (key_at table))).
  - intros i j x y Ei Ej Hij. unfold by_index_key in Hij.
    by rewrite (key_at_lookup _ _ _ Ei), (key_at_lookup _ _ _ Ej) in Hij.
  - apply pairwise_StronglySorted. intros j k Hjk Hk.
    destruct (aquicksort_spec (key_at table) (length table)) as [P Srt].
    apply Srt; [done|]. apply Permutation_length in P.
    unfold key_at in P. rewrite P, length_seq in Hk. done.
Qed.

(** A table of at most 17 rows is sorted by one insertion sort, which
    keeps the rows of equal key in their order. *)
Lemma quicksort_values_small table :
  length table ≤ S SMALL_QUICKSORT →
  stable key table (quicksort_values key table).
Proof.
  intros Hsmall t. unfold quicksort_values.
  set (idx := aquicksort (λ i, from_option key 0%Z (table !! i)) (length table)).
  rewrite take_filter.
  trans (omap (λ i, table !! i)
           (filter (λ i, key_at table i = t) (seq 0 (length table))));
    [|by rewrite <- take_filter, take_all].
  f_equal. apply (Sorted_unique le).
  - apply StronglySorted_Sorted.
    apply (StronglySorted_weaken (key_then_index (key_at table)) _
             (λ i, key_at table i = t)).
    + intros x y Hx Hy. unfold key_then_index. lia.
    + apply Forall_forall. by intros i [Hi _]%list_elem_of_filter.
    + apply StronglySorted_filter, pairwise_StronglySorted.
      intros j k Hjk Hk.
      apply (aquicksort_small (key_at table) (length table)); [done|done|].
      pose proof (proj1 (aquicksort_spec (key_at table) (length table))) as P.
      apply Permutation_length in P. fold idx in Hk.
      unfold key_at in P. fold idx in P. rewrite P, length_seq in Hk. done.
  - apply StronglySorted_Sorted, StronglySorted_filter, pairwise_StronglySorted.
    intros j k Hjk Hk. rewrite length_seq in Hk.
    rewrite !lookup_total_seq_lt by lia. lia.
  - apply filter_Permutation.
    apply (aquicksort_spec (key_at table) (length table)).
Qed.

End Rows.

(** The sort of the default [kind] meets the contract of [sort_values]. *)
Definition quicksort_sort_values {Row : Type} (key : Row → Z) : SortValues key :=
  {| sort_values := quicksort_values key;
     sort_values_Permutation := quicksort_values_Permutation key;
     sort_values_Sorted := quicksort_values_Sorted key |}.

End SortValuesFacts.

(** ** The auto-fix block: idempotence, rule order, invariant, frame *)

Section RepairClaims.
Import App RepairFacts.

(** C2. The repair is idempotent: on every record that holds the five
    fields, with non-negative [sessions_7d] and [active_days_7d], the block
    returns a record, and run again on that record it returns it unchanged
    (and records no fix). *)
Theorem repair_idempotent (p : gmap string value) (s a t k m : value) :
  p !! "sessions_7d" = Some s → p !! "active_days_7d" = Some a →
  p !! "avg_turns_per_session_7d" = Some t →
  p !! "tokens_per_session_7d" = Some k →
  p !! "model_switch_rate_7d" = Some m →
  nonneg s → nonneg a →
  ∃ p' fx, repair p = Ok (p', fx) ∧ repair p' = Ok (p', []).
Proof.
  intros Hs Ha Ht Hk Hm Ns Na.
  destruct (repair_total p s a t k m Hs Ha Ht Hk Hm Ns Na) as (p' & fx & H).
  exists p', fx. split; [done|]. by apply repair_again in H.
Qed.

(** C3. Rule order: with [sessions_7d = 0] and [active_days_7d = 5] the
    second rule sets [sessions_7d] to 5 before the third rule tests it, so
    the third rule does not fire: the three per-session metrics, like every
    other field, keep their values, and the only fix recorded is the one of
    the second rule. *)
Theorem repair_rule_order (p : gmap string value) :
  p !! "sessions_7d" = Some (VInt 0) →
  p !! "active_days_7d" = Some (VInt 5) →
  ∃ p',
    repair p =
      Ok (p', ["sessions_7d set to active_days_7d because active_days_7d > 0"]) ∧
    p' !! "sessions_7d" = Some (VInt 5) ∧
    (∀ k, k ∈ metrics → p' !! k = p !! k) ∧
    (∀ k, k ≠ "sessions_7d" → p' !! k = p !! k).
Proof.
  intros Hs Ha. exists (<["sessions_7d" := VInt 5]> p).
  split_and!.
  - unfold repair, rule1.
    rewrite (cond1_counts p _ _ Hs Ha). cbn.
    unfold rule2. rewrite (cond2_counts p _ _ Hs Ha). cbn.
    rewrite (getitem_Some _ _ _ Ha). cbn.
    unfold rule3. cbn [fst].
    rewrite (getitem_Some _ "sessions_7d" (VInt 5)) by by simplify_map_eq.
    done.
  - by simplify_map_eq.
  - intros k Hk. rewrite lookup_insert_ne; [done|].
    intros <-. revert Hk. compute_done.
  - intros k Hk. by rewrite lookup_insert_ne.
Qed.

(** C9. On every record with the five fields and non-negative
    [sessions_7d] and [active_days_7d], the record the block returns is
    consistent: if [sessions_7d] is zero, so are [active_days_7d] and the
    three per-session metrics; if [sessions_7d] is positive, so is
    [active_days_7d]. *)
Theorem repair_consistent (p : gmap string value) (s a t k m : value) :
  p !! "sessions_7d" = Some s → p !! "active_days_7d" = Some a →
  p !! "avg_turns_per_session_7d" = Some t →
  p !! "tokens_per_session_7d" = Some k →
  p !! "model_switch_rate_7d" = Some m →
  nonneg s → nonneg a →
  ∃ p' fx, repair p = Ok (p', fx) ∧ consistent p'.
Proof.
  intros Hs Ha Ht Hk Hm Ns Na.
  destruct (repair_total p s a t k m Hs Ha Ht Hk Hm Ns Na) as (p' & fx & H).
  exists p', fx. split; [done|].
  apply repair_inv in H as (p1 & f1 & p2 & f2 & H1 & H2 & H3).
  destruct (rules12_total p [] s a Hs Ha Ns Na)
    as (q1 & g1 & q2 & g2 & s2 & a2 & H1' & H2' & Hs2 & Ha2 & Ns2 & Na2).
  assert (q1 = p1 ∧ g1 = f1) as [-> ->] by (split; congruence).
  assert (q2 = p2 ∧ g2 = f2) as [-> ->] by (split; congruence).
  destruct (rules12_settled _ _ _ _ _ _ H1 H2) as [C1 C2].
  rewrite (cond1_counts _ _ _ Hs2 Ha2) in C1.
  rewrite (cond2_counts _ _ _ Hs2 Ha2) in C2.
  destruct (rule3_frame _ _ _ _ H3) as [D3 E3].
  assert (∀ f, f ∈ metrics → is_Some (p' !! f)) as Hmet.
  { intros f Hf. apply elem_of_dom. rewrite D3.
    apply rule1_frame in H1 as [D1 _]. apply rule2_frame in H2 as [D2 _].
    rewrite D2, D1. apply elem_of_dom. unfold metrics in Hf.
    repeat (apply elem_of_cons in Hf as [->|Hf]); [by eexists..|].
    by apply elem_of_nil in Hf. }
  destruct (Hmet "avg_turns_per_session_7d") as [t' Ht']; [compute_done|].
  destruct (Hmet "tokens_per_session_7d") as [k' Hk']; [compute_done|].
  destruct (Hmet "model_switch_rate_7d") as [m' Hm']; [compute_done|].
  exists s2, a2, t', k', m'.
  split_and!; [rewrite E3 by compute_done; done..|done|done|done| |].
  - intros He.
    destruct (nonneg_gt0_or_eq0 a2 Na2) as [[Hg _]|[_ Hz]].
    { rewrite Hg, bind_Ok, He in C2. discriminate. }
    split; [done|].
    pose proof (rule3_zeroes _ _ _ _ _ H3 Hs2 He) as Hz3.
    destruct (Hz3 "avg_turns_per_session_7d") as (? & ? & ?); [compute_done|].
    destruct (Hz3 "tokens_per_session_7d") as (? & ? & ?); [compute_done|].
    destruct (Hz3 "model_switch_rate_7d") as (? & ? & ?); [compute_done|].
    by simplify_eq.
  - intros Hg. rewrite Hg, bind_Ok in C1.
    destruct (nonneg_gt0_or_eq0 a2 Na2) as [[Hg2 _]|[_ Hz]]; [done|].
    rewrite Hz in C1. discriminate.
Qed.

(** C10. The block assigns at most the five fields: whenever it returns a
    record, that record has the key set of the input and every key other
    than the five maps to its original value. *)
Theorem repair_frame_effect (p p' : gmap string value) (fx : list string) :
  repair p = Ok (p', fx) →
  dom p' = dom p ∧ ∀ k, k ∉ repaired_fields → p' !! k = p !! k.
Proof. apply repair_frame. Qed.

End RepairClaims.

Lemma repair_idempotent_witness :
  ∃ p' fx, App.repair (App.payload Examples.form_idle) = Ok (p', fx) ∧
           App.repair p' = Ok (p', []).
Proof.
  apply (repair_idempotent (App.payload Examples.form_idle)
           (VInt 0) (VInt 0) (VFloat (float_of_Z 8)) (VFloat (float_of_Z 500))
           (VFloat (float_of_ratio 10 100)));
    [vm_compute; reflexivity..|simpl; lia|simpl; lia].
Defined.

Lemma repair_rule_order_witness :
  ∃ p',
    App.repair (App.payload Examples.form_active_only) =
      Ok (p', ["sessions_7d set to active_days_7d because active_days_7d > 0"]) ∧
    p' !! "sessions_7d" = Some (VInt 5) ∧
    (∀ k, k ∈ App.metrics → p' !! k = App.payload Examples.form_active_only !! k) ∧
    (∀ k, k ≠ "sessions_7d" → p' !! k = App.payload Examples.form_active_only !! k).
Proof.
  apply (repair_rule_order (App.payload Examples.form_active_only));
    vm_compute; reflexivity.
Defined.

Lemma repair_consistent_witness :
  ∃ p' fx, App.repair (App.payload Examples.form_idle) = Ok (p', fx) ∧
           App.consistent p'.
Proof.
  apply (repair_consistent (App.payload Examples.form_idle)
           (VInt 0) (VInt 0) (VFloat (float_of_Z 8)) (VFloat (float_of_Z 500))
           (VFloat (float_of_ratio 10 100)));
    [vm_compute; reflexivity..|simpl; lia|simpl; lia].
Defined.

Lemma repair_frame_effect_witness :
  dom (<["sessions_7d" := VInt 5]> (App.payload Examples.form_active_only))
    = dom (App.payload Examples.form_active_only) ∧
  ∀ k, k ∉ App.repaired_fields →
       <["sessions_7d" := VInt 5]> (App.payload Examples.form_active_only) !! k
       = App.payload Examples.form_active_only !! k.
Proof.
  apply (repair_frame_effect (App.payload Examples.form_active_only) _
           ["sessions_7d set to active_days_7d because active_days_7d > 0"]).
  vm_compute. reflexivity.
Defined.

(** No sessions and no active days: the three per-session metrics are set
    to zero and each assignment is recorded. *)
Example repair_idle :
  ∃ p', App.repair (App.payload Examples.form_idle) =
          Ok (p', ["avg_turns_per_session_7d set to 0 because sessions_7d = 0";
                   "tokens_per_session_7d set to 0 because sessions_7d = 0";
                   "model_switch_rate_7d set to 0 because sessions_7d = 0"]) ∧
        p' !! "tokens_per_session_7d" = Some (VFloat f0).
Proof. eexists. split; by vm_compute. Qed.

(** ** Normalisation against the feature list, and the thresholded score *)

Section InferenceClaims.
Import Inference InferenceFacts.

Variable FEATURES : list string.
Variable XGB : frame1 → result spec_float.
Variable LOGREG_PIPE : frame1 → result spec_float.

(** C1. For every payload and every feature list, [_prep] returns a frame
    whose columns are exactly the features, in their order: a feature the
    payload holds keeps the payload's value, a feature the payload lacks
    is filled with the integer 0, and a payload field that is not a
    feature is not a column of the frame. *)
Theorem prep_columns_are_features (payload : gmap string value) :
  ∃ X,
    _prep FEATURES payload = Ok X ∧
    columns X = FEATURES ∧
    (∀ c, c ∈ columns X ↔ c ∈ FEATURES) ∧
    (∀ c, c ∈ FEATURES → cell X c = Some (default (VInt 0) (payload !! c))) ∧
    (∀ c, c ∈ FEATURES → payload !! c = None → cell X c = Some (VInt 0)) ∧
    (∀ c, is_Some (payload !! c) → c ∉ FEATURES → c ∉ columns X).
Proof.
  exists ((λ c, (c, default (VInt 0) (payload !! c))) <$> FEATURES).
  assert (columns ((λ c, (c, default (VInt 0) (payload !! c))) <$> FEATURES)
          = FEATURES) as Hcols.
  { unfold columns. rewrite <- list_fmap_compose. apply list_fmap_id. }
  split_and!.
  - apply prep_closed_form.
  - done.
  - intros c. by rewrite Hcols.
  - intros c Hc. by apply (cell_tabulate (λ c, default (VInt 0) (payload !! c))).
  - intros c Hc Hnone.
    rewrite (cell_tabulate (λ c, default (VInt 0) (payload !! c))) by done.
    by rewrite Hnone.
  - intros c _ Hc. by rewrite Hcols.
Qed.

(** C8. The decision is [probability >= threshold] with the threshold of
    the call: whatever the payload and whatever the other model does, when
    the chosen model returns the probability [prob] on the frame prepared
    from the payload, [predict] returns that probability, the threshold it
    was given, and the prediction 1 if [prob >= threshold] and 0
    otherwise; so a model that returns 0.40 gives the decision 1 at the
    threshold 0.35 and the decision 0 at the threshold 0.50. *)
Theorem predict_threshold (payload : gmap string value) (model_choice : string)
    (prob : spec_float) :
  (lower model_choice ∈ ["xgb"; "xgboost"] ∧
   (X ← _prep FEATURES payload; XGB X) = Ok prob) ∨
  (lower model_choice ∈ ["logreg"; "logistic"] ∧
   (X ← _prep FEATURES payload; LOGREG_PIPE X) = Ok prob) →
  (∀ threshold,
     predict FEATURES XGB LOGREG_PIPE payload model_choice threshold =
       Ok (<["threshold" := VFloat threshold]>
           (<["churn_prediction" := VInt (Z.b2z (float_ge prob threshold))]>
           (<["churn_probability" := VFloat prob]> ∅)))) ∧
  (prob = lit_0_40 →
     (∃ out, predict FEATURES XGB LOGREG_PIPE payload model_choice lit_0_35 = Ok out ∧
             out !! "churn_prediction" = Some (VInt 1)) ∧
     (∃ out, predict FEATURES XGB LOGREG_PIPE payload model_choice lit_0_50 = Ok out ∧
             out !! "churn_prediction" = Some (VInt 0))).
Proof.
  intros Hchosen.
  assert (∀ threshold,
     predict FEATURES XGB LOGREG_PIPE payload model_choice threshold =
       Ok (<["threshold" := VFloat threshold]>
           (<["churn_prediction" := VInt (Z.b2z (float_ge prob threshold))]>
           (<["churn_probability" := VFloat prob]> ∅)))) as Hp.
  { intros threshold. unfold predict.
    rewrite prep_closed_form in Hchosen |- *.
    rewrite !bind_Ok in Hchosen. rewrite bind_Ok.
    destruct Hchosen as [[Hmc Hprob]|[Hmc Hprob]].
    - by rewrite decide_True, Hprob, bind_Ok.
    - rewrite decide_False, decide_True, Hprob, bind_Ok; [done|done|].
      intros Hx. repeat (apply elem_of_cons in Hmc as [Hmc|Hmc]);
        [rewrite Hmc in Hx; revert Hx; compute_done..|by apply elem_of_nil in Hmc]. }
  split; [done|]. intros ->. split; eexists; (split; [apply Hp|done]).
Qed.

End InferenceClaims.

Lemma predict_threshold_witness :
  (∃ out, Inference.predict Examples.features MoreExamples.model_by_tokens
            MoreExamples.model_broken Examples.raw_record "XGB" lit_0_35 = Ok out ∧
          out !! "churn_prediction" = Some (VInt 1)) ∧
  (∃ out, Inference.predict Examples.features MoreExamples.model_by_tokens
            MoreExamples.model_broken Examples.raw_record "XGB" lit_0_50 = Ok out ∧
          out !! "churn_prediction" = Some (VInt 0)).
Proof.
  apply (predict_threshold Examples.features MoreExamples.model_by_tokens
           MoreExamples.model_broken Examples.raw_record "XGB" lit_0_40);
    [left; split; [compute_done|vm_compute; reflexivity]|reflexivity].
Defined.

(** The frame prepared from the raw record of the end-to-end scenario. *)
Example prep_raw_record :
  Inference._prep Examples.features Examples.raw_record =
    Ok [("tokens_per_session_7d", VInt 900); ("sessions_7d", VInt 10);
        ("active_days_7d", VInt 4); ("activated_800", VInt 0);
        ("primary_model_7d_gpt-4o", VInt 0)].
Proof. by vm_compute. Qed.

(** ** The chronological split *)

Section SplitClaims.
Import Processing SplitFacts Binary64Facts NearestFacts SortValuesFacts.

Context {Row : Type} (obs_end_date : Row → Z).

(** C4, as the code has it.  For every table of [n] rows ([n] below
    [2 ^ 63], the largest length a Python sequence can have) and every
    sorting routine, the split returns three tables: with
    [train_end = int(n * 0.70)] and [val_end = int(n * 0.85)], both
    computed in binary64, the training table is rows [[0, train_end)] of the
    sorted table, the validation table rows [[train_end, val_end)], the
    test table rows [[val_end, n)]; the cut points satisfy
    [0 <= train_end <= val_end <= n] and, up to [2 ^ 46] rows, [val_end] is
    the floor of [17n/20] and [train_end] is the floor of [7n/10], except
    that it is one less exactly when [n] is a multiple [10 * j] of 10 and a
    power of two lies between [7 * j] and [8 * j] (so for 90 rows, with
    [63 <= 64 < 72]); the three tables laid end to end are the sorted
    table, their sizes add up to [n], and no time value of an earlier table
    exceeds one of a later table. *)
Theorem time_split_partition {sorter : SortValues obs_end_date} (table : list Row) :
  Z.of_nat (length table) < 2 ^ 63 →
  let n := Z.of_nat (length table) in
  let df := sort_values table in
  ∃ train_end val_end s,
    cut n lit_0_70 = Ok train_end ∧ cut n lit_0_85 = Ok val_end ∧
    0 <= train_end <= val_end ∧ val_end <= n ∧
    (n <= 2 ^ 46 →
       val_end = 17 * n / 20 ∧
       7 * n / 10 - 1 <= train_end <= 7 * n / 10 ∧
       (train_end = 7 * n / 10 - 1 ↔
        n mod 10 = 0 ∧ ∃ c, 7 * (n / 10) <= 2 ^ c < 8 * (n / 10))) ∧
    time_split obs_end_date table = Ok s ∧
    train_df s = take (Z.to_nat train_end) df ∧
    val_df s = take (Z.to_nat (val_end - train_end)) (drop (Z.to_nat train_end) df) ∧
    test_df s = drop (Z.to_nat val_end) df ∧
    train_df s ++ val_df s ++ test_df s = df ∧
    (length (train_df s) + length (val_df s) + length (test_df s))%nat
      = length table ∧
    (∀ x y, x ∈ train_df s → y ∈ val_df s → obs_end_date x <= obs_end_date y) ∧
    (∀ y z, y ∈ val_df s → z ∈ test_df s → obs_end_date y <= obs_end_date z) ∧
    (∀ x z, x ∈ train_df s → z ∈ test_df s → obs_end_date x <= obs_end_date z).
Proof.
  intros Hn n df.
  assert (length df = length table) as Hlen
    by (apply Permutation_length, sort_values_Permutation).
  destruct (cut_points n) as (a & b & Ha & Hb & Hab & Hbn); [lia|].
  set (s := {| train_df := take (Z.to_nat a) df;
               val_df := take (Z.to_nat (b - a)) (drop (Z.to_nat a) df);
               test_df := drop (Z.to_nat b) df |}).
  assert (train_df s ++ val_df s ++ test_df s = df) as Happ.
  { cbn [s train_df val_df test_df].
    replace (Z.to_nat (b - a)) with (Z.to_nat b - Z.to_nat a)%nat by lia.
    apply three_slices. lia. }
  assert (StronglySorted (by_key obs_end_date) df) as Hs
    by (apply (Sorted_StronglySorted _), sort_values_Sorted).
  rewrite <- Happ in Hs.
  exists a, b, s. split_and!; [done|done|lia|lia|lia| | |done|done|done|done| | | |].
  - intros Hsmall.
    destruct (cut_70_exact n a) as [Hfl Hless]; [lia|done|].
    split; [apply (cut_85_exact n); [lia|done]|done].
  - unfold time_split. fold df. rewrite Hlen. fold n.
    rewrite Ha, bind_Ok, Hb, bind_Ok. cbv [mret result_ret]. f_equal.
    unfold s. f_equal.
    + apply iloc_head. lia.
    + apply iloc_mid; lia.
    + apply iloc_tail. lia.
  - pose proof (f_equal length Happ) as HL. rewrite !length_app in HL. lia.
  - intros x y Hx Hy.
    apply (StronglySorted_app_1_elem_of _ _ _ _ _ Hs Hx).
    apply elem_of_app. by left.
  - intros y z Hy Hz.
    apply StronglySorted_app_1_r in Hs.
    by apply (StronglySorted_app_1_elem_of _ _ _ _ _ Hs).
  - intros x z Hx Hz.
    apply (StronglySorted_app_1_elem_of _ _ _ _ _ Hs Hx).
    apply elem_of_app. by right.
Qed.


End SplitClaims.

Lemma time_split_partition_witness :
  ∃ s, Processing.time_split (sorter := Processing.merge_sort_values id) id
         Examples.ninety_rows = Ok s ∧
       Processing.train_df s ++ Processing.val_df s ++ Processing.test_df s
         = Examples.ninety_rows.
Proof.
  destruct (time_split_partition (sorter := Processing.merge_sort_values id) id
              Examples.ninety_rows)
    as (a & b & s & _ & _ & _ & _ & _ & Hs & _ & _ & _ & Happ & _);
    [vm_compute; reflexivity|].
  exists s. split; [exact Hs|]. rewrite Happ. vm_compute. reflexivity.
Defined.

(** C4 with the exact floor does not hold: on a table of 90 rows the
    training table has 62 rows, one less than the floor of [90 * 70 / 100];
    [90 * 0.70] is [62.99999999999999] in binary64. *)
Lemma train_end_below_floor :
  Processing.cut 90 lit_0_70 = Ok 62 ∧ 70 * 90 / 100 = 63 ∧
  ∃ s, Processing.time_split (sorter := Processing.merge_sort_values id) id
         Examples.ninety_rows = Ok s ∧
       length (Processing.train_df s) = 62%nat ∧
       Processing.train_df s
         ≠ take (Z.to_nat (70 * 90 / 100))
                (Processing.sort_values (SortValues := Processing.merge_sort_values id)
                   Examples.ninety_rows).
Proof.
  split; [by vm_compute|]. split; [by vm_compute|].
  eexists. split; [vm_compute; reflexivity|].
  split; [by vm_compute|]. vm_compute. intros H. discriminate H.
Qed.



(** ** Validation of the raw table *)

Section ValidateClaims.
Import Processing ValidateFacts.

Context {Row : Type} (obs_end_date : Row → Z) {sorter : SortValues obs_end_date}.
Variable feature_steps : DataFrame → result (list Row).
Variable to_datetime : list cell → nat → option Z.

(** C6. On every table that lacks at least one required column the batch
    run fails, before anything else is done, with the error
    "Missing required columns: [...]", and the list in the message holds
    every required column that is missing, each between quotes, not only
    the first. *)
Theorem missing_columns_all_reported (df : DataFrame) :
  Exists (λ c, c ∉ columns df) required_cols →
  ∃ msg,
    main obs_end_date feature_steps to_datetime df = Raise (ValueError msg) ∧
    msg = "Missing required columns: " +:+ repr_list (missing df) ∧
    ∀ c, c ∈ required_cols → c ∉ columns df → occurs_in (repr_str c) msg.
Proof.
  intros (c0 & Hc0 & Hc0')%Exists_exists.
  assert (missing df ≠ []) as Hm.
  { intros Hnil. assert (c0 ∈ missing df) as Hin by (by apply elem_of_missing).
    rewrite Hnil in Hin. by apply elem_of_nil in Hin. }
  eexists. split_and!; [|done|].
  - unfold main, validate. by rewrite (check_required_Raise df Hm).
  - intros c Hc Hc'. apply occurs_in_app_l, occurs_in_repr_list.
    by apply elem_of_missing.
Qed.

(** C7. On every table that has all the required columns: if at least one
    [obs_end_date] entry does not parse, the batch run fails with the error
    "obs_end_date has N unparsable values.", where [N] is the number of
    entries that do not parse, and returns no table; if every entry
    parses, the date check passes and the run goes on with the parsed
    table. *)
Theorem unparsable_dates_counted (df : DataFrame) :
  Forall (λ c, c ∈ columns df) required_cols →
  let col := (λ r, r "obs_end_date") <$> rows df in
  let N := length (filter (λ i, to_datetime col i = None)
                          (seq 0 (length (rows df)))) in
  ((∃ i, (i < length (rows df))%nat ∧ to_datetime col i = None) →
     (0 < N)%nat ∧
     main obs_end_date feature_steps to_datetime df =
       Raise (ValueError ("obs_end_date has " +:+ pretty N
                          +:+ " unparsable values."))) ∧
  ((∀ i, (i < length (rows df))%nat → is_Some (to_datetime col i)) →
     validate to_datetime df = Ok (parse_dates to_datetime df) ∧
     main obs_end_date feature_steps to_datetime df =
       (table ← feature_steps (parse_dates to_datetime df);
        time_split obs_end_date table)).
Proof.
  intros Hreq col N. rewrite Forall_forall in Hreq.
  assert (missing df = []) as Hm.
  { destruct (missing df) as [|c l] eqn:E; [done|].
    assert (c ∈ missing df) as Hc by (rewrite E; left).
    apply elem_of_missing in Hc as [Hc Hc']. by apply Hreq in Hc. }
  pose proof (bad_rows_count to_datetime df) as Hbad. fold col N in Hbad.
  split.
  - intros (i & Hi & Hnone).
    assert (0 < N)%nat as HN.
    { assert (i ∈ filter (λ i, to_datetime col i = None) (seq 0 (length (rows df))))
        as Hin by (apply list_elem_of_filter; split; [done|apply elem_of_seq; lia]).
      unfold N. destruct (filter _ _); [by apply elem_of_nil in Hin|simpl; lia]. }
    split; [done|].
    unfold main. rewrite validate_bad by (done || lia). by rewrite Hbad.
  - intros Hall.
    assert (N = 0%nat) as HN.
    { unfold N. rewrite SplitFacts.filter_none; [done|].
      intros i [_ Hi]%elem_of_seq Hnone.
      destruct (Hall i) as [t Ht]; [lia|congruence]. }
    assert (validate to_datetime df = Ok (parse_dates to_datetime df)) as Hv
      by (apply validate_good; [done|lia]).
    split; [done|]. unfold main. by rewrite Hv.
Qed.

End ValidateClaims.

Lemma missing_columns_all_reported_witness :
  Processing.main (sorter := Processing.merge_sort_values id) id
      Examples.toy_feature_steps Examples.toy_to_datetime
      Examples.table_missing_two
    = Raise (ValueError
        "Missing required columns: ['obs_end_date', 'tokens_per_session_7d']").
Proof.
  destruct (missing_columns_all_reported (sorter := Processing.merge_sort_values id)
              id Examples.toy_feature_steps Examples.toy_to_datetime
              Examples.table_missing_two) as (msg & Hmain & Hmsg & _);
    [compute_done|].
  rewrite Hmain, Hmsg. vm_compute. reflexivity.
Defined.

Lemma unparsable_dates_counted_witness :
  Processing.main (sorter := Processing.merge_sort_values id) id
      Examples.toy_feature_steps Examples.toy_to_datetime
      Examples.table_bad_dates
    = Raise (ValueError "obs_end_date has 2 unparsable values.").
Proof.
  destruct (unparsable_dates_counted (sorter := Processing.merge_sort_values id)
              id Examples.toy_feature_steps Examples.toy_to_datetime
              Examples.table_bad_dates) as [Hbad _];
    [compute_done|].
  destruct Hbad as [_ Hmain];
    [exists 1%nat; split; [simpl; lia|vm_compute; reflexivity]|].
  rewrite Hmain. vm_compute. reflexivity.
Defined.

(** ** More on the auto-fix block *)

Section RepairExtras.
Import App RepairFacts RepairCases.

Lemma eq0_true_gt0 v : eq0 v = true → gt0 v = Ok false.
Proof.
  destruct v as [z|f|?]; simpl; [| |done].
  - intros ->%Z.eqb_eq. done.
  - destruct f as [|[]| |[] ? ?]; by simpl.
Qed.

Lemma zeroed_id v : ne0 v = false → zeroed v = v.
Proof. unfold zeroed. by intros ->. Qed.

Lemma zeroed_fixed v : zeroed v = v → ne0 v = false.
Proof. unfold zeroed. destruct (ne0 v) eqn:E; [by intros <-|done]. Qed.

Lemma rule3_present p fx p' fx' s :
  rule3 (p, fx) = Ok (p', fx') → p !! "sessions_7d" = Some s → eq0 s = true →
  ∃ t k m, p !! "avg_turns_per_session_7d" = Some t ∧
           p !! "tokens_per_session_7d" = Some k ∧
           p !! "model_switch_rate_7d" = Some m.
Proof.
  intros H Hs He. apply rule3_inv in H as (s' & Hs' & H). simplify_eq.
  destruct H as [(? & _)|(_ & [p1 f1] & [p2 f2] & H1 & H2 & H3)]; [congruence|].
  pose proof (zero_metric_post _ _ _ _ _ H1) as (_ & E1 & _).
  pose proof (zero_metric_post _ _ _ _ _ H2) as (_ & E2 & _).
  apply zero_metric_inv in H1 as (t & Ht & _).
  apply zero_metric_inv in H2 as (k & Hk & _).
  apply zero_metric_inv in H3 as (m & Hm & _).
  exists t, k, m. split_and!; [done|by rewrite <- E1|by rewrite <- E1, <- E2].
Qed.

(** X1. On the payload the form builds, whatever the numbers entered
    (negative counts and NaN included), the block does not raise, and in
    the record it returns the two counts are still integers and the three
    per-session metrics still floats. *)
Theorem repair_form_payload (w : form) :
  ∃ p' fx,
    repair (payload w) = Ok (p', fx) ∧
    (∃ z, p' !! "sessions_7d" = Some (VInt z)) ∧
    (∃ z, p' !! "active_days_7d" = Some (VInt z)) ∧
    (∃ f, p' !! "avg_turns_per_session_7d" = Some (VFloat f)) ∧
    (∃ f, p' !! "tokens_per_session_7d" = Some (VFloat f)) ∧
    (∃ f, p' !! "model_switch_rate_7d" = Some (VFloat f)).
Proof.
  assert (payload w !! "sessions_7d" = Some (VInt (sessions_7d w))) as Hs by done.
  assert (payload w !! "active_days_7d" = Some (VInt (active_days_7d w))) as Ha by done.
  assert (payload w !! "avg_turns_per_session_7d"
          = Some (VFloat (avg_turns_per_session_7d w))) as Ht by done.
  assert (payload w !! "tokens_per_session_7d"
          = Some (VFloat (tokens_per_session_7d w))) as Hk by done.
  assert (payload w !! "model_switch_rate_7d"
          = Some (VFloat (model_switch_rate_7d w))) as Hm by done.
  destruct (repair_total_numeric _ _ _ _ _ _ _ _ Hs Ha Ht Hk Hm eq_refl eq_refl)
    as (p' & fx & H).
  exists p', fx. split; [done|].
  set (p := payload w) in *.
  apply repair_cases in H
    as [(s & a & _ & _ & _ & _ & -> & _)|[(s & a & _ & _ & Ha' & _ & -> & _)|(_ & _ & H3)]].
  - rewrite lookup_insert_eq, !lookup_insert_ne by done. eauto 10.
  - rewrite lookup_insert_eq, !lookup_insert_ne by done.
    assert (a = VInt (active_days_7d w)) as -> by congruence. eauto 10.
  - destruct (eq0 (VInt (sessions_7d w))) eqn:He.
    + rewrite (rule3_zero p [] _ _ _ _ Hs He Ht Hk Hm) in H3. simplify_eq.
      rewrite !lookup_insert_eq, !lookup_insert_ne, !lookup_insert_eq by done.
      rewrite !lookup_insert_ne by done.
      split_and!; [by eexists..| | |];
        unfold zeroed; (destruct (ne0 _); by eexists).
    + rewrite (rule3_skip p [] _ Hs He) in H3. simplify_eq. eauto 10.
Qed.

(** X2. The list of fixes is empty exactly when the block changed nothing:
    every assignment it makes changes a value and is recorded. *)
Theorem repair_audit_empty_iff_unchanged (p p' : gmap string value) (fx : list string) :
  repair p = Ok (p', fx) → (fx = [] ↔ p' = p).
Proof.
  intros [(s & a & Hs & Hgs & Ha & Hea & -> & ->)
         |[(s & a & Hs & Hes & Ha & Hga & -> & ->)|(_ & _ & H3)]]%repair_cases.
  - split; [done|]. intros Heq. exfalso.
    assert (Some (VInt 1) = Some a) as [= <-]
      by (by rewrite <- Ha, <- Heq, lookup_insert_eq).
    done.
  - split; [done|]. intros Heq. exfalso.
    assert (Some a = Some s) as [= <-]
      by (by rewrite <- Hs, <- Heq, lookup_insert_eq).
    rewrite (gt0_true_eq0 a Hga) in Hes. done.
  - pose proof H3 as H3'. apply rule3_inv in H3' as (s & Hs & [(He & -> & ->)|(He & _)]);
      [done|].
    destruct (rule3_present _ _ _ _ _ H3 Hs He) as (t & k & m & Ht & Hk & Hm).
    rewrite (rule3_zero p [] s t k m Hs He Ht Hk Hm) in H3. simplify_eq. split.
    + intros Hnil. apply app_eq_nil in Hnil as [Hnil1 Hnil].
      apply app_eq_nil in Hnil as [Hnil2 Hnil3].
      assert (ne0 t = false) as Nt
        by (unfold zero_note in Hnil1; by destruct (ne0 t)).
      assert (ne0 k = false) as Nk
        by (unfold zero_note in Hnil2; by destruct (ne0 k)).
      assert (ne0 m = false) as Nm
        by (unfold zero_note in Hnil3; by destruct (ne0 m)).
      rewrite !zeroed_id by done.
      rewrite (insert_id p) by done.
      rewrite (insert_id p) by done. by rewrite insert_id.
    + intros Heq.
      assert (zeroed t = t) as Zt.
      { pose proof (f_equal (λ q : gmap string value,
                       q !! "avg_turns_per_session_7d") Heq) as E. cbn in E.
        rewrite !lookup_insert_ne, lookup_insert_eq, Ht in E by done.
        by injection E. }
      assert (zeroed k = k) as Zk.
      { pose proof (f_equal (λ q : gmap string value,
                       q !! "tokens_per_session_7d") Heq) as E. cbn in E.
        rewrite lookup_insert_ne, lookup_insert_eq, Hk in E by done.
        by injection E. }
      assert (zeroed m = m) as Zm.
      { pose proof (f_equal (λ q : gmap string value,
                       q !! "model_switch_rate_7d") Heq) as E. cbn in E.
        rewrite lookup_insert_eq, Hm in E. by injection E. }
      unfold zero_note.
      by rewrite (zeroed_fixed t), (zeroed_fixed k), (zeroed_fixed m).
Qed.

(** X3. A repaired count excludes any other fix: the list of fixes is the
    one message of the first rule, or the one message of the second rule,
    or some of the three messages of the last rule, in the order of the
    tests; so it never holds more than three entries. *)
Theorem repair_fixes_shape (p p' : gmap string value) (fx : list string) :
  repair p = Ok (p', fx) →
  (fx = ["active_days_7d set to 1 because sessions_7d > 0"] ∨
   fx = ["sessions_7d set to active_days_7d because active_days_7d > 0"] ∨
   sublist fx ["avg_turns_per_session_7d set to 0 because sessions_7d = 0";
               "tokens_per_session_7d set to 0 because sessions_7d = 0";
               "model_switch_rate_7d set to 0 because sessions_7d = 0"]) ∧
  (length fx ≤ 3)%nat.
Proof.
  intros [(s & a & _ & _ & _ & _ & _ & ->)
         |[(s & a & _ & _ & _ & _ & _ & ->)|(_ & _ & H3)]]%repair_cases.
  - split; [by left|simpl; lia].
  - split; [by right; left|simpl; lia].
  - pose proof H3 as H3'.
    apply rule3_inv in H3' as (s & Hs & [(He & _ & ->)|(He & _)]).
    { split; [right; right; apply sublist_nil_l|simpl; lia]. }
    destruct (rule3_present _ _ _ _ _ H3 Hs He) as (t & k & m & Ht & Hk & Hm).
    rewrite (rule3_zero p [] s t k m Hs He Ht Hk Hm) in H3. simplify_eq.
    unfold zero_note, metric_msg.
    destruct (ne0 t), (ne0 k), (ne0 m); cbn;
      (split; [right; right; repeat constructor|lia]).
Qed.

(** X4. With no sessions and no active day the block touches the three
    per-session metrics only: each one that is not zero is set to [0.0], and
    the fixes are the messages of exactly those, in the order of the
    tests. *)
Theorem repair_idle_zeroes (p : gmap string value) (s a t k m : value) :
  p !! "sessions_7d" = Some s → p !! "active_days_7d" = Some a →
  p !! "avg_turns_per_session_7d" = Some t →
  p !! "tokens_per_session_7d" = Some k →
  p !! "model_switch_rate_7d" = Some m →
  eq0 s = true → eq0 a = true →
  repair p =
    Ok (<["model_switch_rate_7d" := if ne0 m then VFloat f0 else m]>
        (<["tokens_per_session_7d" := if ne0 k then VFloat f0 else k]>
        (<["avg_turns_per_session_7d" := if ne0 t then VFloat f0 else t]> p)),
        (if ne0 t
         then ["avg_turns_per_session_7d set to 0 because sessions_7d = 0"]
         else []) ++
        (if ne0 k
         then ["tokens_per_session_7d set to 0 because sessions_7d = 0"]
         else []) ++
        (if ne0 m
         then ["model_switch_rate_7d set to 0 because sessions_7d = 0"]
         else [])).
Proof.
  intros Hs Ha Ht Hk Hm Hes Hea. unfold repair.
  rewrite rule1_noop, bind_Ok; last first.
  { by rewrite (cond1_counts p s a Hs Ha), (eq0_true_gt0 s Hes). }
  rewrite rule2_noop, bind_Ok; last first.
  { by rewrite (cond2_counts p s a Hs Ha), (eq0_true_gt0 a Hea). }
  by rewrite (rule3_zero p [] s t k m Hs Hes Ht Hk Hm).
Qed.

(** X5. With sessions but no active day the block sets [active_days_7d] to
    the integer 1 and nothing else: the per-session metrics keep their
    values, zero or not, and the one fix recorded is that of the first
    rule. *)
Theorem repair_sessions_without_days (p : gmap string value) (s a : value) :
  p !! "sessions_7d" = Some s → p !! "active_days_7d" = Some a →
  gt0 s = Ok true → eq0 a = true →
  repair p = Ok (<["active_days_7d" := VInt 1]> p,
                 ["active_days_7d set to 1 because sessions_7d > 0"]).
Proof.
  intros Hs Ha Hgs Hea. unfold repair, rule1.
  rewrite (cond1_counts p s a Hs Ha), Hgs, bind_Ok, Hea. cbn.
  unfold rule2. rewrite (cond2_counts _ s (VInt 1)) by (by simplify_map_eq).
  cbn. rewrite (gt0_true_eq0 s Hgs). cbn.
  apply (rule3_skip _ _ s); [by rewrite lookup_insert_ne|by apply gt0_true_eq0].
Qed.

(** X6. A record that already satisfies the consistency invariant, with a
    non-negative [sessions_7d], is returned as it is, with no fix. *)
Theorem repair_consistent_unchanged (p : gmap string value) (s : value) :
  p !! "sessions_7d" = Some s → nonneg s → consistent p →
  repair p = Ok (p, []).
Proof.
  intros Hs Ns (s' & a & t & k & m & Hs' & Ha & Ht & Hk & Hm & Hz & Hp).
  assert (s' = s) as -> by congruence. clear Hs'. unfold repair.
  destruct (nonneg_gt0_or_eq0 s Ns) as [[Hg He]|[Hg He]].
  - pose proof (Hp Hg) as Hga.
    rewrite rule1_noop, bind_Ok; last first.
    { by rewrite (cond1_counts p s a Hs Ha), Hg, bind_Ok, (gt0_true_eq0 a Hga). }
    rewrite rule2_noop, bind_Ok; last first.
    { by rewrite (cond2_counts p s a Hs Ha), Hga, bind_Ok, He. }
    by apply (rule3_skip p [] s).
  - destruct (Hz He) as (Hea & Het & Hek & Hem).
    rewrite rule1_noop, bind_Ok; last first.
    { by rewrite (cond1_counts p s a Hs Ha), Hg. }
    rewrite rule2_noop, bind_Ok; last first.
    { by rewrite (cond2_counts p s a Hs Ha), (eq0_true_gt0 a Hea). }
    rewrite (rule3_zero p [] s t k m Hs He Ht Hk Hm).
    unfold zero_note, zeroed, ne0. rewrite Het, Hek, Hem. cbn.
    rewrite (insert_id p) by done.
    rewrite (insert_id p) by done. by rewrite insert_id.
Qed.

End RepairExtras.

Lemma repair_audit_empty_iff_unchanged_witness :
  @nil string = [] ↔
  App.payload MoreExamples.form_default = App.payload MoreExamples.form_default.
Proof.
  apply (repair_audit_empty_iff_unchanged (App.payload MoreExamples.form_default)).
  vm_compute. reflexivity.
Defined.

Lemma repair_fixes_shape_witness :
  (length ["avg_turns_per_session_7d set to 0 because sessions_7d = 0";
           "tokens_per_session_7d set to 0 because sessions_7d = 0";
           "model_switch_rate_7d set to 0 because sessions_7d = 0"] ≤ 3)%nat.
Proof.
  eapply (proj2 (repair_fixes_shape (App.payload Examples.form_idle) _ _ _)).
  Unshelve. 2: { vm_compute. reflexivity. }
Defined.

Lemma repair_idle_zeroes_witness :
  ∃ p', App.repair (App.payload Examples.form_idle) =
          Ok (p', ["avg_turns_per_session_7d set to 0 because sessions_7d = 0";
                   "tokens_per_session_7d set to 0 because sessions_7d = 0";
                   "model_switch_rate_7d set to 0 because sessions_7d = 0"]).
Proof.
  eexists.
  rewrite (repair_idle_zeroes (App.payload Examples.form_idle)
             (VInt 0) (VInt 0) (VFloat (float_of_Z 8)) (VFloat (float_of_Z 500))
             (VFloat (float_of_ratio 10 100)));
    [|vm_compute; reflexivity..].
  vm_compute. reflexivity.
Defined.

Lemma repair_sessions_without_days_witness :
  App.repair (App.payload MoreExamples.form_sessions_only) =
    Ok (<["active_days_7d" := VInt 1]> (App.payload MoreExamples.form_sessions_only),
        ["active_days_7d set to 1 because sessions_7d > 0"]).
Proof.
  apply (repair_sessions_without_days (App.payload MoreExamples.form_sessions_only)
           (VInt 10) (VInt 0)); vm_compute; reflexivity.
Defined.

Lemma repair_consistent_unchanged_witness :
  App.repair (App.payload MoreExamples.form_default)
    = Ok (App.payload MoreExamples.form_default, []).
Proof.
  apply (repair_consistent_unchanged (App.payload MoreExamples.form_default) (VInt 8));
    [vm_compute; reflexivity|simpl; lia|].
  exists (VInt 8), (VInt 3), (VFloat (float_of_Z 8)), (VFloat (float_of_Z 300)),
    (VFloat (float_of_ratio 10 100)).
  split_and!; [vm_compute; reflexivity..|discriminate|reflexivity].
Defined.

(** ** More on scoring *)

Section PredictExtras.
Import Inference InferenceFacts PredictFacts.

Variable FEATURES : list string.
Variable XGB : frame1 → result spec_float.
Variable LOGREG_PIPE : frame1 → result spec_float.

(** X7. A model choice that is none of "xgb", "xgboost", "logreg",
    "logistic" (in any letter case) makes [predict] raise
    [ValueError("model_choice must be 'xgb' or 'logreg'")], whatever the
    payload and the threshold, and no model is called. *)
Theorem predict_unknown_model (payload : gmap string value) (model_choice : string)
    (threshold : spec_float) :
  lower model_choice ∉ ["xgb"; "xgboost"; "logreg"; "logistic"] →
  predict FEATURES XGB LOGREG_PIPE payload model_choice threshold =
    Raise (ValueError "model_choice must be 'xgb' or 'logreg'").
Proof. apply predict_other. Qed.

(** X8. The model choice is read without regard to letter case: a choice
    and its lower-case form give the same result. *)
Theorem predict_case_insensitive (payload : gmap string value)
    (model_choice : string) (threshold : spec_float) :
  predict FEATURES XGB LOGREG_PIPE payload model_choice threshold =
  predict FEATURES XGB LOGREG_PIPE payload (lower model_choice) threshold.
Proof. unfold predict. by rewrite lower_idemp. Qed.

(** X9. Only the chosen model is consulted: with an xgb choice the result
    does not depend on the logistic pipeline, with a logreg choice it does
    not depend on the xgb model; and an exception of the chosen model is
    the result of [predict]. *)
Theorem predict_routing (payload : gmap string value) (model_choice : string)
    (threshold : spec_float) :
  (lower model_choice ∈ ["xgb"; "xgboost"] →
     (∀ other, predict FEATURES XGB other payload model_choice threshold =
               predict FEATURES XGB LOGREG_PIPE payload model_choice threshold) ∧
     (∀ e, XGB (prepared FEATURES payload) = Raise e →
           predict FEATURES XGB LOGREG_PIPE payload model_choice threshold = Raise e)) ∧
  (lower model_choice ∈ ["logreg"; "logistic"] →
     (∀ other, predict FEATURES other LOGREG_PIPE payload model_choice threshold =
               predict FEATURES XGB LOGREG_PIPE payload model_choice threshold) ∧
     (∀ e, LOGREG_PIPE (prepared FEATURES payload) = Raise e →
           predict FEATURES XGB LOGREG_PIPE payload model_choice threshold = Raise e)).
Proof.
  split; intros Hmc; split.
  - intros other. by rewrite !predict_xgb.
  - intros e He. by rewrite predict_xgb, He.
  - intros other. by rewrite !predict_logreg.
  - intros e He. by rewrite predict_logreg, He.
Qed.

(** X10. The result depends on the payload through the features only: two
    payloads that agree on every feature (present with the same value, or
    absent from both) give the same result, whatever else they hold. *)
Theorem predict_features_only (payload1 payload2 : gmap string value)
    (model_choice : string) (threshold : spec_float) :
  Forall (λ c, payload1 !! c = payload2 !! c) FEATURES →
  _prep FEATURES payload1 = _prep FEATURES payload2 ∧
  predict FEATURES XGB LOGREG_PIPE payload1 model_choice threshold =
  predict FEATURES XGB LOGREG_PIPE payload2 model_choice threshold.
Proof.
  intros Hagree. rewrite Forall_forall in Hagree.
  assert (_prep FEATURES payload1 = _prep FEATURES payload2) as Hprep.
  { rewrite !prep_closed_form. f_equal. apply list_fmap_ext.
    intros i c Hc. rewrite Hagree; [done|]. by eapply list_elem_of_lookup_2. }
  split; [done|]. unfold predict. by rewrite Hprep.
Qed.

(** X11. When the chosen model returns NaN, or the threshold is NaN, the
    prediction is 0, whatever the other model does. *)
Theorem predict_nan (payload : gmap string value) (model_choice : string)
    (prob threshold : spec_float) :
  (lower model_choice ∈ ["xgb"; "xgboost"] ∧
   XGB (prepared FEATURES payload) = Ok prob) ∨
  (lower model_choice ∈ ["logreg"; "logistic"] ∧
   LOGREG_PIPE (prepared FEATURES payload) = Ok prob) →
  prob = S754_nan ∨ threshold = S754_nan →
  ∃ out, predict FEATURES XGB LOGREG_PIPE payload model_choice threshold = Ok out ∧
         out !! "churn_prediction" = Some (VInt 0).
Proof.
  intros Hchosen Hnan. exists (output prob threshold).
  assert (float_ge prob threshold = false) as Hge.
  { unfold float_ge, SFleb. destruct Hnan as [-> | ->]; [by destruct threshold|done]. }
  split; [|unfold output; by rewrite Hge].
  by apply predict_chosen.
Qed.

(** X12. Lowering the threshold never turns a positive prediction into a
    negative one: when the chosen model returns a probability on the
    prepared frame (whatever the other model does), if the prediction is 1
    at a threshold, it is 1 at every threshold below it. *)
Theorem predict_threshold_monotone (payload : gmap string value)
    (model_choice : string) (prob t1 t2 : spec_float) :
  (lower model_choice ∈ ["xgb"; "xgboost"] ∧
   XGB (prepared FEATURES payload) = Ok prob) ∨
  (lower model_choice ∈ ["logreg"; "logistic"] ∧
   LOGREG_PIPE (prepared FEATURES payload) = Ok prob) →
  float_ge t2 t1 = true →
  ∃ out1 out2,
    predict FEATURES XGB LOGREG_PIPE payload model_choice t1 = Ok out1 ∧
    predict FEATURES XGB LOGREG_PIPE payload model_choice t2 = Ok out2 ∧
    (out2 !! "churn_prediction" = Some (VInt 1) →
     out1 !! "churn_prediction" = Some (VInt 1)).
Proof.
  intros Hchosen Ht. exists (output prob t1), (output prob t2).
  split_and!; [by apply predict_chosen..|].
  unfold output. rewrite !lookup_insert_ne, !lookup_insert_eq by done.
  unfold float_ge in *.
  destruct (SFleb t2 prob) eqn:H2; [|done]. intros _.
  by rewrite (SFleb_trans t1 t2 prob).
Qed.

End PredictExtras.

Section TrainExtras.
Import Inference InferenceFacts.

(** X13. Serving with the feature list that training saves: the frame
    [_prep] builds has the columns of the training table without
    [user_id], [obs_end_date] and the label [churned_14d], in the order of
    the training table; so a payload field of one of those three names
    never reaches the model. *)
Theorem prep_with_training_features (columns_train : list string)
    (payload : gmap string value) :
  ∃ X,
    _prep (Train.feature_cols columns_train) payload = Ok X ∧
    columns X = Train.feature_cols columns_train ∧
    sublist (columns X) columns_train ∧
    (∀ c, c ∈ columns X ↔
          c ∈ columns_train ∧ c ≠ "user_id" ∧ c ≠ "obs_end_date" ∧ c ≠ "churned_14d").
Proof.
  exists ((λ c, (c, default (VInt 0) (payload !! c))) <$> Train.feature_cols columns_train).
  assert (columns ((λ c, (c, default (VInt 0) (payload !! c)))
                     <$> Train.feature_cols columns_train)
          = Train.feature_cols columns_train) as Hcols.
  { unfold columns. rewrite <- list_fmap_compose. apply list_fmap_id. }
  split_and!.
  - apply prep_closed_form.
  - done.
  - rewrite Hcols. apply sublist_filter.
  - intros c. rewrite Hcols. unfold Train.feature_cols.
    rewrite list_elem_of_filter.
    unfold Train.drop_cols, Train.label_col. cbn [app].
    rewrite !not_elem_of_cons. split.
    + intros [(? & ? & ? & _) ?]. done.
    + intros (? & ? & ? & ?). split_and!; (done || apply not_elem_of_nil).
Qed.

End TrainExtras.

Lemma predict_unknown_model_witness :
  Inference.predict Examples.features Examples.model_0_40 Examples.model_0_40
      Examples.raw_record "SVM" lit_0_35
    = Raise (ValueError "model_choice must be 'xgb' or 'logreg'").
Proof.
  apply (predict_unknown_model Examples.features Examples.model_0_40
           Examples.model_0_40 Examples.raw_record "SVM" lit_0_35).
  compute_done.
Defined.

Lemma predict_features_only_witness :
  Inference._prep Examples.features Examples.raw_record
    = Inference._prep Examples.features MoreExamples.raw_record_extra ∧
  Inference.predict Examples.features Examples.model_0_40 Examples.model_0_40
      Examples.raw_record "xgb" lit_0_35
    = Inference.predict Examples.features Examples.model_0_40 Examples.model_0_40
        MoreExamples.raw_record_extra "xgb" lit_0_35.
Proof.
  apply (predict_features_only Examples.features Examples.model_0_40
           Examples.model_0_40 Examples.raw_record MoreExamples.raw_record_extra).
  unfold Examples.features.
  repeat (apply Forall_cons; split; [vm_compute; reflexivity|]).
  apply Forall_nil_2.
Defined.

Lemma predict_nan_witness :
  ∃ out, Inference.predict Examples.features MoreExamples.model_broken
           MoreExamples.model_by_tokens Examples.raw_record "logistic" S754_nan
           = Ok out ∧
         out !! "churn_prediction" = Some (VInt 0).
Proof.
  apply (predict_nan Examples.features MoreExamples.model_broken
           MoreExamples.model_by_tokens Examples.raw_record "logistic"
           lit_0_40 S754_nan);
    [right; split; [compute_done|vm_compute; reflexivity]|by right].
Defined.

Lemma predict_threshold_monotone_witness :
  ∃ out1 out2,
    Inference.predict Examples.features MoreExamples.model_by_tokens
      MoreExamples.model_broken Examples.raw_record "xgb" lit_0_35 = Ok out1 ∧
    Inference.predict Examples.features MoreExamples.model_by_tokens
      MoreExamples.model_broken Examples.raw_record "xgb" lit_0_40 = Ok out2 ∧
    (out2 !! "churn_prediction" = Some (VInt 1) →
     out1 !! "churn_prediction" = Some (VInt 1)).
Proof.
  apply (predict_threshold_monotone Examples.features MoreExamples.model_by_tokens
           MoreExamples.model_broken Examples.raw_record "xgb"
           lit_0_40 lit_0_35 lit_0_40);
    [left; split; [compute_done|vm_compute; reflexivity]|vm_compute; reflexivity].
Defined.

(** ** More on the split and on validation *)

Section SplitExtras.
Import Processing SplitFacts SplitShape.

Context {Row : Type} (obs_end_date : Row → Z) {sorter : SortValues obs_end_date}.

(** X14. The split loses and duplicates no row: for a table of fewer than
    [2 ^ 63] rows it returns three tables which, put together, hold the
    rows of the input table, each as many times as the input does. *)
Theorem time_split_keeps_rows (table : list Row) :
  Z.of_nat (length table) < 2 ^ 63 →
  ∃ s, time_split obs_end_date table = Ok s ∧
       train_df s ++ val_df s ++ test_df s ≡ₚ table.
Proof.
  intros Hn.
  destruct (time_split_shape obs_end_date table Hn) as (a & b & _ & _ & Hab & Hbn & Hs).
  eexists. split; [exact Hs|]. cbn [train_df val_df test_df].
  replace (Z.to_nat (b - a)) with (Z.to_nat b - Z.to_nat a)%nat by lia.
  rewrite three_slices by lia. apply sort_values_Permutation.
Qed.

(** X15. Which of the three tables are empty depends on the number [n] of
    rows only: the training table is empty exactly when [n <= 1], the
    validation table exactly when [n <= 3], the test table exactly when
    the input is empty. *)
Theorem time_split_empty_parts (table : list Row) :
  Z.of_nat (length table) < 2 ^ 63 →
  ∃ s, time_split obs_end_date table = Ok s ∧
       (train_df s = [] ↔ (length table ≤ 1)%nat) ∧
       (val_df s = [] ↔ (length table ≤ 3)%nat) ∧
       (test_df s = [] ↔ table = []).
Proof.
  intros Hn.
  destruct (time_split_shape obs_end_date table Hn)
    as (a & b & Ha & Hb & Hab & Hbn & Hs).
  destruct (cut_points_edges (Z.of_nat (length table)) a b) as (E1 & E2 & E3);
    [lia|done|done|].
  assert (length (sort_values table) = length table) as Hlen
    by (apply Permutation_length, sort_values_Permutation).
  eexists. split; [exact Hs|]. cbn [train_df val_df test_df].
  rewrite <- !length_zero_iff_nil.
  rewrite !length_take, !length_drop, Hlen. split_and!; lia.
Qed.

End SplitExtras.

Section ValidateExtras.
Import Processing ValidateFacts.

Variable to_datetime : list cell → nat → option Z.

(** X16. A table that passes validation keeps its columns and its number
    of rows, every [obs_end_date] cell of the result is a parsed date
    (none is [NaT]), and every other cell is the cell of the input. *)
Theorem validate_Ok_dates (df df' : DataFrame) :
  validate to_datetime df = Ok df' →
  columns df' = columns df ∧
  length (rows df') = length (rows df) ∧
  Forall (λ r, ∃ t, r "obs_end_date" = Timestamp t) (rows df') ∧
  (∀ i r r' c, rows df !! i = Some r → rows df' !! i = Some r' →
               c ≠ "obs_end_date" → r' c = r c).
Proof.
  unfold validate. intros ([] & Hreq & H)%bind_Ok_inv.
  assert (missing df = []) as Hm.
  { unfold check_required in Hreq. by destruct (missing df). }
  destruct (existsb _ _) eqn:He; [done|]. injection H as <-.
  split_and!.
  - unfold parse_dates. cbn [columns]. rewrite decide_True; [done|].
    destruct (decide ("obs_end_date" ∈ columns df)) as [|Hout]; [done|].
    assert ("obs_end_date" ∈ missing df) as Hin
      by (apply elem_of_missing; split; [compute_done|done]).
    rewrite Hm in Hin. by apply elem_of_nil in Hin.
  - unfold parse_dates. cbn [rows]. apply length_imap.
  - apply Forall_forall. intros r Hr.
    assert (isna (r "obs_end_date") = false) as Hna.
    { destruct (isna (r "obs_end_date")) eqn:E; [|done].
      assert (existsb (λ r, isna (r "obs_end_date"))
                (rows (parse_dates to_datetime df)) = true) as Ht; [|congruence].
      apply existsb_exists. exists r. split; [by apply list_elem_of_In|done]. }
    unfold parse_dates in Hr. cbn [rows] in Hr.
    apply elem_of_lookup_imap in Hr as (i & r0 & -> & _).
    rewrite fn_lookup_insert in Hna |- *. unfold parsed in *.
    destruct (to_datetime _ i); [by eexists|done].
  - intros i r r' c Hr Hr' Hc. unfold parse_dates in Hr'. cbn [rows] in Hr'.
    rewrite list_lookup_imap, Hr in Hr'. cbn in Hr'. injection Hr' as <-.
    by rewrite fn_lookup_insert_ne.
Qed.

(** X17. The required-column check passes exactly when the five required
    columns are all among the columns of the table; other columns, and the
    order of the columns, play no part. *)
Theorem check_required_iff (df : DataFrame) :
  check_required df = Ok () ↔ Forall (λ c, c ∈ columns df) required_cols.
Proof.
  rewrite Forall_forall. split.
  - intros Hok c Hc. destruct (decide (c ∈ columns df)) as [|Hout]; [done|].
    assert (c ∈ missing df) as Hin by (by apply elem_of_missing).
    unfold check_required in Hok. destruct (missing df); [|done].
    by apply elem_of_nil in Hin.
  - intros Hall. apply check_required_Ok.
    destruct (missing df) as [|c l] eqn:E; [done|].
    assert (c ∈ missing df) as Hc by (rewrite E; left).
    apply elem_of_missing in Hc as [Hc Hc']. by apply Hall in Hc.
Qed.

End ValidateExtras.

Lemma time_split_keeps_rows_witness :
  ∃ s, Processing.time_split (sorter := Processing.merge_sort_values id) id
         Examples.ninety_rows = Ok s ∧
       Processing.train_df s ++ Processing.val_df s ++ Processing.test_df s
         ≡ₚ Examples.ninety_rows.
Proof.
  apply (time_split_keeps_rows (sorter := Processing.merge_sort_values id) id
           Examples.ninety_rows).
  vm_compute. reflexivity.
Defined.

Lemma time_split_empty_parts_witness :
  ∃ s, Processing.time_split (sorter := Processing.merge_sort_values fst) fst
         Examples.two_rows = Ok s ∧
       (Processing.train_df s = [] ↔ (length Examples.two_rows ≤ 1)%nat) ∧
       (Processing.val_df s = [] ↔ (length Examples.two_rows ≤ 3)%nat) ∧
       (Processing.test_df s = [] ↔ Examples.two_rows = []).
Proof.
  apply (time_split_empty_parts (sorter := Processing.merge_sort_values fst) fst
           Examples.two_rows).
  vm_compute. reflexivity.
Defined.

Lemma validate_Ok_dates_witness :
  let df := MoreExamples.table_good_dates in
  let df' := Processing.parse_dates Examples.toy_to_datetime df in
  Processing.validate Examples.toy_to_datetime df = Ok df' ∧
  Processing.columns df' = Processing.columns df ∧
  length (Processing.rows df') = length (Processing.rows df) ∧
  Forall (λ r, ∃ t, r "obs_end_date" = Processing.Timestamp t)
         (Processing.rows df').
Proof.
  intros df df'.
  assert (Processing.validate Examples.toy_to_datetime df = Ok df') as Hok
    by (vm_compute; reflexivity).
  split; [exact Hok|].
  destruct (validate_Ok_dates Examples.toy_to_datetime df df' Hok)
    as (Hc & Hl & Hd & _).
  by split_and!.
Defined.

(** ** Locating and reading the input *)

Section LoadingExtras.
Import Processing Loading LoadingFacts ValidateFacts.

Variable glob : string → list string.
Variable read_parquet read_csv : string → result DataFrame.
Variable concat : list DataFrame → DataFrame.
Variable str : exn → string.

(** X18. When the listing under the prefix holds no file to read (nothing
    but folder markers, delimiter objects, and files that neither end in
    [.parquet] or [.csv] nor have a name without a dot), and so also when
    it is empty, [read_s3_prefix] raises
    [ValueError("No readable data files found under prefix: ...")] with the
    prefix as it was given; no reader is called. *)
Theorem read_s3_prefix_nothing_to_read (prefix : string) :
  Forall (λ f, is_data_file f && (is_parquet f || is_csv f || is_noext f) = false)
         (glob (rstrip_slash prefix +:+ "/**")) →
  read_s3_prefix glob read_parquet read_csv concat prefix =
    Raise (ValueError ("No readable data files found under prefix: " +:+ prefix)).
Proof.
  intros Hnone. rewrite Forall_forall in Hnone.
  assert (∀ P : string → bool,
            (∀ f, P f = true → is_parquet f || is_csv f || is_noext f = true) →
            filter (λ f, P f = true) (data_files glob prefix) = []) as Hempty.
  { intros P HP. apply SplitFacts.filter_none. intros f Hf HPf.
    unfold data_files in Hf. apply list_elem_of_filter in Hf as [Hd Hf].
    apply Hnone in Hf. rewrite Hd, (HP f HPf) in Hf. done. }
  unfold read_s3_prefix.
  rewrite (Hempty is_parquet), (Hempty is_csv), (Hempty is_noext); [done|..].
  - intros f ->. by rewrite orb_true_r.
  - intros f ->. by rewrite orb_true_r.
  - by intros f ->.
Qed.

(** X19. Parquet files win: when at least one listed file ends in
    [.parquet] (in any letter case), the result is the concatenation of the
    parquet files alone, read in the order of the listing, or the first
    exception one of them raises; CSV files and files without extension
    under the same prefix are not read. *)
Theorem read_s3_prefix_parquet_first (prefix : string) :
  Exists (λ f, is_parquet f = true) (data_files glob prefix) →
  read_s3_prefix glob read_parquet read_csv concat prefix =
    (dfs ← mapM read_parquet
              (s3_url <$> filter (λ f, is_parquet f = true) (data_files glob prefix));
     mret (concat dfs)) ∧
  ∀ other_csv,
    read_s3_prefix glob read_parquet other_csv concat prefix =
    read_s3_prefix glob read_parquet read_csv concat prefix.
Proof.
  intros (f & Hf & Hpq)%Exists_exists.
  assert (∀ rc, read_s3_prefix glob read_parquet rc concat prefix =
    (dfs ← mapM read_parquet
              (s3_url <$> filter (λ f, is_parquet f = true) (data_files glob prefix));
     mret (concat dfs))) as Hall.
  { intros rc. unfold read_s3_prefix.
    destruct (filter (λ f, is_parquet f = true) (data_files glob prefix))
      as [|x l] eqn:E; [|done].
    assert (f ∈ filter (λ f, is_parquet f = true) (data_files glob prefix)) as Hin
      by (by apply list_elem_of_filter).
    rewrite E in Hin. by apply elem_of_nil in Hin. }
  split; [apply Hall|]. intros rc. by rewrite !Hall.
Qed.

(** X20. Only listed files are read, through their [s3://] address, and
    never a folder marker or a delimiter object: two pairs of readers that
    agree on the addresses of the listed data files give the same
    result. *)
Theorem read_s3_prefix_reads_listed_only (prefix : string)
    (read_parquet' read_csv' : string → result DataFrame) :
  Forall (λ f, read_parquet' (s3_url f) = read_parquet (s3_url f) ∧
               read_csv' (s3_url f) = read_csv (s3_url f))
         (data_files glob prefix) →
  read_s3_prefix glob read_parquet' read_csv' concat prefix =
  read_s3_prefix glob read_parquet read_csv concat prefix.
Proof.
  intros Hagree. rewrite Forall_forall in Hagree.
  assert (∀ (P : string → Prop) `{!∀ f, Decision (P f)} u,
            u ∈ s3_url <$> filter P (data_files glob prefix) →
            read_parquet' u = read_parquet u ∧ read_csv' u = read_csv u) as Hin.
  { intros P ? u (f & -> & Hf)%list_elem_of_fmap.
    apply list_elem_of_filter in Hf as [_ Hf]. by apply Hagree. }
  unfold read_s3_prefix.
  destruct (s3_url <$> filter (λ f, is_parquet f = true) (data_files glob prefix))
    as [|x l] eqn:Epq.
  - destruct (s3_url <$> filter (λ f, is_csv f = true) (data_files glob prefix))
      as [|y k] eqn:Ecsv.
    + destruct (s3_url <$> filter (λ f, is_noext f = true) (data_files glob prefix))
        as [|z j] eqn:Eno; [done|].
      rewrite (mapM_ext_in (read_either read_parquet' read_csv')
                 (read_either read_parquet read_csv)); [done|].
      intros u Hu. rewrite <- Eno in Hu. apply Hin in Hu as [Hp Hc].
      unfold read_either. by rewrite Hp, Hc.
    + rewrite (mapM_ext_in read_csv' read_csv); [done|].
      intros u Hu. rewrite <- Ecsv in Hu. by apply Hin in Hu as [_ Hc].
  - rewrite (mapM_ext_in read_parquet' read_parquet); [done|].
    intros u Hu. rewrite <- Epq in Hu. by apply Hin in Hu as [Hp _].
Qed.

(** X21. Files without extension are tried as parquet and then as CSV, and
    the parquet failure is not reported: when no listed file ends in
    [.parquet] or [.csv], an exception of [read_s3_prefix] is either the
    "No readable data files" error (no file without extension either), or
    the exception the CSV reader raised on a file without extension that
    the parquet reader had refused. *)
Theorem read_s3_prefix_noext_errors (prefix : string) (e : exn) :
  Forall (λ f, is_parquet f || is_csv f = false) (data_files glob prefix) →
  read_s3_prefix glob read_parquet read_csv concat prefix = Raise e →
  (e = ValueError ("No readable data files found under prefix: " +:+ prefix) ∧
   Forall (λ f, is_noext f = false) (data_files glob prefix)) ∨
  (∃ f e', f ∈ data_files glob prefix ∧ is_noext f = true ∧
           read_parquet (s3_url f) = Raise e' ∧ read_csv (s3_url f) = Raise e).
Proof.
  intros Hnone. rewrite Forall_forall in Hnone.
  assert (filter (λ f, is_parquet f = true) (data_files glob prefix) = []) as Hpq.
  { apply SplitFacts.filter_none. intros f Hf Hp. apply Hnone in Hf.
    rewrite Hp in Hf. done. }
  assert (filter (λ f, is_csv f = true) (data_files glob prefix) = []) as Hcsv.
  { apply SplitFacts.filter_none. intros f Hf Hc. apply Hnone in Hf.
    rewrite Hc, orb_true_r in Hf. done. }
  unfold read_s3_prefix. rewrite Hpq, Hcsv. cbn [fmap list_fmap].
  destruct (s3_url <$> filter (λ f, is_noext f = true) (data_files glob prefix))
    as [|z j] eqn:Eno.
  - intros [= <-]. left. split; [done|].
    apply Forall_forall. intros f Hf. destruct (is_noext f) eqn:E; [|done].
    assert (s3_url f ∈ s3_url <$> filter (λ f, is_noext f = true)
                                    (data_files glob prefix)) as Hin
      by (apply list_elem_of_fmap_2, list_elem_of_filter; by split).
    rewrite Eno in Hin. by apply elem_of_nil in Hin.
  - intros H. right.
    destruct (mapM (read_either read_parquet read_csv) (z :: j)) as [dfs|e0] eqn:Hm;
      [done|].
    injection H as ->. apply mapM_Raise in Hm as (u & Hu & Hr).
    rewrite <- Eno in Hu. apply list_elem_of_fmap in Hu as (f & -> & Hf).
    apply list_elem_of_filter in Hf as [Hno Hf].
    unfold read_either in Hr.
    destruct (read_parquet (s3_url f)) as [df|e'] eqn:Hp; [done|].
    exists f, e'. by split_and!.
Qed.

(** X22. A path that is not an [s3://] prefix ending in a slash is read as
    one file, as parquet first and as CSV if that fails; the readers'
    exceptions never escape: if both fail the result is one [ValueError]
    whose message holds the path and the text of both exceptions. *)
Theorem load_input_single_file (input_path : string) :
  startswith input_path "s3://" && endswith input_path "/" = false →
  (∀ df, load_input glob read_parquet read_csv concat str input_path = Ok df ↔
         read_parquet input_path = Ok df ∨
         ((∃ e, read_parquet input_path = Raise e) ∧ read_csv input_path = Ok df)) ∧
  (∀ e, load_input glob read_parquet read_csv concat str input_path = Raise e ↔
        ∃ pe ce, read_parquet input_path = Raise pe ∧
                 read_csv input_path = Raise ce ∧
                 e = ValueError ("Failed to read input as Parquet or CSV: "
                                 +:+ input_path +:+ LF
                                 +:+ "Parquet error: " +:+ str pe +:+ LF
                                 +:+ "CSV error: " +:+ str ce)) ∧
  (∀ pe ce, read_parquet input_path = Raise pe → read_csv input_path = Raise ce →
     ∃ msg, load_input glob read_parquet read_csv concat str input_path
              = Raise (ValueError msg) ∧
            occurs_in input_path msg ∧ occurs_in (str pe) msg ∧
            occurs_in (str ce) msg).
Proof.
  intros Hsingle. unfold load_input. rewrite Hsingle.
  destruct (read_parquet input_path) as [df0|pe0] eqn:Hp;
    [|destruct (read_csv input_path) as [df1|ce0] eqn:Hc].
  - split_and!.
    + intros df. split; [intros [= <-]; by left|].
      intros [[= <-]|[[e He] _]]; done.
    + intros e. split; [done|]. by intros (pe & ce & ? & _).
    + done.
  - split_and!.
    + intros df. split; [intros [= <-]; right; eauto|].
      intros [?|[_ [= <-]]]; done.
    + intros e. split; [done|]. by intros (pe & ce & _ & ? & _).
    + done.
  - split_and!.
    + intros df. split; [done|]. intros [?|[_ ?]]; done.
    + intros e. split.
      * intros [= <-]. by exists pe0, ce0.
      * intros (pe & ce & [= <-] & [= <-] & ->). done.
    + intros pe ce [= <-] [= <-]. eexists. split; [done|]. split_and!.
      * apply occurs_in_app_l, occurs_in_app_r, occurs_in_refl.
      * do 4 apply occurs_in_app_l. apply occurs_in_app_r, occurs_in_refl.
      * do 7 apply occurs_in_app_l. apply occurs_in_refl.
Qed.

(** X23. Trailing slashes of the prefix do not change what is read: the
    prefix with one more slash lists the same data files and returns the
    same table (only the text of the "No readable data files" error,
    which quotes the prefix, differs). *)
Theorem read_s3_prefix_trailing_slash (prefix : string) :
  data_files glob (prefix +:+ "/") = data_files glob prefix ∧
  ∀ df, read_s3_prefix glob read_parquet read_csv concat (prefix +:+ "/") = Ok df ↔
        read_s3_prefix glob read_parquet read_csv concat prefix = Ok df.
Proof.
  assert (data_files glob (prefix +:+ "/") = data_files glob prefix) as Hd
    by (unfold data_files; by rewrite rstrip_slash_slash).
  split; [done|]. intros df. unfold read_s3_prefix. rewrite Hd.
  destruct (s3_url <$> filter (λ f, is_parquet f = true) (data_files glob prefix));
    [|done].
  destruct (s3_url <$> filter (λ f, is_csv f = true) (data_files glob prefix));
    [|done].
  by destruct (s3_url <$> filter (λ f, is_noext f = true) (data_files glob prefix)).
Qed.

End LoadingExtras.

Lemma read_s3_prefix_nothing_to_read_witness :
  Loading.read_s3_prefix MoreExamples.listing_unreadable
      MoreExamples.reader_ok MoreExamples.reader_ok MoreExamples.concat_first
      "s3://bucket/curated/"
    = Raise (ValueError
        "No readable data files found under prefix: s3://bucket/curated/").
Proof.
  apply (read_s3_prefix_nothing_to_read MoreExamples.listing_unreadable
           MoreExamples.reader_ok MoreExamples.reader_ok
           MoreExamples.concat_first "s3://bucket/curated/").
  repeat (apply Forall_cons; split; [vm_compute; reflexivity|]).
  apply Forall_nil_2.
Defined.

Lemma read_s3_prefix_parquet_first_witness :
  Loading.read_s3_prefix MoreExamples.listing_mixed
      MoreExamples.reader_ok MoreExamples.reader_fails MoreExamples.concat_first
      "s3://bucket/curated/"
    = Ok MoreExamples.empty_table.
Proof.
  destruct (read_s3_prefix_parquet_first MoreExamples.listing_mixed
              MoreExamples.reader_ok MoreExamples.reader_fails
              MoreExamples.concat_first "s3://bucket/curated/") as [Hpq _].
  - apply Exists_cons_hd. vm_compute. reflexivity.
  - rewrite Hpq. vm_compute. reflexivity.
Defined.

Lemma read_s3_prefix_reads_listed_only_witness :
  Loading.read_s3_prefix MoreExamples.listing_mixed
      (λ path, if decide (path = "s3://bucket/other.parquet")
               then MoreExamples.reader_fails path else MoreExamples.reader_ok path)
      MoreExamples.reader_ok MoreExamples.concat_first "s3://bucket/curated/"
    = Loading.read_s3_prefix MoreExamples.listing_mixed
        MoreExamples.reader_ok MoreExamples.reader_ok MoreExamples.concat_first
        "s3://bucket/curated/".
Proof.
  apply (read_s3_prefix_reads_listed_only MoreExamples.listing_mixed
           MoreExamples.reader_ok MoreExamples.reader_ok
           MoreExamples.concat_first "s3://bucket/curated/").
  repeat (apply Forall_cons; split; [vm_compute; split; reflexivity|]).
  apply Forall_nil_2.
Defined.

Lemma read_s3_prefix_noext_errors_witness :
  ∃ f e', f ∈ Loading.data_files MoreExamples.listing_noext "s3://bucket/curated/" ∧
          Loading.is_noext f = true ∧
          MoreExamples.reader_fails (Loading.s3_url f) = Raise e' ∧
          MoreExamples.reader_fails (Loading.s3_url f)
            = Raise (ValueError "cannot read s3://bucket/curated/part-00000").
Proof.
  destruct (read_s3_prefix_noext_errors MoreExamples.listing_noext
              MoreExamples.reader_fails MoreExamples.reader_fails
              MoreExamples.concat_first "s3://bucket/curated/"
              (ValueError "cannot read s3://bucket/curated/part-00000"))
    as [[Hno _]|Hfile].
  - repeat (apply Forall_cons; split; [vm_compute; reflexivity|]).
    apply Forall_nil_2.
  - vm_compute. reflexivity.
  - discriminate Hno.
  - exact Hfile.
Defined.

Lemma load_input_single_file_witness :
  Loading.load_input MoreExamples.listing_mixed
      MoreExamples.reader_fails MoreExamples.reader_fails
      MoreExamples.concat_first MoreExamples.str_exn "data/users.csv"
    = Raise (ValueError
        ("Failed to read input as Parquet or CSV: data/users.csv" +:+ Loading.LF
         +:+ "Parquet error: cannot read data/users.csv" +:+ Loading.LF
         +:+ "CSV error: cannot read data/users.csv")).
Proof.
  destruct (load_input_single_file MoreExamples.listing_mixed
              MoreExamples.reader_fails MoreExamples.reader_fails
              MoreExamples.concat_first MoreExamples.str_exn "data/users.csv")
    as (_ & Hraise & _).
  - vm_compute. reflexivity.
  - apply Hraise.
    exists (ValueError "cannot read data/users.csv"),
           (ValueError "cannot read data/users.csv").
    split_and!; vm_compute; reflexivity.
Defined.
